(** * The encryption-key registry of badger: a shallow embedding

    Sources embedded here:
    - [y/encrypt.go]  ([XORBlock], [XORReader], [GenerateIV])
    - [key_registry.go] ([KeyRegistry], [OpenKeyRegistry], the registry
      iterator, [readKeyRegistry], [WriteKeyRegistry], [dataKey],
      [latestDataKey], [Close], [storeDataKey]).

    Bytes are integers ([Z]); a [[]byte] is a [list Z].  Machine integers are
    [Z] with their wrap-around written out.  Go's [error] results are the
    [Err] case of [result], a run-time panic is its [Panic] case. *)

From Stdlib Require Import ZArith Lia List String.
From stdpp Require Import base option list gmap strings.
Import ListNotations.

Local Open Scope string_scope.
Local Open Scope list_scope.
Local Open Scope Z_scope.

(** ** Bytes and fixed-width integers *)

Abbreviation bytes := (list Z).

Definition u8 (x : Z) : Z := Z.land x 255.
Definition u32 (x : Z) : Z := x mod 2 ^ 32.
Definition u64 (x : Z) : Z := x mod 2 ^ 64.
(** conversion of a 64-bit pattern to Go's [int64] *)
Definition i64 (x : Z) : Z := (x + 2 ^ 63) mod 2 ^ 64 - 2 ^ 63.

Definition nthZ (l : bytes) (i : nat) : Z := nth i l 0.

(** [make([]byte, n)] *)
Definition make (n : nat) : bytes := repeat 0 n.

(** [copy(dst, src)] into a buffer of fixed length: what a read of [src]
    leaves in [dst]. *)
Definition copy_into (dst src : bytes) : bytes :=
  take (length dst) src ++ drop (length src) dst.

(** [binary.BigEndian.PutUint32] and [binary.BigEndian.Uint32] *)
Definition PutUint32 (v : Z) : bytes :=
  [ u8 (Z.shiftr v 24); u8 (Z.shiftr v 16); u8 (Z.shiftr v 8); u8 v ].

Definition Uint32 (b : bytes) : Z :=
  Z.lor (Z.lor (Z.lor (nthZ b 3) (Z.shiftl (nthZ b 2) 8))
               (Z.shiftl (nthZ b 1) 16))
        (Z.shiftl (nthZ b 0) 24).

(** ** hash/crc32 with the Castagnoli polynomial

    [crc32.Checksum(data, y.CastagnoliCrcTable)], bit by bit (the table of
    the library is this loop tabulated). *)
Module CRC32C.

Definition poly : Z := 0x82F63B78.

Definition shift1 (crc : Z) : Z :=
  if Z.testbit crc 0 then Z.lxor (Z.shiftr crc 1) poly else Z.shiftr crc 1.

Definition update_byte (crc b : Z) : Z :=
  Nat.iter 8 shift1 (Z.lxor crc (u8 b)).

Definition Checksum (data : bytes) : Z :=
  Z.lxor (fold_left update_byte data 0xFFFFFFFF) 0xFFFFFFFF.

End CRC32C.

(** ** crypto/aes: the block cipher (FIPS 197)

    A block and a round key are 16 bytes, byte [4*c + r] being row [r] of
    column [c]. *)
Module AES.

Definition BlockSize : nat := 16.

Definition xtime (a : Z) : Z :=
  let b := Z.shiftl a 1 in
  if Z.testbit b 8 then Z.lxor (Z.land b 255) 0x1B else b.

(** multiplication in GF(2^8), [b] read bit by bit *)
Fixpoint gmul_aux (n : nat) (a b : Z) : Z :=
  match n with
  | O => 0
  | S n' =>
      Z.lxor (if Z.testbit b 0 then a else 0)
             (gmul_aux n' (xtime a) (Z.shiftr b 1))
  end.
Definition gmul (a b : Z) : Z := gmul_aux 8 a b.

(** the inverse is the 254th power *)
Definition ginv (a : Z) : Z :=
  Nat.iter 253 (gmul a) a.

Definition rotl8 (x : Z) (k : Z) : Z :=
  Z.land (Z.lor (Z.shiftl x k) (Z.shiftr x (8 - k))) 255.

Definition sbox_of (a : Z) : Z :=
  let i := ginv a in
  Z.lxor (Z.lxor (Z.lxor (Z.lxor (Z.lxor i (rotl8 i 1)) (rotl8 i 2))
                         (rotl8 i 3)) (rotl8 i 4)) 0x63.

Definition sbox_table : bytes :=
  Eval vm_compute in map (fun i => sbox_of (Z.of_nat i)) (seq 0 256).

Definition sbox (a : Z) : Z := nthZ sbox_table (Z.to_nat (u8 a)).

Definition xor_bytes (a b : bytes) : bytes := zip_with Z.lxor a b.

Definition SubBytes (s : bytes) : bytes := map sbox s.

Definition ShiftRows (s : bytes) : bytes :=
  map (fun i => nthZ s (4 * ((i / 4 + i mod 4) mod 4) + i mod 4)%nat)
      (seq 0 16).

Definition mix_column (c : bytes) : bytes :=
  let a0 := nthZ c 0 in let a1 := nthZ c 1 in
  let a2 := nthZ c 2 in let a3 := nthZ c 3 in
  [ Z.lxor (Z.lxor (gmul a0 2) (gmul a1 3)) (Z.lxor a2 a3);
    Z.lxor (Z.lxor a0 (gmul a1 2)) (Z.lxor (gmul a2 3) a3);
    Z.lxor (Z.lxor a0 a1) (Z.lxor (gmul a2 2) (gmul a3 3));
    Z.lxor (Z.lxor (gmul a0 3) a1) (Z.lxor a2 (gmul a3 2)) ].

Definition MixColumns (s : bytes) : bytes :=
  mix_column (take 4 s) ++ mix_column (take 4 (drop 4 s)) ++
  mix_column (take 4 (drop 8 s)) ++ mix_column (take 4 (drop 12 s)).

(** Key expansion: the schedule is a list of 4-byte words. *)
Definition RotWord (w : bytes) : bytes := drop 1 w ++ take 1 w.
Definition SubWord (w : bytes) : bytes := map sbox w.

Fixpoint expand (fuel : nat) (Nk i : nat) (rcon : Z) (w : list bytes)
  : list bytes :=
  match fuel with
  | O => w
  | S fuel' =>
      let prev := nth (i - 1) w [] in
      let back := nth (i - Nk) w [] in
      let '(temp, rcon') :=
        if (i mod Nk =? 0)%nat
        then (xor_bytes (SubWord (RotWord prev)) [rcon; 0; 0; 0], xtime rcon)
        else if ((6 <? Nk) && (i mod Nk =? 4))%nat
             then (SubWord prev, rcon)
             else (prev, rcon) in
      expand fuel' Nk (S i) rcon' (w ++ [xor_bytes back temp])
  end.

Fixpoint words (n : nat) (k : bytes) : list bytes :=
  match n with
  | O => []
  | S n' => take 4 k :: words n' (drop 4 k)
  end.

(** the [Nr + 1] round keys of a key of 16, 24 or 32 bytes *)
Definition round_keys (key : bytes) : list bytes :=
  let Nk := (length key / 4)%nat in
  let Nr := (Nk + 6)%nat in
  let w := expand (4 * (Nr + 1) - Nk) Nk Nk 1 (words Nk key) in
  map (fun r => concat (take 4 (drop (4 * r) w))) (seq 0 (Nr + 1)).

Definition round (s rk : bytes) : bytes :=
  xor_bytes (MixColumns (ShiftRows (SubBytes s))) rk.

Definition final_round (s rk : bytes) : bytes :=
  xor_bytes (ShiftRows (SubBytes s)) rk.

(** [Block.Encrypt] under an expanded key *)
Definition encrypt_with (rks : list bytes) (blk : bytes) : bytes :=
  match rks with
  | [] => blk
  | rk0 :: rest =>
      let s0 := xor_bytes blk rk0 in
      let mid := take (length rest - 1) rest in
      let last_rk := nth (length rest - 1) rest [] in
      final_round (fold_left round mid s0) last_rk
  end.

Definition Encrypt (key blk : bytes) : bytes :=
  encrypt_with (round_keys key) blk.

End AES.

(** ** Errors and results *)

Inductive error : Type :=
| EOF                        (* io.EOF *)
| ErrUnexpectedEOF           (* io.ErrUnexpectedEOF *)
| ErrShortWrite              (* io.ErrShortWrite *)
| ErrInvalid                 (* os.ErrInvalid: a method of a nil *os.File *)
| ErrClosed                  (* os.ErrClosed *)
| ErrNotExist                (* os.ErrNotExist *)
| ErrBadDescriptor           (* EBADF: the descriptor is not open for this *)
| ErrEntropy                 (* the random source failed *)
| KeySizeError (n : nat)     (* aes.KeySizeError *)
| ErrProto (msg : string)    (* an error of the generated decoder *)
| errBadChecksum
| ErrEncryptionKeyMismatch
| ErrInvalidDataKeyID
| Wrapf (e : error) (msg : string).   (* y.Wrapf(e, msg) *)

Inductive result (A : Type) : Type :=
| Ok (a : A)
| Err (e : error)
| Panic (msg : string).
Arguments Ok {A} a.
Arguments Err {A} e.
Arguments Panic {A} msg.

(** Procedures are state transformers that may fail; the state survives a
    failure, as the heap survives an early [return err]. *)
Definition M (S A : Type) : Type := S -> result A * S.

Definition ret {S A} (a : A) : M S A := fun s => (Ok a, s).
Definition fail {S A} (e : error) : M S A := fun s => (Err e, s).
Definition panic {S A} (msg : string) : M S A := fun s => (Panic msg, s).
Definition bind {S A B} (m : M S A) (k : A -> M S B) : M S B :=
  fun s =>
    match m s with
    | (Ok a, s') => k a s'
    | (Err e, s') => (Err e, s')
    | (Panic msg, s') => (Panic msg, s')
    end.
Definition get {S} : M S S := fun s => (Ok s, s).
Definition put {S} (s : S) : M S unit := fun _ => (Ok tt, s).
Definition modify {S} (f : S -> S) : M S unit := fun s => (Ok tt, f s).
(** a pure fallible computation inside a procedure *)
Definition lift {S A} (r : result A) : M S A := fun s => (r, s).

Notation "x <- m ;; k" := (bind m (fun x => k))
  (at level 63, m at next level, right associativity).
Notation "m ;;; k" := (bind m (fun _ => k))
  (at level 63, right associativity).

(** ** y/encrypt.go *)

(** [aes.NewCipher]: the key must have 16, 24 or 32 bytes. *)
Definition valid_key_len (n : nat) : bool :=
  ((n =? 16) || (n =? 24) || (n =? 32))%nat.

Definition NewCipher (key : bytes) : result (list bytes) :=
  if valid_key_len (length key)
  then Ok (AES.round_keys key)
  else Err (KeySizeError (length key)).

(** [cipher.NewCTR] and its stream: the counter block and the key-stream
    bytes already produced and not yet used. *)
Record ctr : Type := mkCtr {
  ctr_block : list bytes;
  ctr_counter : bytes;
  ctr_out : bytes
}.

Definition NewCTR (block : list bytes) (iv : bytes) : result ctr :=
  if (length iv =? AES.BlockSize)%nat
  then Ok (mkCtr block iv [])
  else Panic "cipher.NewCTR: IV length must equal block size".

(** the counter is a big-endian integer of one block *)
Fixpoint inc_rev (c : bytes) : bytes :=
  match c with
  | [] => []
  | b :: c' => if u8 (b + 1) =? 0 then 0 :: inc_rev c' else u8 (b + 1) :: c'
  end.
Definition inc_counter (c : bytes) : bytes := rev (inc_rev (rev c)).

(** the next byte of the key stream; a block of the cipher is never empty,
    the last case is there for the match to be complete *)
Definition next_key_byte (x : ctr) : Z * ctr :=
  match ctr_out x with
  | k :: out => (k, mkCtr (ctr_block x) (ctr_counter x) out)
  | [] =>
      match AES.encrypt_with (ctr_block x) (ctr_counter x) with
      | k :: out => (k, mkCtr (ctr_block x) (inc_counter (ctr_counter x)) out)
      | [] => (0, x)
      end
  end.

(** [stream.XORKeyStream(dst, src)] with [len(dst) = len(src)]: the bytes
    left in [dst], and the stream afterwards. *)
Fixpoint XORKeyStream (x : ctr) (src : bytes) : bytes * ctr :=
  match src with
  | [] => ([], x)
  | b :: src' =>
      let '(k, x1) := next_key_byte x in
      let '(dst, x2) := XORKeyStream x1 src' in
      (Z.lxor b k :: dst, x2)
  end.

Definition XORBlock (src key iv : bytes) : result bytes :=
  match NewCipher key with
  | Err e => Err e
  | Panic msg => Panic msg
  | Ok block =>
      match NewCTR block iv with
      | Err e => Err e
      | Panic msg => Panic msg
      | Ok stream => Ok (fst (XORKeyStream stream src))
      end
  end.

(** An [io.Reader] as its caller sees it: the results of the successive
    calls of [Read], each the bytes delivered and the error returned with
    them; once they are used up [Read] returns [(0, io.EOF)]. *)
Definition Reader : Type := list (bytes * option error).

Definition reader_Read (buf : bytes) (r : Reader)
  : (bytes * option error) * Reader :=
  match r with
  | [] => (([], Some EOF), [])
  | (p, e) :: r' => ((take (length buf) p, e), r')
  end.

(** An [io.Writer]: what was written, and the room left ([None]: no limit).
    A [Write] that does not fit writes nothing and fails. *)
Record Writer : Type := mkWriter {
  written : bytes;
  room : option nat
}.

Definition writer_Write (p : bytes) : M Writer unit :=
  fun w =>
    match room w with
    | None => (Ok tt, mkWriter (written w ++ p) None)
    | Some n =>
        if (length p <=? n)%nat
        then (Ok tt, mkWriter (written w ++ p) (Some (n - length p)%nat))
        else (Err ErrShortWrite, w)
    end.

Definition bufferSize : nat := 1024.

(** one turn of the [for] loop of [XORReader]: [None] after [break], else
    the stream and the two buffers for the next turn *)
Definition XORReader_turn (stream : ctr) (bufIn bufOut : bytes)
    (rd : bytes * option error) : M Writer (option (ctr * bytes * bytes)) :=
  let '(p, err) := rd in
  match err with
  | Some EOF | None =>
      let bytesRead := length p in
      let bufIn := copy_into bufIn p in
      let '(dst, stream) := XORKeyStream stream (take bytesRead bufIn) in
      let bufOut := copy_into bufOut dst in
      writer_Write (take bytesRead bufIn) ;;;
      match err with
      | Some _ => ret None
      | None => ret (Some (stream, bufIn, bufOut))
      end
  | Some e => fail e
  end.

Fixpoint XORReader_loop (stream : ctr) (bufIn bufOut : bytes) (r : Reader)
  : M Writer unit :=
  match r with
  | [] =>
      XORReader_turn stream bufIn bufOut (fst (reader_Read bufIn r)) ;;; ret tt
  | _ :: r' =>
      next <- XORReader_turn stream bufIn bufOut (fst (reader_Read bufIn r)) ;;
      match next with
      | None => ret tt
      | Some (stream, bufIn, bufOut) => XORReader_loop stream bufIn bufOut r'
      end
  end.

Definition XORReader (r : Reader) (key iv : bytes) : M Writer unit :=
  block <- lift (NewCipher key) ;;
  stream <- lift (NewCTR block iv) ;;
  XORReader_loop stream (make bufferSize) (make bufferSize) r.

(** ** The world outside the registry: files, random source, clock *)

(** An open descriptor: the file it reads and writes, its offset, and
    whether it was opened for writing. *)
Record OpenFile : Type := mkOpenFile {
  of_path : string;
  of_off : nat;
  of_writable : bool
}.

(** [*os.File]: [nil] or an open-file number *)
Definition File : Type := option nat.

Record World : Type := mkWorld {
  files : gmap string bytes;   (* the contents of the files, by path *)
  fds : gmap nat OpenFile;     (* the descriptors that are open *)
  next_fd : nat;               (* the number of the next descriptor *)
  entropy : bytes;             (* what crypto/rand will deliver; it fails
                                  when fewer bytes are left than asked for *)
  clock : nat -> Z;            (* the readings of the wall clock, in
                                  nanoseconds since the epoch *)
  ticks : nat                  (* how many readings were taken *)
}.

Definition set_files (f : gmap string bytes) (w : World) : World :=
  mkWorld f (fds w) (next_fd w) (entropy w) (clock w) (ticks w).
Definition set_fds (d : gmap nat OpenFile) (w : World) : World :=
  mkWorld (files w) d (next_fd w) (entropy w) (clock w) (ticks w).

(** [rand.Read(b)] for a [b] of [n] bytes *)
Definition rand_Read (n : nat) : M World bytes :=
  fun w =>
    if (n <=? length (entropy w))%nat
    then (Ok (take n (entropy w)),
          mkWorld (files w) (fds w) (next_fd w) (drop n (entropy w))
                  (clock w) (ticks w))
    else (Err ErrEntropy, w).

(** [y.GenerateIV] *)
Definition GenerateIV : M World bytes := rand_Read AES.BlockSize.

(** [time.Now()], as nanoseconds since the epoch *)
Definition time_Now : M World Z :=
  fun w =>
    (Ok (clock w (ticks w)),
     mkWorld (files w) (fds w) (next_fd w) (entropy w) (clock w)
             (S (ticks w))).

Definition Second : Z := 1000000000.
Definition minDuration : Z := - 2 ^ 63.
Definition maxDuration : Z := 2 ^ 63 - 1.

(** [time.Since(time.Unix(sec, 0))]: a [time.Duration], which saturates *)
Definition time_Since_Unix (sec : Z) : M World Z :=
  now <- time_Now ;;
  let d := now - sec * Second in
  ret (if d <? minDuration then minDuration
       else if maxDuration <? d then maxDuration else d).

(** [t.Unix()] *)
Definition Unix_of (now : Z) : Z := now / Second.

(** [f.Read(b)]: the number of bytes read and what [b] holds afterwards.
    A read of no bytes returns at once; at the end of the file the error
    is [io.EOF]; otherwise the bytes that are there are delivered, up to
    [len(b)], without an error. *)
Definition file_Read (f : File) (b : bytes) : M World (nat * bytes) :=
  fun w =>
    match f with
    | None => (Err ErrInvalid, w)
    | Some fd =>
        match fds w !! fd with
        | None => (Err ErrClosed, w)
        | Some o =>
            match files w !! of_path o with
            | None => (Err ErrNotExist, w)
            | Some content =>
                if (length b =? 0)%nat then (Ok (0%nat, b), w)
                else
                  let p := take (length b) (drop (of_off o) content) in
                  if (length p =? 0)%nat then (Err EOF, w)
                  else
                    (Ok (length p, copy_into b p),
                     set_fds (<[fd := mkOpenFile (of_path o)
                                        (of_off o + length p)
                                        (of_writable o)]> (fds w)) w)
            end
        end
    end.

(** [f.Write(p)]: at the offset of the descriptor, which moves on. *)
Definition file_Write (f : File) (p : bytes) : M World unit :=
  fun w =>
    match f with
    | None => (Err ErrInvalid, w)
    | Some fd =>
        match fds w !! fd with
        | None => (Err ErrClosed, w)
        | Some o =>
            if of_writable o then
              match files w !! of_path o with
              | None => (Err ErrNotExist, w)
              | Some content =>
                  let before :=
                    take (of_off o)
                         (content ++ make (of_off o - length content)) in
                  let after := drop (of_off o + length p) content in
                  (Ok tt,
                   set_files (<[of_path o := before ++ p ++ after]> (files w))
                     (set_fds (<[fd := mkOpenFile (of_path o)
                                         (of_off o + length p) true]> (fds w))
                              w))
              end
            else (Err ErrBadDescriptor, w)
        end
    end.

(** [f.Close()] *)
Definition file_Close (f : File) : M World unit :=
  fun w =>
    match f with
    | None => (Err ErrInvalid, w)
    | Some fd =>
        match fds w !! fd with
        | None => (Err ErrClosed, w)
        | Some _ => (Ok tt, set_fds (delete fd (fds w)) w)
        end
    end.

Definition open_fd (path : string) (writable : bool) : M World File :=
  fun w =>
    (Ok (Some (next_fd w)),
     mkWorld (files w)
             (<[next_fd w := mkOpenFile path 0 writable]> (fds w))
             (S (next_fd w)) (entropy w) (clock w) (ticks w)).

(** The flags of [y.OpenExistingFile]. *)
Definition y_Sync : Z := 1.
Definition y_ReadOnly : Z := 2.

(** Modelled from the spec: [y.OpenExistingFile] is not among the sources.
    It opens a file that exists, without write access when the read-only
    flag is set, and fails with a not-exist error when there is no file. *)
Definition OpenExistingFile (path : string) (flags : Z) : M World File :=
  w <- get ;;
  match files w !! path with
  | None => fail ErrNotExist
  | Some _ => open_fd path (negb (Z.testbit flags 1))
  end.

(** Modelled from the spec: [y.OpenTruncFile] is not among the sources.
    It opens a file for writing, creating it or emptying it. *)
Definition OpenTruncFile (path : string) (sync : bool) : M World File :=
  modify (fun w => set_files (<[path := []]> (files w)) w) ;;;
  open_fd path true.

(** [os.Rename] *)
Definition Rename (old new : string) : M World unit :=
  w <- get ;;
  match files w !! old with
  | None => fail ErrNotExist
  | Some content =>
      put (set_files (<[new := content]> (delete old (files w))) w)
  end.

(** Modelled from the spec: [syncDir] is not among the sources; it is the
    "flush directory entry" primitive, which changes no contents. *)
Definition syncDir (dir : string) : M World unit := ret tt.

(** [os.IsNotExist] *)
Definition IsNotExist (e : error) : bool :=
  match e with ErrNotExist => true | _ => false end.

(** [filepath.Join] of a directory and a file name *)
Definition Join (dir name : string) : string :=
  String.append dir (String.append "/" name).

(** ** pb.DataKey *)

Record DataKey : Type := mkDataKey {
  KeyId : Z;         (* uint64 *)
  Data : bytes;
  Iv : bytes;
  CreatedAt : Z      (* int64 *)
}.

Definition set_Data (d : bytes) (k : DataKey) : DataKey :=
  mkDataKey (KeyId k) d (Iv k) (CreatedAt k).

(** Modelled from the spec: the package [pb] with [DataKey.Marshal] and
    [DataKey.Unmarshal] is not among the sources.  The spec asks for a
    stable serialization of the four fields; this is the protocol-buffer
    wire format of the message (fields 1 to 4: varint, bytes, bytes,
    varint; a field that is zero or empty is left out).  [Marshal] has no
    failing case.  [Unmarshal] reads the four fields in any order and
    rejects every other tag. *)
Module Pb.

Fixpoint encodeVarint (fuel : nat) (v : Z) : bytes :=
  match fuel with
  | O => []
  | S fuel' =>
      if v <? 128 then [v]
      else Z.lor (Z.land v 127) 128 :: encodeVarint fuel' (Z.shiftr v 7)
  end.

(** a [uint64] takes at most ten bytes *)
Definition varint (v : Z) : bytes := encodeVarint 10 (u64 v).

(** a field is left out when it is zero or empty *)
Definition fieldVarint (tag v : Z) : bytes :=
  if v =? 0 then [] else tag :: varint v.

Definition fieldBytes (tag : Z) (d : bytes) : bytes :=
  if (length d =? 0)%nat then []
  else tag :: varint (Z.of_nat (length d)) ++ d.

Definition Marshal (m : DataKey) : bytes :=
  fieldVarint 0x08 (KeyId m) ++ fieldBytes 0x12 (Data m) ++
  fieldBytes 0x1a (Iv m) ++ fieldVarint 0x20 (CreatedAt m).

Fixpoint decodeVarint (fuel : nat) (shift acc : Z) (l : bytes)
  : result (Z * bytes) :=
  match fuel with
  | O => Err (ErrProto "integer overflow")
  | S fuel' =>
      match l with
      | [] => Err ErrUnexpectedEOF
      | b :: l' =>
          let acc' := Z.lor acc (u64 (Z.shiftl (Z.land b 127) shift)) in
          if b <? 128 then Ok (acc', l')
          else decodeVarint fuel' (shift + 7) acc' l'
      end
  end.

Definition readVarint (l : bytes) : result (Z * bytes) :=
  decodeVarint 10 0 0 l.

Definition readBytes (l : bytes) : result (bytes * bytes) :=
  match readVarint l with
  | Ok (n, l') =>
      if 2 ^ 63 <=? n then Err (ErrProto "invalid length")
      else if Z.of_nat (length l') <? n then Err ErrUnexpectedEOF
      else Ok (take (Z.to_nat n) l', drop (Z.to_nat n) l')
  | Err e => Err e
  | Panic msg => Panic msg
  end.

(** one field: its tag, then its value *)
Definition readField (m : DataKey) (l : bytes) : result (DataKey * bytes) :=
  match readVarint l with
  | Ok (wire, l1) =>
      let fieldNum := Z.shiftr wire 3 in
      let wireType := Z.land wire 7 in
      if (fieldNum =? 1) && (wireType =? 0) then
        match readVarint l1 with
        | Ok (v, l2) => Ok (mkDataKey v (Data m) (Iv m) (CreatedAt m), l2)
        | Err e => Err e
        | Panic msg => Panic msg
        end
      else if (fieldNum =? 2) && (wireType =? 2) then
        match readBytes l1 with
        | Ok (d, l2) => Ok (mkDataKey (KeyId m) d (Iv m) (CreatedAt m), l2)
        | Err e => Err e
        | Panic msg => Panic msg
        end
      else if (fieldNum =? 3) && (wireType =? 2) then
        match readBytes l1 with
        | Ok (d, l2) => Ok (mkDataKey (KeyId m) (Data m) d (CreatedAt m), l2)
        | Err e => Err e
        | Panic msg => Panic msg
        end
      else if (fieldNum =? 4) && (wireType =? 0) then
        match readVarint l1 with
        | Ok (v, l2) => Ok (mkDataKey (KeyId m) (Data m) (Iv m) (i64 v), l2)
        | Err e => Err e
        | Panic msg => Panic msg
        end
      else Err (ErrProto "unexpected tag")
  | Err e => Err e
  | Panic msg => Panic msg
  end.

(** every field takes at least one byte, so [length l] turns are enough *)
Fixpoint Unmarshal_loop (fuel : nat) (m : DataKey) (l : bytes)
  : result DataKey :=
  match l with
  | [] => Ok m
  | _ :: _ =>
      match fuel with
      | O => Err (ErrProto "unreachable")
      | S fuel' =>
          match readField m l with
          | Ok (m', l') => Unmarshal_loop fuel' m' l'
          | Err e => Err e
          | Panic msg => Panic msg
          end
      end
  end.

Definition Unmarshal (l : bytes) : result DataKey :=
  Unmarshal_loop (length l) (mkDataKey 0 [] [] 0) l.

End Pb.

(** ** key_registry.go *)

Definition KeyRegistryFileName : string := "KEYREGISTRY".
Definition KeyRegistryRewriteFileName : string := "REWRITE-KEYREGISTRY".

(** ["Hello Badger"] *)
Definition sanityText : bytes :=
  [72; 101; 108; 108; 111; 32; 66; 97; 100; 103; 101; 114].

(** the options the registry reads *)
Record Options : Type := mkOptions {
  Dir : string;
  ReadOnly : bool;
  EncryptionKey : bytes;
  EncryptionKeyRotationDuration : Z   (* a time.Duration: nanoseconds *)
}.

Record KeyRegistry : Type := mkKeyRegistry {
  dataKeys : gmap Z DataKey;
  lastCreated : Z;
  nextKeyID : Z;
  fp : File;
  opt : Options
}.

Definition set_dataKeys (m : gmap Z DataKey) (kr : KeyRegistry) :=
  mkKeyRegistry m (lastCreated kr) (nextKeyID kr) (fp kr) (opt kr).
Definition set_lastCreated (t : Z) (kr : KeyRegistry) :=
  mkKeyRegistry (dataKeys kr) t (nextKeyID kr) (fp kr) (opt kr).
Definition set_nextKeyID (n : Z) (kr : KeyRegistry) :=
  mkKeyRegistry (dataKeys kr) (lastCreated kr) n (fp kr) (opt kr).
Definition set_fp (f : File) (kr : KeyRegistry) :=
  mkKeyRegistry (dataKeys kr) (lastCreated kr) (nextKeyID kr) f (opt kr).

Definition newKeyRegistry (o : Options) : KeyRegistry :=
  mkKeyRegistry ∅ 0 0 None o.

(** A method runs on its receiver and the world. *)
Definition inWorld {X A} (m : M World A) : M (X * World) A :=
  fun s => let '(r, w) := m (snd s) in (r, (fst s, w)).
Definition self {X} : M (X * World) X := fun s => (Ok (fst s), s).
Definition update {X} (f : X -> X) : M (X * World) unit :=
  fun s => (Ok tt, (f (fst s), snd s)).

(** an error as a value: [x, err := f()] before [err] is looked at *)
Definition catch {S A} (m : M S A) : M S (A + error) :=
  fun s =>
    match m s with
    | (Ok a, s') => (Ok (inl a), s')
    | (Err e, s') => (Ok (inr e), s')
    | (Panic msg, s') => (Panic msg, s')
    end.

(** [storeDataKey(buf, storageKey, k)]: the state is the buffer and the
    key that [k] points to. *)
Definition storeDataKey_xor (storageKey : bytes) : M (bytes * DataKey) unit :=
  if (length storageKey =? 0)%nat then ret tt
  else
    fun s =>
      let '(buf, k) := s in
      match XORBlock (Data k) storageKey (Iv k) with
      | Ok d => (Ok tt, (buf, set_Data d k))
      | Err e => (Err e, (buf, set_Data [] k))
      | Panic msg => (Panic msg, s)
      end.

Definition storeDataKey (storageKey : bytes) : M (bytes * DataKey) unit :=
  storeDataKey_xor storageKey ;;;
  s <- get ;;
  let data := Pb.Marshal (snd s) in
  let lenCrcBuf :=
    PutUint32 (u32 (Z.of_nat (length data))) ++
    PutUint32 (CRC32C.Checksum data) in
  modify (fun s => (fst s ++ lenCrcBuf, snd s)) ;;;
  modify (fun s => (fst s ++ data, snd s)) ;;;
  storeDataKey_xor storageKey.

(** *** The iterator over the registry file *)

Record keyRegistryIterator : Type := mkIterator {
  encryptionKey : bytes;
  kri_fp : File;
  lenCrcBuf : bytes      (* [8]byte *)
}.

Definition set_lenCrcBuf (b : bytes) (kri : keyRegistryIterator) :=
  mkIterator (encryptionKey kri) (kri_fp kri) b.

Definition bytes_Equal (a b : bytes) : bool := bool_decide (a = b).

Definition isValidRegistry (f : File) (encryptionKey : bytes)
  : M World unit :=
  let iv := make AES.BlockSize in
  r <- catch (file_Read f iv) ;;
  match r with
  | inr err => fail (Wrapf err "Error while reading IV for ket registry.")
  | inl (_, iv) =>
      let eSanityText := make (length sanityText) in
      rd <- file_Read f eSanityText ;;
      let eSanityText := snd rd in
      eSanityText <-
        (if (0 <? length encryptionKey)%nat
         then lift (XORBlock eSanityText encryptionKey iv)
         else ret eSanityText) ;;
      if negb (bytes_Equal eSanityText sanityText)
      then fail ErrEncryptionKeyMismatch
      else ret tt
  end.

Definition newKeyRegistryIterator (f : File) (encryptionKey : bytes)
  : M World keyRegistryIterator :=
  isValidRegistry f encryptionKey ;;;
  ret (mkIterator encryptionKey f (make 8)).

(** the closure [isEOF] of [Next], applied in [return nil, isEOF(err)] *)
Definition isEOF {S} (err : error) : M S (option DataKey) :=
  match err with
  | EOF => ret None
  | _ => fail err
  end.

Definition Next : M (keyRegistryIterator * World) (option DataKey) :=
  kri <- self ;;
  r <- catch (inWorld (file_Read (kri_fp kri) (lenCrcBuf kri))) ;;
  match r with
  | inr err => isEOF err
  | inl (_, buf) =>
      update (set_lenCrcBuf buf) ;;;
      let l := Uint32 (take 4 buf) in
      let data := make (Z.to_nat l) in
      r <- catch (inWorld (file_Read (kri_fp kri) data)) ;;
      match r with
      | inr err => isEOF err
      | inl (_, data) =>
          if negb (CRC32C.Checksum data =? Uint32 (drop 4 buf))
          then fail errBadChecksum
          else
            dataKey <- lift (Pb.Unmarshal data) ;;
            if (0 <? length (encryptionKey kri))%nat
            then
              d <- lift (XORBlock (Data dataKey) (encryptionKey kri)
                                  (Iv dataKey)) ;;
              ret (Some (set_Data d dataKey))
            else ret (Some dataKey)
      end
  end.

(** *** Reading the registry *)

(** the body of the [for] loop of [readKeyRegistry] *)
Definition readKeyRegistry_body (dk : DataKey) (kr : KeyRegistry)
  : KeyRegistry :=
  let kr :=
    if nextKeyID kr <? KeyId dk then set_nextKeyID (KeyId dk) kr else kr in
  let kr :=
    if lastCreated kr <? CreatedAt dk
    then set_lastCreated (CreatedAt dk) kr else kr in
  set_dataKeys (<[nextKeyID kr := dk]> (dataKeys kr)) kr.

(** The loop runs while [Next] returns a key.  Each turn reads at least one
    byte of the file, so a number of turns above the number of bytes left
    is never used up. *)
Fixpoint readKeyRegistry_loop (fuel : nat) (kr : KeyRegistry)
  : M (keyRegistryIterator * World) KeyRegistry :=
  match fuel with
  | O => panic "unreachable"
  | S fuel' =>
      dk <- Next ;;
      match dk with
      | None => ret kr
      | Some dk => readKeyRegistry_loop fuel' (readKeyRegistry_body dk kr)
      end
  end.

(** the bytes between the offset of a descriptor and the end of its file *)
Definition bytes_left (f : File) (w : World) : nat :=
  match f with
  | None => 0
  | Some fd =>
      match fds w !! fd with
      | None => 0
      | Some o =>
          match files w !! of_path o with
          | None => 0
          | Some content => length content - of_off o
          end
      end
  end.

(** On an error the source returns the registry built so far along with
    the error; its caller looks at the error only. *)
Definition readKeyRegistry (f : File) (o : Options) : M World KeyRegistry :=
  itr <- newKeyRegistryIterator f (EncryptionKey o) ;;
  fun w =>
    let '(r, s) :=
      readKeyRegistry_loop (S (bytes_left f w)) (newKeyRegistry o) (itr, w) in
    (r, snd s).

(** *** Writing the registry *)

(** the [for] loop of [WriteKeyRegistry] over the keys of the map; a key
    is reached through its pointer, so what [storeDataKey] leaves in it
    stays in the map *)
Fixpoint WriteKeyRegistry_loop (ids : list Z) (storageKey : bytes)
  : M (bytes * KeyRegistry) unit :=
  match ids with
  | [] => ret tt
  | id :: ids' =>
      fun s =>
        let '(buf, reg) := s in
        match dataKeys reg !! id with
        | None => WriteKeyRegistry_loop ids' storageKey s
        | Some k =>
            let '(r, (buf', k')) := storeDataKey storageKey (buf, k) in
            let s' := (buf', set_dataKeys (<[id := k']> (dataKeys reg)) reg) in
            match r with
            | Ok _ => WriteKeyRegistry_loop ids' storageKey s'
            | Err e => (Err e, s')
            | Panic msg => (Panic msg, s')
            end
        end
  end.

(** [closeBeforeReturn] *)
Definition closeBeforeReturn {A} (f : File) (err : error) : M World A :=
  catch (file_Close f) ;;; fail err.

(** Go leaves the order of a [range] over a map open; here it is the order
    of [map_to_list]. *)
Definition WriteKeyRegistry (o : Options) : M (KeyRegistry * World) unit :=
  let tmpPath := Join (Dir o) KeyRegistryRewriteFileName in
  f <- inWorld (OpenTruncFile tmpPath true) ;;
  r <- catch (inWorld GenerateIV) ;;
  match r with
  | inr err => inWorld (closeBeforeReturn f err)
  | inl iv =>
      r <- (if (0 <? length (EncryptionKey o))%nat
            then catch (lift (XORBlock sanityText (EncryptionKey o) iv))
            else ret (inl sanityText)) ;;
      match r with
      | inr err => inWorld (closeBeforeReturn f err)
      | inl eSanity =>
          let buf := iv ++ eSanity in
          reg <- self ;;
          let '(r, (buf, reg')) :=
            WriteKeyRegistry_loop (fst <$> map_to_list (dataKeys reg))
                                  (EncryptionKey o) (buf, reg) in
          update (fun _ => reg') ;;;
          match r with
          | Err err => inWorld (closeBeforeReturn f err)
          | Panic msg => panic msg
          | Ok _ =>
              r <- catch (inWorld (file_Write f buf)) ;;
              match r with
              | inr err => inWorld (closeBeforeReturn f err)
              | inl _ =>
                  inWorld (file_Close f) ;;;
                  inWorld (Rename tmpPath
                             (Join (Dir o) KeyRegistryFileName)) ;;;
                  inWorld (syncDir (Dir o))
              end
          end
      end
  end.

(** *** Opening the registry *)

(** lines 95 to 103 of [OpenKeyRegistry], once the file is open *)
Definition OpenKeyRegistry_read (f : File) (o : Options)
  : M World KeyRegistry :=
  r <- catch (readKeyRegistry f o) ;;
  match r with
  | inr err => catch (file_Close f) ;;; fail err
  | inl kr => ret (set_fp f kr)
  end.

Definition OpenKeyRegistry (o : Options) : M World KeyRegistry :=
  let path := Join (Dir o) KeyRegistryFileName in
  let flags := if ReadOnly o then Z.lor 0 y_ReadOnly else Z.lor 0 y_Sync in
  r <- catch (OpenExistingFile path flags) ;;
  match r with
  | inr err =>
      if IsNotExist err then
        let kr := newKeyRegistry o in
        if ReadOnly o then ret kr
        else
          r <- catch (fun w =>
                        let '(r, s) := WriteKeyRegistry o (kr, w) in
                        (r, snd s)) ;;
          match r with
          | inr err => fail (Wrapf err "Error while writing key registry.")
          | inl _ =>
              f <- OpenExistingFile path flags ;;
              OpenKeyRegistry_read f o
          end
      else fail (Wrapf err "Error while opening key registry.")
  | inl f => OpenKeyRegistry_read f o
  end.

(** *** Serving keys *)

(** [nil, nil] is [Ok None]; the message of the wrapped error carries the
    ID. *)
Definition dataKey (kr : KeyRegistry) (id : Z) : result (option DataKey) :=
  if id =? 0 then Ok None
  else
    match dataKeys kr !! id with
    | None => Err (Wrapf ErrInvalidDataKeyID "Error for the KEY ID %d")
    | Some dk => Ok (Some dk)
    end.

(** The locks of the registry order its callers; here one call runs at a
    time.  [time.Now] is read twice, for the age of the last key and for
    the creation time of the new one. *)
Definition latestDataKey : M (KeyRegistry * World) (option DataKey) :=
  kr <- self ;;
  if (length (EncryptionKey (opt kr)) =? 0)%nat then ret None
  else
    diff <- inWorld (time_Since_Unix (lastCreated kr)) ;;
    if diff <? EncryptionKeyRotationDuration (opt kr)
    then ret (dataKeys kr !! nextKeyID kr)
    else
      update (fun kr => set_nextKeyID (u64 (nextKeyID kr + 1)) kr) ;;;
      iv <- inWorld GenerateIV ;;
      k <- inWorld (rand_Read (length (EncryptionKey (opt kr)))) ;;
      now <- inWorld time_Now ;;
      kr <- self ;;
      let dk := mkDataKey (nextKeyID kr) k iv (Unix_of now) in
      let '(r, (buf, dk)) :=
        storeDataKey (EncryptionKey (opt kr)) ([], dk) in
      lift r ;;;
      inWorld (file_Write (fp kr) buf) ;;;
      let dk := set_Data k dk in
      update (set_lastCreated (CreatedAt dk)) ;;;
      update (fun kr =>
                set_dataKeys (<[nextKeyID kr := dk]> (dataKeys kr)) kr) ;;;
      ret (Some dk).

Definition Close (kr : KeyRegistry) : M World unit := file_Close (fp kr).

(** * The vocabulary of the statements

    Predicates, measures and sample values that the properties below are
    stated with; none of them is part of the program. *)

(** read-only options with a storage key of 16 zero bytes *)
Definition ro_options : Options := mkOptions "db" true (repeat 0 16) 10.

(** no files, no random bytes, the clock at the epoch *)
Definition empty_world : World := mkWorld ∅ ∅ 0 [] (fun _ => 0) 0.

(** what a reader hands over before [XORReader] stops reading *)
Fixpoint delivered (r : Reader) : bytes :=
  match r with
  | [] => []
  | (p, None) :: r' => take bufferSize p ++ delivered r'
  | (p, Some _) :: _ => take bufferSize p
  end.

(** a reader whose only error is [io.EOF] *)
Fixpoint ends_cleanly (r : Reader) : bool :=
  match r with
  | [] => true
  | (_, None) :: r' => ends_cleanly r'
  | (_, Some EOF) :: _ => true
  | (_, Some _) :: _ => false
  end.

(** sixteen zero bytes: a key of AES-128, or an IV *)
Definition zero16 : bytes := repeat 0 16.

(** a rotation period of ten seconds *)
Definition rotating_options (key : bytes) : Options :=
  mkOptions "db" false key (10 * Second).

(** a world with no files, the clock at 100 s, and the given random bytes *)
Definition world_with_entropy (e : bytes) : World :=
  mkWorld ∅ ∅ 0 e (fun _ => 100 * Second) 0.

(** what a call leaves of the registry: map, [lastCreated], [nextKeyID] *)
Definition registry_state (kr : KeyRegistry)
  : list (Z * DataKey) * Z * Z :=
  (map_to_list (dataKeys kr), lastCreated kr, nextKeyID kr).

(** no storage key *)
Definition plain_options : Options := mkOptions "db" false [] (10 * Second).

(** two sample keys *)
Definition key_one : DataKey := mkDataKey 1 [11; 12; 13; 14] zero16 100.

Definition key_two : DataKey := mkDataKey 2 [21; 22; 23; 24] zero16 200.

(** the record of a key, as [storeDataKey] writes it *)
Definition record_of (storageKey : bytes) (k : DataKey) : bytes :=
  fst (snd (storeDataKey storageKey ([], k))).

(** a registry file without encryption holding the given keys in order *)
Definition plain_registry_file (ks : list DataKey) : bytes :=
  zero16 ++ sanityText ++ concat (map (record_of []) ks).

(** a world whose registry file has this content *)
Definition world_with_file (content : bytes) : World :=
  mkWorld {[ Join "db" KeyRegistryFileName := content ]} ∅ 0 []
          (fun _ => 100 * Second) 0.

(** the key stream applied to [src] under a key and an IV that the cipher
    accepts *)
Definition keystream_xor (src key iv : bytes) : bytes :=
  fst (XORKeyStream (mkCtr (AES.round_keys key) iv []) src).

(** the key as it goes into the record: its material under the key stream
    when there is a storage key *)
Definition sealed (storageKey : bytes) (k : DataKey) : DataKey :=
  if (length storageKey =? 0)%nat then k
  else set_Data (keystream_xor (Data k) storageKey (Iv k)) k.

(** the bytes of one record: length, checksum, payload *)
Definition frame (data : bytes) : bytes :=
  PutUint32 (u32 (Z.of_nat (length data))) ++
  PutUint32 (CRC32C.Checksum data) ++ data.

(** the fields of a key are within their Go types *)
Definition DataKey_typed (k : DataKey) : Prop :=
  0 <= KeyId k < 2 ^ 64 /\ - 2 ^ 63 <= CreatedAt k < 2 ^ 63.

(** the descriptor [fd] is open on a file with this content *)
Definition opened (w : World) (fd : nat) (o : OpenFile) (content : bytes)
  : Prop :=
  fds w !! fd = Some o /\ files w !! of_path o = Some content.

(** the descriptor moved on by [n] bytes *)
Definition moved (o : OpenFile) (n : nat) : OpenFile :=
  mkOpenFile (of_path o) (of_off o + n) (of_writable o).

(** the world after the descriptor [fd] moved on by [n] bytes *)
Definition advance (fd : nat) (o : OpenFile) (n : nat) (w : World) : World :=
  set_fds (<[fd := moved o n]> (fds w)) w.

(** what [Next] makes of a payload whose checksum was right *)
Definition open_payload (encryptionKey data : bytes)
  : result (option DataKey) :=
  match Pb.Unmarshal data with
  | Ok dk =>
      if (0 <? length encryptionKey)%nat then
        match XORBlock (Data dk) encryptionKey (Iv dk) with
        | Ok d => Ok (Some (set_Data d dk))
        | Err e => Err e
        | Panic msg => Panic msg
        end
      else Ok (Some dk)
  | Err e => Err e
  | Panic msg => Panic msg
  end.

(** a world with one file, open for reading at the offset 0 *)
Definition world_reading (content : bytes) : World :=
  mkWorld {[ "f" := content ]} {[ 0%nat := mkOpenFile "f" 0 false ]} 1 []
          (fun _ => 0) 0.

(** a key whose IV is empty *)
Definition key_without_iv : DataKey := mkDataKey 1 [11; 12; 13; 14] [] 100.

(** the world after one more reading of the clock *)
Definition tick (w : World) : World :=
  mkWorld (files w) (fds w) (next_fd w) (entropy w) (clock w) (S (ticks w)).

(** what [time.Since(time.Unix(kr.lastCreated, 0))] gives at the next
    reading of the clock *)
Definition elapsed (kr : KeyRegistry) (w : World) : Z :=
  let d := clock w (ticks w) - lastCreated kr * Second in
  if d <? minDuration then minDuration
  else if maxDuration <? d then maxDuration else d.

(** the descriptor of the registry is open for writing *)
Definition writable (f : File) (w : World) : Prop :=
  exists fd o content,
    f = Some fd /\ opened w fd o content /\ of_writable o = true.

(** the surroundings let a rotation go through: the storage key is one the
    cipher accepts, the random source has the bytes of an IV and of a key,
    and the registry file is open for writing *)
Definition can_rotate (kr : KeyRegistry) (w : World) : Prop :=
  valid_key_len (length (EncryptionKey (opt kr))) = true /\
  (AES.BlockSize + length (EncryptionKey (opt kr)) <= length (entropy w))%nat /\
  writable (fp kr) w.

(** a registry holding [key_one], made at second 100, its file open for
    writing; the period is ten seconds *)
Definition registry_with_key_one : KeyRegistry :=
  mkKeyRegistry {[ 1 := key_one ]} 100 1 (Some 0%nat)
                (rotating_options zero16).

(** the world of that registry at a given second: the file open for
    writing, 32 random bytes at hand *)
Definition world_at (seconds : Z) : World :=
  mkWorld {[ "db/KEYREGISTRY" := [] ]}
          {[ 0%nat := mkOpenFile "db/KEYREGISTRY" 0 true ]} 1
          (repeat 7 32) (fun _ => seconds * Second) 0.

(** no descriptor behind [f] is open for writing *)
Definition not_writable (f : File) (w : World) : Prop :=
  forall fd o, f = Some fd -> fds w !! fd = Some o -> of_writable o = false.

(** from [w] to [w'] no file changed and no descriptor became writable *)
Definition only_read (w w' : World) : Prop :=
  files w' = files w /\
  forall fd o', fds w' !! fd = Some o' ->
                exists o, fds w !! fd = Some o /\
                          of_writable o' = of_writable o.

(** What happens to an open registry and the world around it: calls of
    [latestDataKey], [Close], and the surroundings moving on (the clock,
    the random source, other descriptors) without a file changed or a
    descriptor gaining write access. *)
Inductive after_calls : KeyRegistry * World -> KeyRegistry * World -> Prop :=
| calls_none (s : KeyRegistry * World) : after_calls s s
| calls_latestDataKey (s s' : KeyRegistry * World) (kr : KeyRegistry)
    (w : World) (r : result (option DataKey)) :
    after_calls s (kr, w) -> latestDataKey (kr, w) = (r, s') ->
    after_calls s s'
| calls_Close (s : KeyRegistry * World) (kr : KeyRegistry) (w w' : World)
    (r : result unit) :
    after_calls s (kr, w) -> Close kr w = (r, w') -> after_calls s (kr, w')
| calls_elsewhere (s : KeyRegistry * World) (kr : KeyRegistry)
    (w w' : World) :
    after_calls s (kr, w) -> only_read w w' -> after_calls s (kr, w').

(** a directory with the registry file, written without a storage key and
    holding [key_one] *)
Definition world_with_registry : World :=
  world_with_file (plain_registry_file [key_one]).

(** read-only options without a storage key *)
Definition ro_plain_options : Options := mkOptions "db" true [] 10.

(** no stored key has an ID above [nextKeyID] *)
Definition ids_bounded (kr : KeyRegistry) : Prop :=
  forall id dk, dataKeys kr !! id = Some dk -> KeyId dk <= nextKeyID kr.

(** the error at which [XORReader] gives up reading, if there is one: the
    first error of the reader, unless it is [io.EOF] *)
Fixpoint read_failure (r : Reader) : option error :=
  match r with
  | [] => None
  | (_, None) :: r' => read_failure r'
  | (_, Some EOF) :: _ => None
  | (_, Some e) :: _ => Some e
  end.

(** the bytes of the reads that [XORReader] gets to write: those before
    the read that fails, and those that come with [io.EOF] *)
Fixpoint copied (r : Reader) : bytes :=
  match r with
  | [] => []
  | (p, None) :: r' => take bufferSize p ++ copied r'
  | (p, Some EOF) :: _ => take bufferSize p
  | (_, Some _) :: _ => []
  end.

(** the key that a rotation makes in the world [w]: the next ID, an IV and
    key material from the random source, the second of the clock's next
    reading but one *)
Definition rotated_key (kr : KeyRegistry) (w : World) : DataKey :=
  mkDataKey (u64 (nextKeyID kr + 1))
            (take (length (EncryptionKey (opt kr)))
                  (drop AES.BlockSize (entropy w)))
            (take AES.BlockSize (entropy w))
            (Unix_of (clock w (S (ticks w)))).

(** the world when a rotation gets to its write: the clock was read twice
    and the random bytes of the key are used up *)
Definition world_before_write (kr : KeyRegistry) (w : World) : World :=
  mkWorld (files w) (fds w) (next_fd w)
          (drop (length (EncryptionKey (opt kr)))
                (drop AES.BlockSize (entropy w)))
          (clock w) (S (S (ticks w))).

(** the registry after the rotation that made [dk] *)
Definition rotated (kr : KeyRegistry) (dk : DataKey) : KeyRegistry :=
  mkKeyRegistry (<[KeyId dk := dk]> (dataKeys kr)) (CreatedAt dk) (KeyId dk)
                (fp kr) (opt kr).

(** the record of a key under a storage key *)
Definition record (storageKey : bytes) (k : DataKey) : bytes :=
  frame (Pb.Marshal (sealed storageKey k)).

(** the sanity text as the file holds it *)
Definition sealed_sanity (storageKey iv : bytes) : bytes :=
  if (length storageKey =? 0)%nat then sanityText
  else keystream_xor sanityText storageKey iv.

(** a registry file: the IV, the sanity text, and the records of the keys
    one after the other *)
Definition registry_file (storageKey iv : bytes) (ks : list DataKey)
  : bytes :=
  iv ++ sealed_sanity storageKey iv ++ concat (map (record storageKey) ks).

(** what the loop of [readKeyRegistry] makes of a sequence of keys *)
Definition load_keys (ks : list DataKey) (kr : KeyRegistry) : KeyRegistry :=
  fold_left (fun kr dk => readKeyRegistry_body dk kr) ks kr.

(** a key that [storeDataKey] can encode under this storage key and that
    [Next] can decode: its fields are within their Go types, its IV has
    the block size when there is a storage key, and its serialization is
    shorter than 2^32 bytes *)
Definition storable (storageKey : bytes) (k : DataKey) : Prop :=
  DataKey_typed k /\
  (storageKey <> [] -> length (Iv k) = AES.BlockSize) /\
  Z.of_nat (length (Pb.Marshal k)) < 2 ^ 32.

(** a storage key that is empty or of valid AES length *)
Definition usable_key (storageKey : bytes) : Prop :=
  storageKey = [] \/ valid_key_len (length storageKey) = true.

(** the IDs of the keys go up, starting above [n] *)
Fixpoint ids_increase (n : Z) (ks : list DataKey) : Prop :=
  match ks with
  | [] => True
  | k :: ks' => n < KeyId k /\ ids_increase (KeyId k) ks'
  end.

(** the path of the registry file *)
Definition registry_path (o : Options) : string :=
  Join (Dir o) KeyRegistryFileName.

(** the world once [open_fd] has opened a path *)
Definition with_open (path : string) (writable : bool) (w : World) : World :=
  mkWorld (files w) (<[next_fd w := mkOpenFile path 0 writable]> (fds w))
          (S (next_fd w)) (entropy w) (clock w) (ticks w).

(** the world when [OpenKeyRegistry] has read a registry file of [n] bytes
    that was there *)
Definition after_load (o : Options) (n : nat) (w : World) : World :=
  advance (next_fd w) (mkOpenFile (registry_path o) 0 (negb (ReadOnly o))) n
          (with_open (registry_path o) (negb (ReadOnly o)) w).

(** the path of the file that [WriteKeyRegistry] writes before the
    rename *)
Definition rewrite_path (o : Options) : string :=
  Join (Dir o) KeyRegistryRewriteFileName.

(** the keys of a registry in the order in which the loop of
    [WriteKeyRegistry] meets them *)
Definition written_keys (reg : KeyRegistry) : list DataKey :=
  snd <$> map_to_list (dataKeys reg).

(** the world when [WriteKeyRegistry] has written [content] and renamed
    the file: the descriptor it used is closed again, and the IV is gone
    from the random source *)
Definition after_write (o : Options) (content : bytes) (w : World) : World :=
  mkWorld (<[registry_path o := content]>
             (delete (rewrite_path o)
                (<[rewrite_path o := content]>
                   (<[rewrite_path o := []]> (files w)))))
          (delete (next_fd w)
             (<[next_fd w := mkOpenFile (rewrite_path o) (length content)
                               true]>
                (<[next_fd w := mkOpenFile (rewrite_path o) 0 true]>
                   (fds w))))
          (S (next_fd w)) (drop AES.BlockSize (entropy w)) (clock w)
          (ticks w).

(** the keys of a registry can be sealed: under a storage key their IVs
    have the block size *)
Definition sealable (storageKey : bytes) (reg : KeyRegistry) : Prop :=
  storageKey <> [] ->
  forall id k, dataKeys reg !! id = Some k -> length (Iv k) = AES.BlockSize.

(** [time.Time.Unix] returns an [int64] *)
Definition clock_typed (w : World) : Prop :=
  forall t, - 2 ^ 63 <= Unix_of (clock w t) < 2 ^ 63.

(** a world for a rotation: a registry file under the key [zero16] with
    the record of [key_one], random bytes for an IV and a key, and a clock
    that stands at 111 seconds *)
Definition world_to_rotate : World :=
  mkWorld {[ registry_path (rotating_options zero16)
             := registry_file zero16 zero16 [key_one] ]}
          ∅ 0 (repeat 7 32) (fun _ => 111 * Second) 0.

(** * Properties *)

Arguments PutUint32 : simpl never.
Arguments Uint32 : simpl never.
Arguments CRC32C.Checksum : simpl never.
Arguments Pb.Marshal : simpl never.
Arguments Pb.Unmarshal : simpl never.
Arguments XORBlock : simpl never.
Arguments make : simpl never.

(** ** Known answers of the library functions *)

(** FIPS 197, appendix C: the three key lengths on the same block *)
Example AES_128_known_answer :
  AES.Encrypt (map Z.of_nat (seq 0 16))
    [0x00; 0x11; 0x22; 0x33; 0x44; 0x55; 0x66; 0x77;
     0x88; 0x99; 0xaa; 0xbb; 0xcc; 0xdd; 0xee; 0xff]
  = [0x69; 0xc4; 0xe0; 0xd8; 0x6a; 0x7b; 0x04; 0x30;
     0xd8; 0xcd; 0xb7; 0x80; 0x70; 0xb4; 0xc5; 0x5a].
Proof. vm_compute. reflexivity. Qed.

Example AES_192_known_answer :
  AES.Encrypt (map Z.of_nat (seq 0 24))
    [0x00; 0x11; 0x22; 0x33; 0x44; 0x55; 0x66; 0x77;
     0x88; 0x99; 0xaa; 0xbb; 0xcc; 0xdd; 0xee; 0xff]
  = [0xdd; 0xa9; 0x7c; 0xa4; 0x86; 0x4c; 0xdf; 0xe0;
     0x6e; 0xaf; 0x70; 0xa0; 0xec; 0x0d; 0x71; 0x91].
Proof. vm_compute. reflexivity. Qed.

Example AES_256_known_answer :
  AES.Encrypt (map Z.of_nat (seq 0 32))
    [0x00; 0x11; 0x22; 0x33; 0x44; 0x55; 0x66; 0x77;
     0x88; 0x99; 0xaa; 0xbb; 0xcc; 0xdd; 0xee; 0xff]
  = [0x8e; 0xa2; 0xb7; 0xca; 0x51; 0x67; 0x45; 0xbf;
     0xea; 0xfc; 0x49; 0x90; 0x4b; 0x49; 0x60; 0x89].
Proof. vm_compute. reflexivity. Qed.

(** the check value of CRC-32C: the checksum of ["123456789"] *)
Example CRC32C_known_answer :
  CRC32C.Checksum [49; 50; 51; 52; 53; 54; 55; 56; 57] = 0xE3069283.
Proof. vm_compute. reflexivity. Qed.

(** the wire format of a key with all four fields *)
Example Marshal_known_answer :
  Pb.Marshal (mkDataKey 300 [1; 2] [3] (-1))
  = [0x08; 0xac; 0x02; 0x12; 0x02; 1; 2; 0x1a; 0x01; 3;
     0x20; 0xff; 0xff; 0xff; 0xff; 0xff; 0xff; 0xff; 0xff; 0xff; 0x01].
Proof. vm_compute. reflexivity. Qed.

(** ** Serving a key by its ID *)

(** C8.  For every registry (whatever its keys and its storage key),
    [dataKey 0] is "no key" without an error; a non-zero ID that the map
    does not hold fails with [ErrInvalidDataKeyID]; a non-zero ID that the
    map holds gives the key stored under it. *)
Theorem dataKey_cases :
  (forall kr : KeyRegistry, dataKey kr 0 = Ok None) /\
  (forall (kr : KeyRegistry) (id : Z),
      id <> 0 -> dataKeys kr !! id = None ->
      dataKey kr id
      = Err (Wrapf ErrInvalidDataKeyID "Error for the KEY ID %d")) /\
  (forall (kr : KeyRegistry) (id : Z) (dk : DataKey),
      id <> 0 -> dataKeys kr !! id = Some dk ->
      dataKey kr id = Ok (Some dk)).
Proof.
  split; [reflexivity|].
  split; intros kr id; [intros Hid Hnone | intros dk Hid Hsome];
    unfold dataKey; destruct (Z.eqb_spec id 0) as [->|_]; try congruence.
  - now rewrite Hnone.
  - now rewrite Hsome.
Qed.

(** ** Opening without a file, read-only *)

(** C10.  With the read-only flag set and no registry file, [OpenKeyRegistry]
    succeeds with the empty registry (no keys, [nextKeyID] 0, no file
    handle) and leaves the world as it was: no file is created or written.
    [Close] on that registry then returns an error. *)
Theorem OpenKeyRegistry_readonly_no_file (o : Options) (w : World) :
  ReadOnly o = true ->
  files w !! Join (Dir o) KeyRegistryFileName = None ->
  exists kr,
    OpenKeyRegistry o w = (Ok kr, w) /\
    dataKeys kr = ∅ /\ nextKeyID kr = 0 /\ lastCreated kr = 0 /\
    fp kr = None /\
    Close kr w = (Err ErrInvalid, w).
Proof.
  intros Hro Hnone. exists (newKeyRegistry o).
  repeat split.
  unfold OpenKeyRegistry, OpenExistingFile, catch, bind, get; cbn.
  rewrite Hro, Hnone. reflexivity.
Qed.

Lemma OpenKeyRegistry_readonly_no_file_witness :
  exists kr,
    OpenKeyRegistry ro_options empty_world = (Ok kr, empty_world) /\
    dataKeys kr = ∅ /\ nextKeyID kr = 0 /\ lastCreated kr = 0 /\
    fp kr = None /\
    Close kr empty_world = (Err ErrInvalid, empty_world).
Proof.
  apply (OpenKeyRegistry_readonly_no_file ro_options empty_world);
    reflexivity.
Defined.

(** ** The streaming cipher *)

Lemma copy_into_length (dst src : bytes) :
  (length src <= length dst)%nat -> length (copy_into dst src) = length dst.
Proof.
  intros H. unfold copy_into.
  rewrite length_app, length_take, length_drop. lia.
Qed.

Lemma take_copy_into (dst src : bytes) :
  (length src <= length dst)%nat ->
  take (length src) (copy_into dst src) = src.
Proof.
  intros H. unfold copy_into.
  rewrite (take_ge src) by lia.
  rewrite take_app_length. reflexivity.
Qed.

Lemma XORKeyStream_length (x : ctr) (src : bytes) :
  length (fst (XORKeyStream x src)) = length src.
Proof.
  revert x. induction src as [|b src IH]; intros x; simpl; [reflexivity|].
  destruct (next_key_byte x) as [k x1].
  specialize (IH x1). destruct (XORKeyStream x1 src) as [dst x2].
  simpl in *. now rewrite IH.
Qed.

(** One turn of the loop writes the bytes it read, as they were read. *)
Lemma XORReader_turn_writes (stream : ctr) (bufIn bufOut p : bytes)
    (err : option error) (out : bytes) :
  length bufIn = bufferSize ->
  (length p <= bufferSize)%nat ->
  match err with None | Some EOF => True | Some _ => False end ->
  exists next,
    XORReader_turn stream bufIn bufOut (p, err) (mkWriter out None)
    = (Ok next, mkWriter (out ++ p) None) /\
    match err, next with
    | None, Some (_, bufIn', _) => length bufIn' = bufferSize
    | Some _, None => True
    | _, _ => False
    end.
Proof.
  intros Hlen Hp Herr. unfold XORReader_turn.
  rewrite take_copy_into by lia.
  destruct (XORKeyStream stream p) as [dst stream'] eqn:E.
  assert (Hl : length (copy_into bufIn p) = bufferSize)
    by (rewrite copy_into_length; lia).
  destruct err as [e|].
  - destruct e; try contradiction.
    eexists; split; [reflexivity | exact I].
  - eexists; split; [reflexivity | exact Hl].
Qed.

Lemma XORReader_loop_writes (r : Reader) :
  forall (stream : ctr) (bufIn bufOut out : bytes),
    length bufIn = bufferSize ->
    ends_cleanly r = true ->
    XORReader_loop stream bufIn bufOut r (mkWriter out None)
    = (Ok tt, mkWriter (out ++ delivered r) None).
Proof.
  induction r as [|[p err] r IH]; intros stream bufIn bufOut out Hlen Hclean.
  - cbn [XORReader_loop reader_Read fst].
    destruct (XORReader_turn_writes stream bufIn bufOut [] (Some EOF) out)
      as (next & Heq & _); [exact Hlen | simpl; lia | exact I |].
    unfold bind. rewrite Heq. simpl. now rewrite app_nil_r.
  - cbn [XORReader_loop reader_Read fst].
    assert (Hp : (length (take (length bufIn) p) <= bufferSize)%nat)
      by (rewrite length_take; lia).
    destruct (XORReader_turn_writes stream bufIn bufOut
                (take (length bufIn) p) err out)
      as (next & Heq & Hnext); [exact Hlen | exact Hp | |].
    { destruct err as [[]|]; simpl in Hclean; try discriminate; exact I. }
    unfold bind. rewrite Heq. rewrite Hlen in *.
    destruct err as [e|]; destruct next as [[[s' bi'] bo']|];
      try contradiction.
    + simpl. reflexivity.
    + rewrite (IH s' bi' bo' _ Hnext Hclean).
      simpl delivered. now rewrite app_assoc.
Qed.

(** Whatever the key and the IV, [XORReader] copies its input to its
    output: the bytes written are those read, not their XOR with the key
    stream. *)
Lemma XORReader_copies_input (r : Reader) (key iv out : bytes) :
  valid_key_len (length key) = true ->
  length iv = AES.BlockSize ->
  ends_cleanly r = true ->
  XORReader r key iv (mkWriter out None)
  = (Ok tt, mkWriter (out ++ delivered r) None).
Proof.
  intros Hkey Hiv Hr. unfold XORReader, NewCipher, NewCTR, lift, bind.
  rewrite Hkey, Hiv. simpl.
  apply XORReader_loop_writes; [reflexivity | exact Hr].
Qed.

(** C2, at a one-byte stream under the zero key and the zero IV: the
    single-call primitive turns the byte 0 into 0x66, a byte of the key
    stream; [XORReader] writes 0, the byte it read. *)
Theorem XORReader_differs_from_XORBlock :
  XORBlock [0] zero16 zero16 = Ok [102] /\
  XORReader [([0], None)] zero16 zero16 (mkWriter [] None)
  = (Ok tt, mkWriter [0] None).
Proof. split; vm_compute; reflexivity. Qed.

(** ** Rotation that fails before the append *)

(** C3, on the empty registry with rotation due.  When the random source
    fails at the IV, when it fails at the key material, and when the record
    cannot be encoded (a storage key of 5 bytes), [latestDataKey] returns
    the error before any write, the map and [lastCreated] are as before,
    and [nextKeyID] has gone from 0 to 1. *)
Theorem latestDataKey_failure_bumps_nextKeyID :
  let run key e :=
    let '(r, (kr, _)) :=
      latestDataKey (newKeyRegistry (rotating_options key),
                     world_with_entropy e) in
    (r, registry_state kr) in
  run zero16 [] = (Err ErrEntropy, ([], 0, 1)) /\
  run zero16 zero16 = (Err ErrEntropy, ([], 0, 1)) /\
  run [1; 2; 3; 4; 5] (repeat 7 21) = (Err (KeySizeError 5), ([], 0, 1)).
Proof. repeat split; vm_compute; reflexivity. Qed.

(** ** Loading a file whose records are not in the order of their IDs *)

(** one turn of the loop: [nextKeyID] and [lastCreated] become the maxima,
    and the key goes into the map under [nextKeyID] *)
Lemma readKeyRegistry_body_spec (dk : DataKey) (kr : KeyRegistry) :
  nextKeyID (readKeyRegistry_body dk kr)
  = Z.max (nextKeyID kr) (KeyId dk) /\
  lastCreated (readKeyRegistry_body dk kr)
  = Z.max (lastCreated kr) (CreatedAt dk) /\
  dataKeys (readKeyRegistry_body dk kr)
  = <[nextKeyID (readKeyRegistry_body dk kr) := dk]> (dataKeys kr).
Proof.
  unfold readKeyRegistry_body.
  destruct (Z.ltb_spec (nextKeyID kr) (KeyId dk));
    cbn [set_nextKeyID nextKeyID lastCreated dataKeys];
    destruct (Z.ltb_spec (lastCreated kr) (CreatedAt dk));
    cbn [set_dataKeys set_lastCreated set_nextKeyID nextKeyID lastCreated
           dataKeys];
    repeat split; first [reflexivity | lia].
Qed.

(** C1, on a file that holds the key with ID 2 before the key with ID 1
    (a rewrite of the registry may produce it, since it writes the map in
    no particular order).  Both records are decoded; the registry ends
    with [nextKeyID] 2 and [lastCreated] 200, but the key with ID 1 was
    stored under 2, the value of [nextKeyID], where it replaced the key
    with ID 2: ID 1 is not in the map and ID 2 gives the key with ID 1. *)
Theorem readKeyRegistry_stores_under_nextKeyID :
  let w := world_with_file (plain_registry_file [key_two; key_one]) in
  let load :=
    f <- OpenExistingFile (Join "db" KeyRegistryFileName) y_Sync ;;
    readKeyRegistry f plain_options in
  exists kr,
    fst (load w) = Ok kr /\
    nextKeyID kr = 2 /\ lastCreated kr = 200 /\
    dataKeys kr !! 1 = None /\
    dataKeys kr !! 2 = Some key_one /\
    dataKey kr 1 = Err (Wrapf ErrInvalidDataKeyID "Error for the KEY ID %d").
Proof.
  eexists. split; [vm_compute; reflexivity|].
  repeat split; vm_compute; reflexivity.
Qed.

(** ** The cipher primitive is its own inverse *)

Lemma XORKeyStream_involutive (x : ctr) (src : bytes) :
  fst (XORKeyStream x (fst (XORKeyStream x src))) = src.
Proof.
  revert x. induction src as [|b src IH]; intros x; [reflexivity|].
  simpl. destruct (next_key_byte x) as [k x1] eqn:Ek.
  specialize (IH x1).
  destruct (XORKeyStream x1 src) as [dst x2] eqn:E1. simpl in *.
  rewrite Ek.
  destruct (XORKeyStream x1 dst) as [dst' x3] eqn:E2. simpl in *.
  rewrite IH, Z.lxor_assoc, Z.lxor_nilpotent, Z.lxor_0_r. reflexivity.
Qed.

Lemma XORBlock_ok (src key iv : bytes) :
  valid_key_len (length key) = true ->
  length iv = AES.BlockSize ->
  XORBlock src key iv = Ok (keystream_xor src key iv).
Proof.
  intros Hk Hiv. unfold XORBlock, NewCipher, NewCTR.
  rewrite Hk, Hiv. reflexivity.
Qed.

Lemma XORBlock_bad_iv (src key iv : bytes) :
  valid_key_len (length key) = true ->
  length iv <> AES.BlockSize ->
  XORBlock src key iv
  = Panic "cipher.NewCTR: IV length must equal block size".
Proof.
  intros Hk Hiv. unfold XORBlock, NewCipher, NewCTR. rewrite Hk.
  destruct (Nat.eqb_spec (length iv) AES.BlockSize); [contradiction|].
  reflexivity.
Qed.

Lemma XORBlock_bad_key (src key iv : bytes) :
  valid_key_len (length key) = false ->
  XORBlock src key iv = Err (KeySizeError (length key)).
Proof. intros Hk. unfold XORBlock, NewCipher. now rewrite Hk. Qed.

Lemma keystream_xor_involutive (src key iv : bytes) :
  keystream_xor (keystream_xor src key iv) key iv = src.
Proof. apply XORKeyStream_involutive. Qed.

Lemma XORBlock_involutive (src dst key iv : bytes) :
  XORBlock src key iv = Ok dst -> XORBlock dst key iv = Ok src.
Proof.
  unfold XORBlock.
  destruct (NewCipher key) as [block| |]; try discriminate.
  destruct (NewCTR block iv) as [stream| |] eqn:E; try discriminate.
  intros [= <-]. f_equal.
  unfold NewCTR in E. destruct (length iv =? AES.BlockSize)%nat;
    try discriminate.
  injection E as <-. apply XORKeyStream_involutive.
Qed.

(** ** storeDataKey and the key in memory *)

Lemma set_Data_same (k : DataKey) : set_Data (Data k) k = k.
Proof. now destruct k. Qed.

Lemma set_Data_twice (d d' : bytes) (k : DataKey) :
  set_Data d (set_Data d' k) = set_Data d k.
Proof. reflexivity. Qed.

(** what [storeDataKey] does when the cipher accepts the key and the IV *)
Lemma storeDataKey_ok (storageKey buf : bytes) (k : DataKey) :
  (length storageKey = 0%nat \/
   valid_key_len (length storageKey) = true /\ length (Iv k) = AES.BlockSize) ->
  storeDataKey storageKey (buf, k)
  = (Ok tt, (buf ++ frame (Pb.Marshal (sealed storageKey k)), k)).
Proof.
  intros H. unfold storeDataKey, storeDataKey_xor, sealed, frame.
  destruct (Nat.eqb_spec (length storageKey) 0) as [E|E].
  - unfold bind, ret, get, modify. simpl.
    now rewrite <- !app_assoc.
  - destruct H as [H|[Hk Hiv]]; [contradiction|].
    unfold bind, get, modify. simpl.
    rewrite (XORBlock_ok _ _ _ Hk Hiv). simpl.
    rewrite (XORBlock_ok _ _ _ Hk Hiv). simpl.
    rewrite keystream_xor_involutive, set_Data_twice, set_Data_same.
    now rewrite <- !app_assoc.
Qed.

(** C9.  Under a storage key that is empty or of valid AES length, a call
    of [storeDataKey] that returns has succeeded, the key in memory is
    what it was before the call, plaintext material included, and the
    buffer has grown by one record whose payload carries the sealed key;
    under such a key the call has no failing return.  The one way not to
    return is the panic of the cipher on an IV that is not of block
    size, and the key in memory is untouched then as well. *)
Theorem storeDataKey_keeps_plaintext (storageKey buf : bytes) (k : DataKey) :
  storageKey = [] \/ valid_key_len (length storageKey) = true ->
  match storeDataKey storageKey (buf, k) with
  | (Ok _, (buf', k')) =>
      k' = k /\ buf' = buf ++ frame (Pb.Marshal (sealed storageKey k)) /\
      (storageKey <> [] ->
       XORBlock (Data k) storageKey (Iv k) = Ok (Data (sealed storageKey k)))
  | (Err _, _) => False
  | (Panic _, (buf', k')) =>
      k' = k /\ buf' = buf /\
      storageKey <> [] /\ length (Iv k) <> AES.BlockSize
  end.
Proof.
  intros [->|Hk].
  - rewrite storeDataKey_ok by (left; reflexivity).
    repeat split. congruence.
  - destruct (Nat.eq_dec (length (Iv k)) AES.BlockSize) as [Hiv|Hiv].
    + rewrite storeDataKey_ok by (right; split; assumption).
      repeat split. intros Hne. unfold sealed.
      destruct storageKey; [congruence|]. simpl.
      now apply XORBlock_ok.
    + assert (Hne : storageKey <> []) by (intros ->; discriminate).
      unfold storeDataKey, storeDataKey_xor, bind.
      destruct (Nat.eqb_spec (length storageKey) 0) as [E|E].
      { destruct storageKey; [congruence | discriminate]. }
      rewrite (XORBlock_bad_iv _ _ _ Hk Hiv). repeat split; assumption.
Qed.

Lemma storeDataKey_keeps_plaintext_witness :
  match storeDataKey zero16 ([], key_one) with
  | (Ok _, (buf', k')) =>
      k' = key_one /\
      buf' = [] ++ frame (Pb.Marshal (sealed zero16 key_one)) /\
      (zero16 <> [] ->
       XORBlock (Data key_one) zero16 (Iv key_one)
       = Ok (Data (sealed zero16 key_one)))
  | (Err _, _) => False
  | (Panic _, (buf', k')) =>
      k' = key_one /\ buf' = [] /\
      zero16 <> [] /\ length (Iv key_one) <> AES.BlockSize
  end.
Proof.
  apply (storeDataKey_keeps_plaintext zero16 [] key_one).
  right. reflexivity.
Defined.

(** ** Bit-level facts *)

Lemma land_pow2_small (a b k : Z) :
  0 <= k -> 0 <= a < 2 ^ k -> Z.land a (Z.shiftl b k) = 0.
Proof.
  intros Hk Ha. apply Z.bits_inj'. intros n Hn.
  rewrite Z.land_spec, Z.bits_0.
  destruct (Z.lt_ge_cases n k) as [Hlt|Hge].
  - rewrite (Z.shiftl_spec_low b k n Hlt). apply andb_false_r.
  - replace a with (a mod 2 ^ k) by (apply Z.mod_small; lia).
    rewrite Z.mod_pow2_bits_high by lia. reflexivity.
Qed.

Lemma lor_shiftl_add (a b k : Z) :
  0 <= k -> 0 <= a < 2 ^ k -> Z.lor a (Z.shiftl b k) = a + b * 2 ^ k.
Proof.
  intros Hk Ha.
  rewrite <- Z.lxor_lor by (apply land_pow2_small; assumption).
  rewrite <- Z.add_nocarry_lxor by (apply land_pow2_small; assumption).
  now rewrite Z.shiftl_mul_pow2.
Qed.

Lemma u8_mod (x : Z) : u8 x = x mod 256.
Proof. unfold u8. change 255 with (Z.ones 8). now rewrite Z.land_ones. Qed.

Lemma u8_range (x : Z) : 0 <= u8 x < 256.
Proof. rewrite u8_mod. apply Z.mod_pos_bound. lia. Qed.

Lemma Uint32_PutUint32 (v : Z) : 0 <= v < 2 ^ 32 -> Uint32 (PutUint32 v) = v.
Proof.
  intros Hv. unfold Uint32, PutUint32, nthZ. cbn [nth].
  rewrite !u8_mod, !Z.shiftr_div_pow2 by lia.
  rewrite (lor_shiftl_add (v mod 256) _ 8) by (try apply Z.mod_pos_bound; lia).
  rewrite (lor_shiftl_add _ _ 16).
  2: lia.
  2: { pose proof (Z.mod_pos_bound v 256 ltac:(lia)).
       pose proof (Z.mod_pos_bound (v / 2 ^ 8) 256 ltac:(lia)). lia. }
  rewrite (lor_shiftl_add _ _ 24).
  2: lia.
  2: { pose proof (Z.mod_pos_bound v 256 ltac:(lia)).
       pose proof (Z.mod_pos_bound (v / 2 ^ 8) 256 ltac:(lia)).
       pose proof (Z.mod_pos_bound (v / 2 ^ 16) 256 ltac:(lia)). lia. }
  change (2 ^ 8) with 256. change (2 ^ 16) with 65536.
  change (2 ^ 24) with 16777216. change (2 ^ 32) with 4294967296 in Hv.
  Z.div_mod_to_equations. lia.
Qed.

Lemma lxor_range (n a b : Z) :
  0 <= n -> 0 <= a < 2 ^ n -> 0 <= b < 2 ^ n -> 0 <= Z.lxor a b < 2 ^ n.
Proof.
  intros Hn Ha Hb. split; [apply Z.lxor_nonneg; lia|].
  destruct (Z.eq_dec n 0) as [->|Hn0].
  { replace a with 0 by (simpl in Ha; lia).
    replace b with 0 by (simpl in Hb; lia). reflexivity. }
  destruct (Z.eq_dec (Z.lxor a b) 0) as [->|Hnz]; [lia|].
  assert (0 < Z.lxor a b) by (pose proof (proj2 (Z.lxor_nonneg a b)); lia).
  apply Z.log2_lt_pow2; [assumption|].
  eapply Z.le_lt_trans; [apply Z.log2_lxor; lia|].
  apply Z.max_lub_lt.
  - destruct (Z.eq_dec a 0) as [->|]; [simpl; lia|].
    apply Z.log2_lt_pow2; lia.
  - destruct (Z.eq_dec b 0) as [->|]; [simpl; lia|].
    apply Z.log2_lt_pow2; lia.
Qed.

Lemma shift1_range (crc : Z) :
  0 <= crc < 2 ^ 32 -> 0 <= CRC32C.shift1 crc < 2 ^ 32.
Proof.
  intros H. unfold CRC32C.shift1.
  assert (Hs : 0 <= Z.shiftr crc 1 < 2 ^ 32).
  { rewrite Z.shiftr_div_pow2 by lia. change (2 ^ 1) with 2.
    change (2 ^ 32) with 4294967296 in *.
    Z.div_mod_to_equations. lia. }
  destruct (Z.testbit crc 0); [|exact Hs].
  apply lxor_range; [lia | exact Hs | unfold CRC32C.poly; lia].
Qed.

Lemma update_byte_range (crc b : Z) :
  0 <= crc < 2 ^ 32 -> 0 <= CRC32C.update_byte crc b < 2 ^ 32.
Proof.
  intros H. unfold CRC32C.update_byte.
  assert (H0 : 0 <= Z.lxor crc (u8 b) < 2 ^ 32).
  { apply lxor_range; [lia | exact H |]. pose proof (u8_range b). lia. }
  generalize dependent (Z.lxor crc (u8 b)). intros c Hc.
  do 8 (apply shift1_range in Hc). exact Hc.
Qed.

Lemma Checksum_range (data : bytes) : 0 <= CRC32C.Checksum data < 2 ^ 32.
Proof.
  unfold CRC32C.Checksum.
  assert (H : forall c, 0 <= c < 2 ^ 32 ->
              0 <= fold_left CRC32C.update_byte data c < 2 ^ 32).
  { induction data as [|b data IH]; intros c Hc; simpl; [exact Hc|].
    apply IH, update_byte_range, Hc. }
  apply lxor_range; [lia | apply H; lia | lia].
Qed.

(** ** The serialization of a key can be read back *)

Lemma land_127 (v : Z) : Z.land v 127 = v mod 128.
Proof. change 127 with (Z.ones 7). now rewrite Z.land_ones. Qed.

Lemma lor_128 (m : Z) : 0 <= m < 128 -> Z.lor m 128 = m + 128.
Proof.
  intros Hm. change 128 with (Z.shiftl 1 7) at 1.
  rewrite lor_shiftl_add; [reflexivity | lia | exact Hm].
Qed.

Lemma decodeVarint_step_acc (acc m shift : Z) :
  0 <= shift -> 0 <= acc < 2 ^ shift -> 0 <= m -> m * 2 ^ shift < 2 ^ 64 ->
  Z.lor acc (u64 (Z.shiftl m shift)) = acc + m * 2 ^ shift.
Proof.
  intros Hs Hacc Hm Hlt.
  assert (0 < 2 ^ shift) by (apply Z.pow_pos_nonneg; lia).
  unfold u64. rewrite Z.mod_small.
  - apply lor_shiftl_add; assumption.
  - rewrite Z.shiftl_mul_pow2 by lia. nia.
Qed.

Lemma decodeVarint_encodeVarint (fuel : nat) :
  forall (v shift acc : Z) (rest : bytes),
    (0 < fuel)%nat -> 0 <= shift -> 0 <= acc < 2 ^ shift ->
    0 <= v < 2 ^ (7 * Z.of_nat fuel) -> v * 2 ^ shift < 2 ^ 64 ->
    Pb.decodeVarint fuel shift acc (Pb.encodeVarint fuel v ++ rest)
    = Ok (acc + v * 2 ^ shift, rest).
Proof.
  induction fuel as [|fuel IH]; intros v shift acc rest Hf Hs Hacc Hv Hlt;
    [lia|].
  assert (Hp : 0 < 2 ^ shift) by (apply Z.pow_pos_nonneg; lia).
  cbn [Pb.encodeVarint Pb.decodeVarint].
  destruct (Z.ltb_spec v 128) as [Hsmall|Hbig].
  - cbn [app Pb.decodeVarint].
    destruct (Z.ltb_spec v 128); [|lia].
    rewrite land_127, Z.mod_small by lia.
    now rewrite decodeVarint_step_acc by lia.
  - pose proof (Z.mod_pos_bound v 128 ltac:(lia)) as Hm.
    rewrite land_127, lor_128 by exact Hm.
    cbn [app].
    destruct (Z.ltb_spec (v mod 128 + 128) 128); [lia|].
    rewrite land_127.
    replace ((v mod 128 + 128) mod 128) with (v mod 128)
      by (Z.div_mod_to_equations; lia).
    assert (Hdiv : v = 128 * (v / 128) + v mod 128)
      by (apply Z.div_mod; lia).
    rewrite decodeVarint_step_acc by (try lia; nia).
    rewrite Z.shiftr_div_pow2 by lia. change (2 ^ 7) with 128.
    assert (Hpow : 2 ^ (shift + 7) = 2 ^ shift * 128)
      by (rewrite Z.pow_add_r by lia; reflexivity).
    destruct fuel as [|fuel'].
    { change (7 * Z.of_nat 1) with 7 in Hv. change (2 ^ 7) with 128 in Hv.
      lia. }
    rewrite IH.
    + f_equal. f_equal. rewrite Hpow. nia.
    + lia.
    + lia.
    + rewrite Hpow. nia.
    + split; [apply Z.div_pos; lia|].
      apply Z.div_lt_upper_bound; [lia|].
      replace (7 * Z.of_nat (S (S fuel'))) with (7 + 7 * Z.of_nat (S fuel'))
        in Hv by lia.
      rewrite Z.pow_add_r in Hv by lia. change (2 ^ 7) with 128 in Hv. lia.
    + rewrite Hpow. nia.
Qed.

Lemma readVarint_varint (v : Z) (rest : bytes) :
  0 <= v < 2 ^ 64 ->
  Pb.readVarint (Pb.varint v ++ rest) = Ok (v, rest).
Proof.
  intros Hv. unfold Pb.readVarint, Pb.varint, u64.
  rewrite Z.mod_small by exact Hv.
  rewrite decodeVarint_encodeVarint.
  - f_equal. f_equal. change (2 ^ 0) with 1. lia.
  - lia.
  - lia.
  - change (2 ^ 0) with 1. lia.
  - change (7 * Z.of_nat 10) with 70.
    change (2 ^ 64) with 18446744073709551616 in Hv.
    change (2 ^ 70) with 1180591620717411303424. lia.
  - change (2 ^ 0) with 1. lia.
Qed.

(** a tag is a varint of one byte *)
Lemma readVarint_tag (t : Z) (rest : bytes) :
  0 <= t < 128 -> Pb.readVarint (t :: rest) = Ok (t, rest).
Proof.
  intros Ht.
  replace (t :: rest) with (Pb.varint t ++ rest).
  - apply readVarint_varint.
    change (2 ^ 64) with 18446744073709551616. lia.
  - unfold Pb.varint, u64. rewrite Z.mod_small
      by (change (2 ^ 64) with 18446744073709551616; lia).
    cbn [Pb.encodeVarint]. destruct (Z.ltb_spec t 128); [reflexivity | lia].
Qed.

Lemma readBytes_bytes (d rest : bytes) :
  Z.of_nat (length d) < 2 ^ 63 ->
  Pb.readBytes (Pb.varint (Z.of_nat (length d)) ++ d ++ rest) = Ok (d, rest).
Proof.
  intros Hd. unfold Pb.readBytes.
  rewrite readVarint_varint
    by (change (2 ^ 64) with 18446744073709551616;
        change (2 ^ 63) with 9223372036854775808 in Hd; lia).
  destruct (Z.leb_spec (2 ^ 63) (Z.of_nat (length d))); [lia|].
  rewrite length_app.
  destruct (Z.ltb_spec (Z.of_nat (length d + length rest))
                       (Z.of_nat (length d))); [lia|].
  rewrite Nat2Z.id, take_app_length, drop_app_length. reflexivity.
Qed.

Lemma decodeVarint_shorter (fuel : nat) :
  forall (shift acc v : Z) (l l' : bytes),
    Pb.decodeVarint fuel shift acc l = Ok (v, l') ->
    (length l' < length l)%nat.
Proof.
  induction fuel as [|fuel IH]; intros shift acc v l l' H; [discriminate|].
  cbn [Pb.decodeVarint] in H. destruct l as [|b l0]; [discriminate|].
  destruct (b <? 128).
  - injection H as _ <-. simpl. lia.
  - apply IH in H. simpl. lia.
Qed.

Lemma readBytes_shorter (l l' d : bytes) :
  Pb.readBytes l = Ok (d, l') -> (length l' < length l)%nat.
Proof.
  unfold Pb.readBytes, Pb.readVarint.
  destruct (Pb.decodeVarint 10 0 0 l) as [[n l1]| |] eqn:E; try discriminate.
  apply decodeVarint_shorter in E.
  destruct (2 ^ 63 <=? n); [discriminate|].
  destruct (Z.of_nat (length l1) <? n); [discriminate|].
  intros [= _ <-]. rewrite length_drop. lia.
Qed.

Lemma readField_shorter (m m' : DataKey) (l l' : bytes) :
  Pb.readField m l = Ok (m', l') -> (length l' < length l)%nat.
Proof.
  unfold Pb.readField.
  destruct (Pb.readVarint l) as [[wire l1]| |] eqn:E; try discriminate.
  apply decodeVarint_shorter in E.
  repeat match goal with
         | |- (if ?c then _ else _) = _ -> _ => destruct c
         end; try discriminate.
  all: match goal with
       | |- match Pb.readVarint ?x with _ => _ end = _ -> _ =>
           destruct (Pb.readVarint x) as [[v l2]| |] eqn:E2;
           try discriminate; apply decodeVarint_shorter in E2
       | |- match Pb.readBytes ?x with _ => _ end = _ -> _ =>
           destruct (Pb.readBytes x) as [[v l2]| |] eqn:E2;
           try discriminate; apply readBytes_shorter in E2
       end.
  all: intros [= _ <-]; lia.
Qed.

(** [Unmarshal_loop] never uses up a number of turns that is at least the
    number of bytes. *)
Lemma Unmarshal_loop_fuel (n : nat) :
  forall (n' : nat) (m : DataKey) (l : bytes),
    (length l <= n)%nat -> (length l <= n')%nat ->
    Pb.Unmarshal_loop n m l = Pb.Unmarshal_loop n' m l.
Proof.
  induction n as [|n IH]; intros n' m l Hn Hn'.
  - destruct l; [|simpl in Hn; lia]. now destruct n'.
  - destruct l as [|b l]; [now destruct n'|].
    destruct n' as [|n']; [simpl in Hn'; lia|].
    cbn [Pb.Unmarshal_loop].
    destruct (Pb.readField m (b :: l)) as [[m' l']| |] eqn:E; try reflexivity.
    apply readField_shorter in E. simpl in *. apply IH; lia.
Qed.

Lemma Unmarshal_loop_field (n : nat) (m m' : DataKey) (f rest : bytes) :
  f <> [] ->
  Pb.readField m (f ++ rest) = Ok (m', rest) ->
  (length (f ++ rest) <= n)%nat ->
  Pb.Unmarshal_loop n m (f ++ rest)
  = Pb.Unmarshal_loop (length rest) m' rest.
Proof.
  intros Hf Hread Hn.
  destruct f as [|b f]; [congruence|].
  destruct n as [|n]; [simpl in Hn; lia|].
  change ((b :: f) ++ rest) with (b :: (f ++ rest)) in *.
  cbn [Pb.Unmarshal_loop]. rewrite Hread.
  apply Unmarshal_loop_fuel; simpl in Hn; rewrite ?length_app in *; lia.
Qed.

Arguments Pb.readVarint : simpl never.
Arguments Pb.readBytes : simpl never.
Arguments Pb.varint : simpl never.

Lemma readField_KeyId (m : DataKey) (v : Z) (rest : bytes) :
  0 <= v < 2 ^ 64 ->
  Pb.readField m (0x08 :: Pb.varint v ++ rest)
  = Ok (mkDataKey v (Data m) (Iv m) (CreatedAt m), rest).
Proof.
  intros Hv. unfold Pb.readField.
  rewrite readVarint_tag by lia. simpl.
  now rewrite readVarint_varint.
Qed.

Lemma readField_Data (m : DataKey) (d rest : bytes) :
  Z.of_nat (length d) < 2 ^ 63 ->
  Pb.readField m (0x12 :: Pb.varint (Z.of_nat (length d)) ++ d ++ rest)
  = Ok (mkDataKey (KeyId m) d (Iv m) (CreatedAt m), rest).
Proof.
  intros Hd. unfold Pb.readField.
  rewrite readVarint_tag by lia. simpl.
  now rewrite readBytes_bytes.
Qed.

Lemma readField_Iv (m : DataKey) (d rest : bytes) :
  Z.of_nat (length d) < 2 ^ 63 ->
  Pb.readField m (0x1a :: Pb.varint (Z.of_nat (length d)) ++ d ++ rest)
  = Ok (mkDataKey (KeyId m) (Data m) d (CreatedAt m), rest).
Proof.
  intros Hd. unfold Pb.readField.
  rewrite readVarint_tag by lia. simpl.
  now rewrite readBytes_bytes.
Qed.

Lemma i64_u64 (c : Z) : - 2 ^ 63 <= c < 2 ^ 63 -> i64 (u64 c) = c.
Proof.
  intros Hc. unfold i64, u64.
  change (2 ^ 63) with 9223372036854775808 in *.
  change (2 ^ 64) with 18446744073709551616.
  Z.div_mod_to_equations. lia.
Qed.

Lemma readField_CreatedAt (m : DataKey) (c : Z) (rest : bytes) :
  - 2 ^ 63 <= c < 2 ^ 63 ->
  Pb.readField m (0x20 :: Pb.varint c ++ rest)
  = Ok (mkDataKey (KeyId m) (Data m) (Iv m) c, rest).
Proof.
  intros Hc. unfold Pb.readField.
  rewrite readVarint_tag by lia. simpl.
  replace (Pb.varint c) with (Pb.varint (u64 c)).
  - rewrite readVarint_varint by (apply Z.mod_pos_bound; lia).
    now rewrite i64_u64.
  - unfold Pb.varint, u64. now rewrite Z.mod_mod by lia.
Qed.

Lemma fieldBytes_length_ge (tag : Z) (d : bytes) :
  (length d <= length (Pb.fieldBytes tag d))%nat.
Proof.
  unfold Pb.fieldBytes. destruct (Nat.eqb_spec (length d) 0); [lia|].
  cbn [length]. rewrite length_app. lia.
Qed.

Lemma Marshal_length_ge (k : DataKey) :
  (length (Data k) <= length (Pb.Marshal k))%nat /\
  (length (Iv k) <= length (Pb.Marshal k))%nat.
Proof.
  unfold Pb.Marshal. rewrite !length_app.
  pose proof (fieldBytes_length_ge 0x12 (Data k)).
  pose proof (fieldBytes_length_ge 0x1a (Iv k)). lia.
Qed.

(** reading one field of the encoding, present or left out *)
Lemma Unmarshal_loop_KeyId (n : nat) (v : Z) (rest : bytes) :
  0 <= v < 2 ^ 64 ->
  (length (Pb.fieldVarint 0x08 v ++ rest) <= n)%nat ->
  Pb.Unmarshal_loop n (mkDataKey 0 [] [] 0) (Pb.fieldVarint 0x08 v ++ rest)
  = Pb.Unmarshal_loop (length rest) (mkDataKey v [] [] 0) rest.
Proof.
  intros Hv Hn. unfold Pb.fieldVarint in *.
  destruct (Z.eqb_spec v 0) as [->|Hnz].
  - apply Unmarshal_loop_fuel; cbn [app] in *; lia.
  - apply Unmarshal_loop_field; [discriminate | | exact Hn].
    apply (readField_KeyId (mkDataKey 0 [] [] 0)). exact Hv.
Qed.

Lemma Unmarshal_loop_Data (n : nat) (id : Z) (d rest : bytes) :
  Z.of_nat (length d) < 2 ^ 63 ->
  (length (Pb.fieldBytes 0x12 d ++ rest) <= n)%nat ->
  Pb.Unmarshal_loop n (mkDataKey id [] [] 0) (Pb.fieldBytes 0x12 d ++ rest)
  = Pb.Unmarshal_loop (length rest) (mkDataKey id d [] 0) rest.
Proof.
  intros Hd Hn. unfold Pb.fieldBytes in *.
  destruct (Nat.eqb_spec (length d) 0) as [E|E].
  - destruct d; [|discriminate].
    apply Unmarshal_loop_fuel; cbn [app] in *; lia.
  - apply Unmarshal_loop_field; [discriminate | | exact Hn].
    cbn [app]. rewrite <- app_assoc.
    apply (readField_Data (mkDataKey id [] [] 0)). exact Hd.
Qed.

Lemma Unmarshal_loop_Iv (n : nat) (id : Z) (d iv rest : bytes) :
  Z.of_nat (length iv) < 2 ^ 63 ->
  (length (Pb.fieldBytes 0x1a iv ++ rest) <= n)%nat ->
  Pb.Unmarshal_loop n (mkDataKey id d [] 0) (Pb.fieldBytes 0x1a iv ++ rest)
  = Pb.Unmarshal_loop (length rest) (mkDataKey id d iv 0) rest.
Proof.
  intros Hd Hn. unfold Pb.fieldBytes in *.
  destruct (Nat.eqb_spec (length iv) 0) as [E|E].
  - destruct iv; [|discriminate].
    apply Unmarshal_loop_fuel; cbn [app] in *; lia.
  - apply Unmarshal_loop_field; [discriminate | | exact Hn].
    cbn [app]. rewrite <- app_assoc.
    apply (readField_Iv (mkDataKey id d [] 0)). exact Hd.
Qed.

Lemma Unmarshal_loop_CreatedAt (n : nat) (id c : Z) (d iv : bytes) :
  - 2 ^ 63 <= c < 2 ^ 63 ->
  (length (Pb.fieldVarint 0x20 c) <= n)%nat ->
  Pb.Unmarshal_loop n (mkDataKey id d iv 0) (Pb.fieldVarint 0x20 c)
  = Ok (mkDataKey id d iv c).
Proof.
  intros Hc Hn. unfold Pb.fieldVarint in *.
  destruct (Z.eqb_spec c 0) as [->|Hnz]; [now destruct n|].
  rewrite <- (app_nil_r (0x20 :: Pb.varint c)) in *.
  rewrite (Unmarshal_loop_field _ _ (mkDataKey id d iv c));
    [reflexivity | discriminate | | exact Hn].
  apply (readField_CreatedAt (mkDataKey id d iv 0)). exact Hc.
Qed.

Lemma Unmarshal_Marshal (k : DataKey) :
  DataKey_typed k ->
  Z.of_nat (length (Pb.Marshal k)) < 2 ^ 63 ->
  Pb.Unmarshal (Pb.Marshal k) = Ok k.
Proof.
  intros [Hid Hc] Hlen. destruct (Marshal_length_ge k) as [HD HI].
  unfold Pb.Unmarshal, Pb.Marshal in *.
  destruct k as [id d iv c]. cbn [KeyId Data Iv CreatedAt] in *.
  rewrite Unmarshal_loop_KeyId by (try assumption; lia).
  rewrite Unmarshal_loop_Data by lia.
  rewrite Unmarshal_loop_Iv by lia.
  apply Unmarshal_loop_CreatedAt; [exact Hc | lia].
Qed.

(** ** Reading from a file *)

Lemma opened_advance (w : World) (fd : nat) (o : OpenFile) (content : bytes)
    (n : nat) :
  opened w fd o content -> opened (advance fd o n w) fd (moved o n) content.
Proof.
  intros [Hfd Hfile]. split; simpl.
  - apply lookup_insert_eq.
  - exact Hfile.
Qed.

Lemma advance_advance (w : World) (fd : nat) (o : OpenFile) (n n' : nat) :
  advance fd (moved o n) n' (advance fd o n w) = advance fd o (n + n') w.
Proof.
  unfold advance, set_fds, moved. simpl.
  rewrite insert_insert_eq. do 3 f_equal. lia.
Qed.

Lemma file_Read_some (w : World) (fd : nat) (o : OpenFile) (content b : bytes) :
  opened w fd o content -> b <> [] -> drop (of_off o) content <> [] ->
  file_Read (Some fd) b w
  = (Ok (length (take (length b) (drop (of_off o) content)),
         copy_into b (take (length b) (drop (of_off o) content))),
     advance fd o (length (take (length b) (drop (of_off o) content))) w).
Proof.
  intros [Hfd Hfile] Hb Hrest. unfold file_Read. rewrite Hfd, Hfile.
  destruct b as [|x b]; [congruence|].
  destruct (drop (of_off o) content) as [|y rest]; [congruence|].
  reflexivity.
Qed.

Lemma file_Read_eof (w : World) (fd : nat) (o : OpenFile) (content b : bytes) :
  opened w fd o content -> b <> [] -> drop (of_off o) content = [] ->
  file_Read (Some fd) b w = (Err EOF, w).
Proof.
  intros [Hfd Hfile] Hb Hrest. unfold file_Read. rewrite Hfd, Hfile, Hrest.
  destruct b; [congruence | reflexivity].
Qed.

Lemma file_Read_nothing (w : World) (fd : nat) (o : OpenFile)
    (content : bytes) :
  opened w fd o content -> file_Read (Some fd) [] w = (Ok (0%nat, []), w).
Proof. intros [Hfd Hfile]. unfold file_Read. now rewrite Hfd, Hfile. Qed.

Lemma copy_into_full (dst src : bytes) :
  length src = length dst -> copy_into dst src = src.
Proof.
  intros H. unfold copy_into.
  rewrite take_ge, drop_ge, app_nil_r by lia. reflexivity.
Qed.

(** ** Decoding one record *)

Lemma frame_header (data post : bytes) :
  take 8 (frame data ++ post)
  = PutUint32 (u32 (Z.of_nat (length data))) ++
    PutUint32 (CRC32C.Checksum data).
Proof.
  unfold frame. rewrite <- !app_assoc, app_assoc.
  now rewrite (take_app_length' _ _ 8) by reflexivity.
Qed.

Lemma frame_payload (data post : bytes) :
  take (length data) (drop 8 (frame data ++ post)) = data.
Proof.
  unfold frame. rewrite <- !app_assoc, app_assoc.
  rewrite (drop_app_length' _ _ 8) by reflexivity.
  apply take_app_length.
Qed.

Lemma frame_length (data : bytes) : length (frame data) = (8 + length data)%nat.
Proof. unfold frame. now rewrite !length_app. Qed.

(** When a whole record lies at the offset of the iterator, [Next] reads
    its header and its payload, moves on past it, and decodes the payload. *)
Lemma Next_on_frame (kri : keyRegistryIterator) (w : World) (fd : nat)
    (o : OpenFile) (content data post : bytes) :
  kri_fp kri = Some fd ->
  length (lenCrcBuf kri) = 8%nat ->
  opened w fd o content ->
  drop (of_off o) content = frame data ++ post ->
  Z.of_nat (length data) < 2 ^ 32 ->
  Next (kri, w)
  = (open_payload (encryptionKey kri) data,
     (set_lenCrcBuf (take 8 (frame data)) kri,
      advance fd o (8 + length data) w)).
Proof.
  intros Hfp Hbuf Hopen Hdrop Hlen.
  assert (Hhdr : take 8 (frame data ++ post) = take 8 (frame data)).
  { rewrite take_app_le; [reflexivity | rewrite frame_length; lia]. }
  assert (Hhl : length (take 8 (frame data ++ post)) = 8%nat).
  { rewrite frame_header. reflexivity. }
  unfold Next, bind, self, catch, inWorld, update. cbn [fst snd].
  rewrite Hfp.
  rewrite (file_Read_some w fd o content (lenCrcBuf kri) Hopen).
  2: { intros E. rewrite E in Hbuf. discriminate. }
  2: { rewrite Hdrop. unfold frame. discriminate. }
  rewrite Hbuf, Hdrop, Hhl.
  rewrite copy_into_full by (rewrite Hhl, Hbuf; reflexivity).
  cbn [fst snd].
  rewrite frame_header at 1.
  rewrite (take_app_length' _ _ 4) by reflexivity.
  rewrite Uint32_PutUint32
    by (unfold u32; apply Z.mod_pos_bound; lia).
  unfold u32. rewrite Z.mod_small by lia. rewrite Nat2Z.id.
  pose proof (opened_advance w fd o content 8 Hopen) as Hopen1.
  assert (Hcrc : (CRC32C.Checksum data
                  =? Uint32 (drop 4 (take 8 (frame data ++ post)))) = true).
  { rewrite frame_header.
    rewrite (drop_app_length' _ _ 4) by reflexivity.
    rewrite Uint32_PutUint32 by apply Checksum_range.
    apply Z.eqb_refl. }
  destruct (decide (data = [])) as [->|Edata].
  - (* an empty payload: the read of no bytes returns at once *)
    change (make (length (@nil Z))) with (@nil Z).
    rewrite (file_Read_nothing _ fd _ content Hopen1).
    cbn [fst snd]. rewrite Hcrc. cbn [negb].
    rewrite Hhdr.
    unfold open_payload, lift.
    destruct (Pb.Unmarshal []) as [dk| |]; try reflexivity.
    destruct (0 <? length (encryptionKey kri))%nat; [|reflexivity].
    destruct (XORBlock (Data dk) (encryptionKey kri) (Iv dk)); reflexivity.
  - assert (Hne : make (length data) <> []).
    { destruct data; [congruence | discriminate]. }
    rewrite (file_Read_some _ fd _ content _ Hopen1 Hne).
    2: { cbn [moved of_off]. rewrite <- drop_drop, Hdrop.
         unfold frame. rewrite <- !app_assoc, app_assoc.
         rewrite (drop_app_length' _ _ 8) by reflexivity.
         destruct data; [congruence | discriminate]. }
    cbn [moved of_off].
    replace (length (make (length data))) with (length data)
      by (unfold make; now rewrite repeat_length).
    rewrite <- drop_drop, Hdrop, frame_payload.
    rewrite copy_into_full
      by (unfold make; now rewrite repeat_length).
    cbn [fst snd]. rewrite Hcrc. cbn [negb].
    rewrite advance_advance, Hhdr.
    unfold open_payload, lift.
    destruct (Pb.Unmarshal data) as [dk| |]; try reflexivity.
    destruct (0 <? length (encryptionKey kri))%nat; [|reflexivity].
    destruct (XORBlock (Data dk) (encryptionKey kri) (Iv dk)); reflexivity.
Qed.

(** ** Encoding a key and decoding it again *)

Lemma keystream_xor_length (src key iv : bytes) :
  length (keystream_xor src key iv) = length src.
Proof. apply XORKeyStream_length. Qed.

Lemma fieldBytes_length (tag : Z) (d d' : bytes) :
  length d = length d' ->
  length (Pb.fieldBytes tag d) = length (Pb.fieldBytes tag d').
Proof.
  intros H. unfold Pb.fieldBytes. rewrite H.
  destruct (length d' =? 0)%nat; [reflexivity|].
  cbn [length]. rewrite !length_app. lia.
Qed.

Lemma Marshal_sealed_length (storageKey : bytes) (k : DataKey) :
  length (Pb.Marshal (sealed storageKey k)) = length (Pb.Marshal k).
Proof.
  unfold sealed. destruct (length storageKey =? 0)%nat; [reflexivity|].
  unfold Pb.Marshal. cbn [set_Data KeyId Data Iv CreatedAt].
  rewrite !length_app.
  rewrite (fieldBytes_length 0x12 _ (Data k)); [reflexivity|].
  apply keystream_xor_length.
Qed.

Lemma sealed_typed (storageKey : bytes) (k : DataKey) :
  DataKey_typed k -> DataKey_typed (sealed storageKey k).
Proof.
  unfold sealed. now destruct (length storageKey =? 0)%nat.
Qed.

(** the payload of the record of a key opens to the key *)
Lemma open_payload_sealed (storageKey : bytes) (k : DataKey) :
  (length storageKey = 0%nat \/
   valid_key_len (length storageKey) = true /\ length (Iv k) = AES.BlockSize) ->
  DataKey_typed k ->
  Z.of_nat (length (Pb.Marshal k)) < 2 ^ 63 ->
  open_payload storageKey (Pb.Marshal (sealed storageKey k)) = Ok (Some k).
Proof.
  intros Hkey Hty Hlen. unfold open_payload.
  rewrite Unmarshal_Marshal;
    [| now apply sealed_typed | now rewrite Marshal_sealed_length].
  unfold sealed.
  destruct (Nat.eqb_spec (length storageKey) 0) as [E|E].
  - rewrite E. reflexivity.
  - destruct Hkey as [Hkey | [Hk Hiv]]; [contradiction|].
    destruct (Nat.ltb_spec 0 (length storageKey)); [|lia].
    cbn [set_Data Data Iv].
    rewrite (XORBlock_ok _ _ _ Hk Hiv).
    now rewrite keystream_xor_involutive, set_Data_twice, set_Data_same.
Qed.

(** C6, as amended.  Take a storage key that is empty or of valid AES
    length, and a key whose fields are within their Go types, whose IV has
    the block size when there is a storage key, and whose serialization is
    shorter than 2^32 bytes.  Then [storeDataKey] succeeds and appends one
    record; and [Next], at an offset of a file where that record lies,
    returns the key itself: the same [Data], [Iv], [KeyId] and
    [CreatedAt]. *)
Theorem storeDataKey_Next_roundtrip (storageKey buf : bytes) (k : DataKey) :
  storageKey = [] \/ valid_key_len (length storageKey) = true ->
  (storageKey <> [] -> length (Iv k) = AES.BlockSize) ->
  DataKey_typed k ->
  Z.of_nat (length (Pb.Marshal k)) < 2 ^ 32 ->
  exists rec,
    storeDataKey storageKey (buf, k) = (Ok tt, (buf ++ rec, k)) /\
    forall (w : World) (fd : nat) (o : OpenFile) (pre post lcb : bytes),
      opened w fd o (pre ++ rec ++ post) ->
      of_off o = length pre ->
      length lcb = 8%nat ->
      exists s',
        Next (mkIterator storageKey (Some fd) lcb, w) = (Ok (Some k), s').
Proof.
  intros Hkey Hiv Hty Hlen.
  assert (Hcase : length storageKey = 0%nat \/
                  valid_key_len (length storageKey) = true /\
                  length (Iv k) = AES.BlockSize).
  { destruct Hkey as [->|Hk]; [left; reflexivity|].
    right. split; [exact Hk|]. apply Hiv. intros ->. discriminate. }
  exists (frame (Pb.Marshal (sealed storageKey k))). split.
  - now apply storeDataKey_ok.
  - intros w fd o pre post lcb Hopen Hoff Hlcb.
    eexists.
    rewrite (Next_on_frame _ w fd o
               (pre ++ frame (Pb.Marshal (sealed storageKey k)) ++ post)
               (Pb.Marshal (sealed storageKey k)) post).
    + rewrite open_payload_sealed; [reflexivity | assumption..|].
      change (2 ^ 63) with 9223372036854775808.
      change (2 ^ 32) with 4294967296 in Hlen. lia.
    + reflexivity.
    + exact Hlcb.
    + exact Hopen.
    + rewrite Hoff. now rewrite drop_app_length.
    + now rewrite Marshal_sealed_length.
Qed.

Lemma storeDataKey_Next_roundtrip_witness :
  exists rec,
    storeDataKey zero16 ([], key_one) = (Ok tt, ([] ++ rec, key_one)) /\
    forall (w : World) (fd : nat) (o : OpenFile) (pre post lcb : bytes),
      opened w fd o (pre ++ rec ++ post) ->
      of_off o = length pre ->
      length lcb = 8%nat ->
      exists s',
        Next (mkIterator zero16 (Some fd) lcb, w) = (Ok (Some key_one), s').
Proof.
  apply (storeDataKey_Next_roundtrip zero16 [] key_one).
  - right. reflexivity.
  - intros _. reflexivity.
  - unfold DataKey_typed. simpl. lia.
  - vm_compute. reflexivity.
Defined.

(** C6 as stated fails at a key without an IV under a storage key of 16
    bytes: [storeDataKey] does not encode it, the cipher panics. *)
Lemma storeDataKey_panics_without_iv :
  storeDataKey zero16 ([], key_without_iv)
  = (Panic "cipher.NewCTR: IV length must equal block size",
     ([], key_without_iv)).
Proof. vm_compute. reflexivity. Qed.

(** ** The rotation gate *)

Lemma time_Since_Unix_elapsed (kr : KeyRegistry) (w : World) :
  time_Since_Unix (lastCreated kr) w = (Ok (elapsed kr w), tick w).
Proof. reflexivity. Qed.

Lemma length_nonzero (l : bytes) : l <> [] -> (length l =? 0)%nat = false.
Proof. destruct l; [congruence | reflexivity]. Qed.

(** Without a storage key there is no key to return, and nothing happens. *)
Lemma latestDataKey_no_storage_key (kr : KeyRegistry) (w : World) :
  EncryptionKey (opt kr) = [] -> latestDataKey (kr, w) = (Ok None, (kr, w)).
Proof.
  intros H. unfold latestDataKey, bind, self. cbn [fst snd]. now rewrite H.
Qed.

(** Within the rotation period the call returns the key stored under
    [nextKeyID]; the registry is as before, the world has read the clock. *)
Lemma latestDataKey_within_period (kr : KeyRegistry) (w : World) :
  EncryptionKey (opt kr) <> [] ->
  elapsed kr w < EncryptionKeyRotationDuration (opt kr) ->
  latestDataKey (kr, w) = (Ok (dataKeys kr !! nextKeyID kr), (kr, tick w)).
Proof.
  intros Hkey Hlt. unfold latestDataKey, bind, self, inWorld. cbn [fst snd].
  rewrite (length_nonzero _ Hkey), time_Since_Unix_elapsed. cbn [fst snd].
  destruct (Z.ltb_spec (elapsed kr w)
              (EncryptionKeyRotationDuration (opt kr))); [reflexivity | lia].
Qed.

Lemma file_Write_writable (f : File) (p : bytes) (w : World) :
  writable f w -> exists w', file_Write f p w = (Ok tt, w').
Proof.
  intros (fd & o & content & -> & [Hfd Hfile] & Hw).
  unfold file_Write. rewrite Hfd, Hw, Hfile. eexists. reflexivity.
Qed.

Lemma file_Write_outcome (f : File) (p : bytes) (w w' : World)
    (r : result unit) :
  file_Write f p w = (r, w') ->
  match r with
  | Ok _ => writable f w
  | _ => w' = w
  end.
Proof.
  unfold file_Write, writable.
  destruct f as [fd|]; [|intros [= <- <-]; reflexivity].
  destruct (fds w !! fd) as [o|] eqn:Ho; [|intros [= <- <-]; reflexivity].
  destruct (of_writable o) eqn:Hw; [|intros [= <- <-]; reflexivity].
  destruct (files w !! of_path o) as [content|] eqn:Hc;
    intros [= <- <-]; [|reflexivity].
  exists fd, o, content. repeat split; assumption.
Qed.

(** [storeDataKey] touches the material of the key only. *)
Lemma storeDataKey_fields (storageKey buf buf' : bytes) (k k' : DataKey)
    (r : result unit) :
  storeDataKey storageKey (buf, k) = (r, (buf', k')) ->
  KeyId k' = KeyId k /\ Iv k' = Iv k /\ CreatedAt k' = CreatedAt k.
Proof.
  unfold storeDataKey, storeDataKey_xor, bind, get, modify, ret.
  destruct (length storageKey =? 0)%nat.
  - intros [= _ _ <-]. repeat split.
  - destruct (XORBlock (Data k) storageKey (Iv k));
      try (intros [= _ _ <-]; repeat split).
    cbn [fst snd set_Data Data Iv].
    destruct (XORBlock a storageKey (Iv k));
      intros [= _ _ <-]; repeat split.
Qed.

(** What a call does once the rotation period has elapsed.  It advances
    [nextKeyID] first.  When it returns a key, the key is new: its ID is the
    advanced [nextKeyID], it was put into the map under that ID,
    [lastCreated] is its creation time, and the file was open for writing.
    When it fails, the map, [lastCreated] and the files are as before. *)
Lemma latestDataKey_after_period (kr kr' : KeyRegistry) (w w' : World)
    (r : result (option DataKey)) :
  EncryptionKey (opt kr) <> [] ->
  EncryptionKeyRotationDuration (opt kr) <= elapsed kr w ->
  latestDataKey (kr, w) = (r, (kr', w')) ->
  fp kr' = fp kr /\ opt kr' = opt kr /\
  nextKeyID kr' = u64 (nextKeyID kr + 1) /\
  match r with
  | Ok (Some dk) =>
      KeyId dk = u64 (nextKeyID kr + 1) /\
      dataKeys kr' = <[KeyId dk := dk]> (dataKeys kr) /\
      lastCreated kr' = CreatedAt dk /\
      exists w0, files w0 = files w /\ fds w0 = fds w /\ writable (fp kr) w0
  | Ok None => False
  | _ =>
      dataKeys kr' = dataKeys kr /\ lastCreated kr' = lastCreated kr /\
      files w' = files w /\ fds w' = fds w
  end.
Proof.
  intros Hkey Hge. unfold latestDataKey, bind, self, inWorld, update.
  cbn [fst snd].
  rewrite (length_nonzero _ Hkey), time_Since_Unix_elapsed. cbn [fst snd].
  destruct (Z.ltb_spec (elapsed kr w)
              (EncryptionKeyRotationDuration (opt kr))); [lia|].
  cbn [fst snd]. unfold GenerateIV, rand_Read, time_Now, lift.
  cbn [entropy tick files fds next_fd clock ticks].
  destruct (AES.BlockSize <=? length (entropy w))%nat;
    [|intros [= <- <- <-]; repeat split; reflexivity].
  cbn [fst snd entropy files fds next_fd clock ticks].
  destruct (length (EncryptionKey (opt kr))
            <=? length (drop AES.BlockSize (entropy w)))%nat;
    [|intros [= <- <- <-]; repeat split; reflexivity].
  cbn [fst snd entropy files fds next_fd clock ticks set_nextKeyID
         nextKeyID opt fp].
  destruct (storeDataKey _ _) as [rs [buf dk']] eqn:Es.
  destruct (storeDataKey_fields _ _ _ _ _ _ Es) as (Hid & _ & Hc).
  cbn [KeyId CreatedAt] in Hid, Hc.
  destruct rs as [[]| |]; try (intros [= <- <- <-]; repeat split; reflexivity).
  cbn [fst snd].
  match goal with
  | |- context [file_Write (fp kr) buf ?w0] =>
      destruct (file_Write (fp kr) buf w0) as [rw w5] eqn:Ew;
      pose proof (file_Write_outcome _ _ _ _ _ Ew) as Hw
  end.
  destruct rw as [[]| |].
  - intros [= <- <- <-].
    cbn [set_Data KeyId CreatedAt set_dataKeys set_lastCreated set_nextKeyID
           dataKeys lastCreated nextKeyID fp opt].
    rewrite Hid. repeat split.
    eexists. split; [|split; [|exact Hw]]; reflexivity.
  - intros [= <- <- <-]. subst w5. repeat split; reflexivity.
  - intros [= <- <- <-]. subst w5. repeat split; reflexivity.
Qed.

Lemma writable_same_files (f : File) (w w' : World) :
  files w' = files w -> fds w' = fds w -> writable f w -> writable f w'.
Proof.
  intros Hf Hd (fd & o & content & -> & [H1 H2] & Hw).
  exists fd, o, content. unfold opened. rewrite Hf, Hd. auto.
Qed.

Lemma latestDataKey_rotates (kr : KeyRegistry) (w : World) :
  EncryptionKey (opt kr) <> [] ->
  EncryptionKeyRotationDuration (opt kr) <= elapsed kr w ->
  can_rotate kr w ->
  exists dk s', latestDataKey (kr, w) = (Ok (Some dk), s').
Proof.
  intros Hkey Hge (Hvalid & Hent & Hw).
  unfold latestDataKey, bind, self, inWorld, update. cbn [fst snd].
  rewrite (length_nonzero _ Hkey), time_Since_Unix_elapsed. cbn [fst snd].
  destruct (Z.ltb_spec (elapsed kr w)
              (EncryptionKeyRotationDuration (opt kr))); [lia|].
  cbn [fst snd]. unfold GenerateIV, rand_Read, time_Now, lift.
  cbn [entropy tick files fds next_fd clock ticks].
  destruct (Nat.leb_spec AES.BlockSize (length (entropy w))); [|lia].
  cbn [fst snd entropy files fds next_fd clock ticks].
  destruct (Nat.leb_spec (length (EncryptionKey (opt kr)))
              (length (drop AES.BlockSize (entropy w))));
    [|rewrite length_drop in *; lia].
  cbn [fst snd entropy files fds next_fd clock ticks set_nextKeyID
         nextKeyID opt fp].
  rewrite storeDataKey_ok.
  2: { right. split; [exact Hvalid|]. cbn [Iv]. rewrite length_take. lia. }
  cbn [fst snd].
  match goal with
  | |- context [file_Write (fp kr) ?buf ?w0] =>
      destruct (file_Write_writable (fp kr) buf w0) as [w5 Ew];
      [apply (writable_same_files _ w); [reflexivity..|exact Hw]|];
      rewrite Ew
  end.
  eexists; eexists; reflexivity.
Qed.

(** C7.  Take a registry with a storage key, whose stored keys have IDs up
    to [nextKeyID] (every registry that [OpenKeyRegistry] returns is such,
    and [latestDataKey] keeps it so: [OpenKeyRegistry_ids_bounded],
    [latestDataKey_ids_bounded]), and whose [nextKeyID] is below the last
    value of a [uint64].  A call made while
    less than the rotation period has elapsed since [lastCreated], and a
    second such call, return the same key (the one under [nextKeyID]) and
    leave the registry as it was.  A call made once the period has elapsed
    returns a key with the ID [nextKeyID + 1], above the ID returned
    before; it returns nothing else, and it fails only where the
    surroundings do not let a rotation go through. *)
Theorem rotation_gate (kr : KeyRegistry) (w1 w2 w3 : World) :
  EncryptionKey (opt kr) <> [] ->
  ids_bounded kr ->
  0 <= nextKeyID kr < 2 ^ 64 - 1 ->
  elapsed kr w1 < EncryptionKeyRotationDuration (opt kr) ->
  elapsed kr w2 < EncryptionKeyRotationDuration (opt kr) ->
  EncryptionKeyRotationDuration (opt kr) <= elapsed kr w3 ->
  exists r1 r3 kr3 w1' w2' w3',
    latestDataKey (kr, w1) = (r1, (kr, w1')) /\
    latestDataKey (kr, w2) = (r1, (kr, w2')) /\
    latestDataKey (kr, w3) = (r3, (kr3, w3')) /\
    match r3 with
    | Ok (Some dk3) =>
        KeyId dk3 = nextKeyID kr + 1 /\
        forall dk1, r1 = Ok (Some dk1) -> KeyId dk1 < KeyId dk3
    | Ok None => False
    | _ => ~ can_rotate kr w3
    end.
Proof.
  intros Hkey Hinv Hid H1 H2 H3.
  destruct (latestDataKey (kr, w3)) as [r3 [kr3 w3']] eqn:E3.
  exists (Ok (dataKeys kr !! nextKeyID kr)), r3, kr3, (tick w1), (tick w2), w3'.
  split; [now apply latestDataKey_within_period|].
  split; [now apply latestDataKey_within_period|].
  split; [reflexivity|].
  pose proof (latestDataKey_after_period _ _ _ _ _ Hkey H3 E3)
    as (_ & _ & _ & Hr).
  assert (Hu : u64 (nextKeyID kr + 1) = nextKeyID kr + 1).
  { unfold u64. apply Z.mod_small. lia. }
  destruct r3 as [[dk3|]| |].
  - destruct Hr as (Hk & _). rewrite Hu in Hk. split; [exact Hk|].
    intros dk1 [= Hdk1]. apply Hinv in Hdk1. lia.
  - exact Hr.
  - intros Hcan.
    destruct (latestDataKey_rotates _ _ Hkey H3 Hcan) as (dk & s' & E).
    congruence.
  - intros Hcan.
    destruct (latestDataKey_rotates _ _ Hkey H3 Hcan) as (dk & s' & E).
    congruence.
Qed.

Lemma rotation_gate_witness :
  exists r1 r3 kr3 w1' w2' w3',
    latestDataKey (registry_with_key_one, world_at 105)
    = (r1, (registry_with_key_one, w1')) /\
    latestDataKey (registry_with_key_one, world_at 106)
    = (r1, (registry_with_key_one, w2')) /\
    latestDataKey (registry_with_key_one, world_at 111)
    = (r3, (kr3, w3')) /\
    match r3 with
    | Ok (Some dk3) =>
        KeyId dk3 = nextKeyID registry_with_key_one + 1 /\
        forall dk1, r1 = Ok (Some dk1) -> KeyId dk1 < KeyId dk3
    | Ok None => False
    | _ => ~ can_rotate registry_with_key_one (world_at 111)
    end.
Proof.
  apply (rotation_gate registry_with_key_one
           (world_at 105) (world_at 106) (world_at 111)).
  - discriminate.
  - intros id dk H. unfold registry_with_key_one in H. cbn [dataKeys] in H.
    apply lookup_singleton_Some in H as [_ <-].
    vm_compute. discriminate.
  - vm_compute. split; [discriminate | reflexivity].
  - reflexivity.
  - reflexivity.
  - vm_compute. discriminate.
Defined.

(** ** A registry opened read-only *)

Lemma only_read_refl (w : World) : only_read w w.
Proof. split; [reflexivity|]. intros fd o H. now exists o. Qed.

Lemma only_read_trans (w1 w2 w3 : World) :
  only_read w1 w2 -> only_read w2 w3 -> only_read w1 w3.
Proof.
  intros [F1 D1] [F2 D2]. split; [congruence|].
  intros fd o3 H3. destruct (D2 _ _ H3) as (o2 & H2 & E2).
  destruct (D1 _ _ H2) as (o1 & H1 & E1). exists o1. split; congruence.
Qed.

Lemma not_writable_only_read (f : File) (w w' : World) :
  only_read w w' -> not_writable f w -> not_writable f w'.
Proof.
  intros [_ D] H fd o' -> Ho'. destruct (D _ _ Ho') as (o & Ho & E).
  rewrite E. now apply (H fd o).
Qed.

Lemma file_Read_only_read (f : File) (b : bytes) (w w' : World)
    (r : result (nat * bytes)) :
  file_Read f b w = (r, w') -> only_read w w'.
Proof.
  unfold file_Read.
  destruct f as [fd|]; [|intros [= _ <-]; apply only_read_refl].
  destruct (fds w !! fd) as [o|] eqn:Ho;
    [|intros [= _ <-]; apply only_read_refl].
  destruct (files w !! of_path o);
    [|intros [= _ <-]; apply only_read_refl].
  destruct (length b =? 0)%nat; [intros [= _ <-]; apply only_read_refl|].
  destruct (length _ =? 0)%nat; intros [= _ <-]; [apply only_read_refl|].
  split; [reflexivity|]. intros fd' o' H. cbn in H.
  destruct (decide (fd' = fd)) as [->|Hne].
  - rewrite lookup_insert_eq in H. injection H as <-. now exists o.
  - rewrite lookup_insert_ne in H by congruence. now exists o'.
Qed.

Lemma file_Close_only_read (f : File) (w w' : World) (r : result unit) :
  file_Close f w = (r, w') -> only_read w w'.
Proof.
  unfold file_Close.
  destruct f as [fd|]; [|intros [= _ <-]; apply only_read_refl].
  destruct (fds w !! fd) as [o|] eqn:Ho;
    intros [= _ <-]; [|apply only_read_refl].
  split; [reflexivity|]. intros fd' o' H. cbn in H.
  destruct (decide (fd' = fd)) as [->|Hne].
  - now rewrite lookup_delete_eq in H.
  - rewrite lookup_delete_ne in H by congruence. now exists o'.
Qed.

Lemma isValidRegistry_only_read (f : File) (key : bytes) (w w' : World)
    (r : result unit) :
  isValidRegistry f key w = (r, w') -> only_read w w'.
Proof.
  unfold isValidRegistry, bind, catch.
  destruct (file_Read f (make AES.BlockSize) w) as [r1 w1] eqn:E1.
  apply file_Read_only_read in E1.
  destruct r1 as [[n iv]| |]; try (intros [= _ <-]; exact E1).
  destruct (file_Read f (make (length sanityText)) w1) as [r2 w2] eqn:E2.
  apply file_Read_only_read in E2.
  pose proof (only_read_trans _ _ _ E1 E2) as E12.
  destruct r2 as [[n2 s]| |]; try (intros [= _ <-]; exact E12).
  destruct (0 <? length key)%nat.
  - unfold lift. destruct (XORBlock _ key iv); cbn [snd];
      try (intros [= _ <-]; exact E12).
    destruct (negb _); intros [= _ <-]; exact E12.
  - unfold ret. cbn [snd].
    destruct (negb _); intros [= _ <-]; exact E12.
Qed.

Lemma Next_only_read (kri kri' : keyRegistryIterator) (w w' : World)
    (r : result (option DataKey)) :
  Next (kri, w) = (r, (kri', w')) ->
  only_read w w' /\ kri_fp kri' = kri_fp kri.
Proof.
  unfold Next, bind, self, catch, inWorld, update. cbn [fst snd].
  destruct (file_Read (kri_fp kri) (lenCrcBuf kri) w) as [r1 w1] eqn:E1.
  apply file_Read_only_read in E1.
  destruct r1 as [[n buf]|e|]; cbn [fst snd].
  - destruct (file_Read (kri_fp kri) _ w1) as [r2 w2] eqn:E2.
    apply file_Read_only_read in E2.
    pose proof (only_read_trans _ _ _ E1 E2) as E12.
    destruct r2 as [[n2 data]|e|]; cbn [fst snd].
    + destruct (negb _); [intros [= _ <- <-]; split; auto|].
      unfold lift. destruct (Pb.Unmarshal data);
        try (intros [= _ <- <-]; split; auto).
      destruct (0 <? length (encryptionKey kri))%nat;
        [|intros [= _ <- <-]; split; auto].
      destruct (XORBlock _ _ _); intros [= _ <- <-]; split; auto.
    + destruct e; intros [= _ <- <-]; split; auto.
    + intros [= _ <- <-]; split; auto.
  - destruct e; intros [= _ <- <-]; split; auto.
  - intros [= _ <- <-]; split; auto.
Qed.

Lemma readKeyRegistry_loop_only_read (fuel : nat) :
  forall (kr kr' : KeyRegistry) (kri kri' : keyRegistryIterator)
         (w w' : World) (r : result KeyRegistry),
    readKeyRegistry_loop fuel kr (kri, w) = (r, (kri', w')) ->
    only_read w w'.
Proof.
  induction fuel as [|fuel IH]; intros kr kr' kri kri' w w' r.
  - intros [= _ _ <-]. apply only_read_refl.
  - cbn [readKeyRegistry_loop]. unfold bind.
    destruct (Next (kri, w)) as [r1 [kri1 w1]] eqn:E1.
    apply Next_only_read in E1 as [E1 _].
    destruct r1 as [[dk|]| |]; try (intros [= _ _ <-]; exact E1).
    intros H. apply (IH _ kr') in H. exact (only_read_trans _ _ _ E1 H).
Qed.

Lemma readKeyRegistry_only_read (f : File) (o : Options) (w w' : World)
    (r : result KeyRegistry) :
  readKeyRegistry f o w = (r, w') -> only_read w w'.
Proof.
  unfold readKeyRegistry, newKeyRegistryIterator, bind, ret.
  destruct (isValidRegistry f (EncryptionKey o) w) as [r1 w1] eqn:E1.
  apply isValidRegistry_only_read in E1.
  destruct r1 as [[]| |]; try (intros [= _ <-]; exact E1).
  destruct (readKeyRegistry_loop _ _ _) as [r2 [kri2 w2]] eqn:E2.
  apply (readKeyRegistry_loop_only_read _ _ (newKeyRegistry o)) in E2.
  intros [= _ <-]. exact (only_read_trans _ _ _ E1 E2).
Qed.

Lemma writable_not_writable (f : File) (w w0 : World) :
  fds w0 = fds w -> writable f w0 -> not_writable f w -> False.
Proof.
  intros Hd (fd & o & content & -> & [Hfd _] & Hw) Hn.
  rewrite Hd in Hfd. specialize (Hn fd o eq_refl Hfd). congruence.
Qed.

(** One call on a registry whose file is not open for writing: the map,
    [lastCreated], the files and the descriptors are as before, and a key
    that is returned is the one the map holds under [nextKeyID]. *)
Lemma latestDataKey_not_writable (kr kr' : KeyRegistry) (w w' : World)
    (r : result (option DataKey)) :
  not_writable (fp kr) w ->
  latestDataKey (kr, w) = (r, (kr', w')) ->
  dataKeys kr' = dataKeys kr /\ lastCreated kr' = lastCreated kr /\
  fp kr' = fp kr /\ opt kr' = opt kr /\
  files w' = files w /\ fds w' = fds w /\
  forall dk, r = Ok (Some dk) -> dataKeys kr !! nextKeyID kr = Some dk.
Proof.
  intros Hn E.
  destruct (decide (EncryptionKey (opt kr) = [])) as [Hkey|Hkey].
  { rewrite latestDataKey_no_storage_key in E by exact Hkey.
    injection E as <- <- <-. repeat split; discriminate. }
  destruct (Z.lt_ge_cases (elapsed kr w)
              (EncryptionKeyRotationDuration (opt kr))) as [Hlt|Hge].
  { rewrite latestDataKey_within_period in E by assumption.
    injection E as <- <- <-. repeat split. intros dk [= H]. exact H. }
  pose proof (latestDataKey_after_period _ _ _ _ _ Hkey Hge E)
    as (Hfp & Hopt & _ & Hr).
  destruct r as [[dk|]| |].
  - destruct Hr as (_ & _ & _ & w0 & _ & Hd & Hw).
    destruct (writable_not_writable _ _ _ Hd Hw Hn).
  - contradiction.
  - destruct Hr as (H1 & H2 & H3 & H4). repeat split; try assumption.
    discriminate.
  - destruct Hr as (H1 & H2 & H3 & H4). repeat split; try assumption.
    discriminate.
Qed.

(** Opening read-only changes no file and leaves the registry without a
    descriptor that is open for writing. *)
Lemma OpenKeyRegistry_read_only (o : Options) (w w' : World)
    (kr : KeyRegistry) :
  ReadOnly o = true ->
  OpenKeyRegistry o w = (Ok kr, w') ->
  files w' = files w /\ not_writable (fp kr) w'.
Proof.
  intros Hro. unfold OpenKeyRegistry, OpenExistingFile, catch, bind, get.
  rewrite Hro.
  destruct (files w !! Join (Dir o) KeyRegistryFileName) as [content|] eqn:Ef.
  - unfold open_fd. cbn [fst snd].
    unfold OpenKeyRegistry_read, catch, bind.
    match goal with
    | |- context [readKeyRegistry ?f o ?w1] =>
        destruct (readKeyRegistry f o w1) as [r1 w2] eqn:E1;
        apply readKeyRegistry_only_read in E1 as [Hf Hd]
    end.
    destruct r1 as [kr0|e|msg].
    + unfold ret. intros [= <- <-]. split; [exact Hf|].
      intros fd o' [= <-] Ho'. destruct (Hd _ _ Ho') as (o0 & Ho0 & ->).
      cbn in Ho0. rewrite lookup_insert_eq in Ho0. now injection Ho0 as <-.
    + destruct (file_Close _ w2) as [[[]| |] w3]; intros [= ].
    + intros [= ].
  - cbn [fst snd IsNotExist]. unfold fail, ret. intros [= <- <-].
    split; [reflexivity|]. intros fd o' [= ].
Qed.

Lemma after_calls_not_writable (kr kr2 : KeyRegistry) (w w2 : World) :
  not_writable (fp kr) w ->
  after_calls (kr, w) (kr2, w2) ->
  only_read w w2 /\ fp kr2 = fp kr /\
  dataKeys kr2 = dataKeys kr /\ lastCreated kr2 = lastCreated kr.
Proof.
  intros Hn H.
  remember (kr, w) as s eqn:Es. remember (kr2, w2) as s2 eqn:Es2.
  revert kr2 w2 Es2.
  induction H as [s | s s' kr1 w1 r H IH E | s kr1 w1 w1' r H IH E
                  | s kr1 w1 w1' H IH E]; intros kr2 w2 Es2; subst.
  - injection Es2 as <- <-.
    split; [apply only_read_refl|]. repeat split.
  - destruct (IH eq_refl kr1 w1 eq_refl) as (Hr & Hfp & Hk & Hl).
    assert (Hn1 : not_writable (fp kr1) w1).
    { rewrite Hfp. exact (not_writable_only_read _ _ _ Hr Hn). }
    destruct (latestDataKey_not_writable _ _ _ _ _ Hn1 E)
      as (Hk2 & Hl2 & Hfp2 & _ & Hf & Hd & _).
    split; [|repeat split; congruence].
    split.
    + destruct Hr as [Hr _]. congruence.
    + intros fd o' Ho'. rewrite Hd in Ho'. destruct Hr as [_ Hr].
      exact (Hr _ _ Ho').
  - injection Es2 as <- <-.
    destruct (IH eq_refl kr1 w1 eq_refl) as (Hr & Hfp & Hk & Hl).
    apply file_Close_only_read in E.
    split; [exact (only_read_trans _ _ _ Hr E)|]. repeat split; assumption.
  - injection Es2 as <- <-.
    destruct (IH eq_refl kr1 w1 eq_refl) as (Hr & Hfp & Hk & Hl).
    split; [exact (only_read_trans _ _ _ Hr E)|]. repeat split; assumption.
Qed.

(** C5, as amended.  With the read-only flag set, [OpenKeyRegistry]
    changes no file; and after any sequence of calls on the registry it
    returns, the files, the map of keys and [lastCreated] are what they
    were when it was opened, and a key that [latestDataKey] returns is a
    key of that map.  (A call that finds the rotation period elapsed does
    try to rotate and fails at the write.) *)
Theorem read_only_registry_keeps_keys_and_file (o : Options) (w w' : World)
    (kr : KeyRegistry) :
  ReadOnly o = true ->
  OpenKeyRegistry o w = (Ok kr, w') ->
  files w' = files w /\
  forall (kr2 : KeyRegistry) (w2 : World),
    after_calls (kr, w') (kr2, w2) ->
    files w2 = files w /\
    dataKeys kr2 = dataKeys kr /\ lastCreated kr2 = lastCreated kr /\
    forall r kr3 w3,
      latestDataKey (kr2, w2) = (r, (kr3, w3)) ->
      files w3 = files w /\
      dataKeys kr3 = dataKeys kr /\ lastCreated kr3 = lastCreated kr /\
      forall dk, r = Ok (Some dk) -> dataKeys kr !! nextKeyID kr2 = Some dk.
Proof.
  intros Hro Hopen.
  destruct (OpenKeyRegistry_read_only _ _ _ _ Hro Hopen) as [Hf Hn].
  split; [exact Hf|]. intros kr2 w2 Hcalls.
  destruct (after_calls_not_writable _ _ _ _ Hn Hcalls)
    as (Hr & Hfp & Hk & Hl).
  assert (Hf2 : files w2 = files w) by (destruct Hr as [Hr _]; congruence).
  repeat split; try assumption.
  all: assert (Hn2 : not_writable (fp kr2) w2)
    by (rewrite Hfp; exact (not_writable_only_read _ _ _ Hr Hn)).
  all: destruct (latestDataKey_not_writable _ _ _ _ _ Hn2 H)
    as (Hk3 & Hl3 & _ & _ & Hf3 & _ & Hret).
  - congruence.
  - congruence.
  - congruence.
  - intros dk Hdk. rewrite <- Hk. now apply Hret.
Qed.

Lemma read_only_registry_keeps_keys_and_file_witness :
  exists kr w',
    OpenKeyRegistry ro_plain_options world_with_registry = (Ok kr, w') /\
    files w' = files world_with_registry /\
    forall (kr2 : KeyRegistry) (w2 : World),
      after_calls (kr, w') (kr2, w2) ->
      files w2 = files world_with_registry /\
      dataKeys kr2 = dataKeys kr /\ lastCreated kr2 = lastCreated kr /\
      forall r kr3 w3,
        latestDataKey (kr2, w2) = (r, (kr3, w3)) ->
        files w3 = files world_with_registry /\
        dataKeys kr3 = dataKeys kr /\ lastCreated kr3 = lastCreated kr /\
        forall dk, r = Ok (Some dk) -> dataKeys kr !! nextKeyID kr2 = Some dk.
Proof.
  destruct (OpenKeyRegistry ro_plain_options world_with_registry)
    as [r w'] eqn:E.
  assert (Hok : exists kr, r = Ok kr).
  { assert (Hr : r = fst (OpenKeyRegistry ro_plain_options world_with_registry))
      by now rewrite E.
    rewrite Hr. vm_compute. eexists. reflexivity. }
  destruct Hok as [kr ->]. exists kr, w'. split; [reflexivity|].
  apply (read_only_registry_keeps_keys_and_file
           ro_plain_options world_with_registry w' kr);
    [reflexivity | exact E].
Defined.

(** C5 as stated fails on the registry opened read-only where there is no
    file, with a storage key and the rotation period elapsed: the call
    of [latestDataKey] takes an IV and key material from the random source
    and fails at the write, and [nextKeyID] has gone from 0 to 1. *)
Lemma read_only_latestDataKey_advances_nextKeyID :
  exists kr,
    OpenKeyRegistry ro_options (world_with_entropy (repeat 7 32))
    = (Ok kr, world_with_entropy (repeat 7 32)) /\
    nextKeyID kr = 0 /\
    exists kr' w',
      latestDataKey (kr, world_with_entropy (repeat 7 32))
      = (Err ErrInvalid, (kr', w')) /\
      nextKeyID kr' = 1 /\ entropy w' = [].
Proof.
  eexists. split; [vm_compute; reflexivity|]. split; [reflexivity|].
  eexists. eexists. split; [vm_compute; reflexivity|].
  split; reflexivity.
Qed.

(** ** The iterator at the end of the file *)

Lemma Next_at_end (kri : keyRegistryIterator) (w : World) (fd : nat)
    (o : OpenFile) (content : bytes) :
  kri_fp kri = Some fd ->
  lenCrcBuf kri <> [] ->
  opened w fd o content ->
  drop (of_off o) content = [] ->
  Next (kri, w) = (Ok None, (kri, w)).
Proof.
  intros Hfp Hbuf Hopen Hdrop.
  unfold Next, bind, self, catch, inWorld. cbn [fst snd].
  rewrite Hfp, (file_Read_eof w fd o content _ Hopen Hbuf Hdrop).
  reflexivity.
Qed.

Lemma Next_header_then_end (kri : keyRegistryIterator) (w : World) (fd : nat)
    (o : OpenFile) (content rest : bytes) :
  kri_fp kri = Some fd ->
  length (lenCrcBuf kri) = 8%nat ->
  opened w fd o content ->
  drop (of_off o) content = rest ->
  (0 < length rest <= 8)%nat ->
  0 < Uint32 (take 4 (copy_into (lenCrcBuf kri) rest)) ->
  Next (kri, w)
  = (Ok None,
     (set_lenCrcBuf (copy_into (lenCrcBuf kri) rest) kri,
      advance fd o (length rest) w)).
Proof.
  intros Hfp Hbuf Hopen Hdrop Hrest Hl.
  unfold Next, bind, self, catch, inWorld, update. cbn [fst snd].
  rewrite Hfp.
  rewrite (file_Read_some w fd o content (lenCrcBuf kri) Hopen).
  2: { intros E. rewrite E in Hbuf. discriminate. }
  2: { rewrite Hdrop. destruct rest; [simpl in Hrest; lia | discriminate]. }
  rewrite Hbuf, Hdrop, (take_ge rest) by lia.
  cbn [fst snd].
  pose proof (opened_advance w fd o content (length rest) Hopen) as Hopen1.
  rewrite (file_Read_eof _ fd _ content _ Hopen1).
  - reflexivity.
  - destruct (Z.to_nat _) eqn:E; [lia | discriminate].
  - cbn [moved of_off]. rewrite <- drop_drop, Hdrop. apply drop_all.
Qed.

Lemma drop_make (n m : nat) : drop n (make m) = make (m - n).
Proof.
  unfold make. revert m. induction n as [|n IH]; intros m.
  - now rewrite Nat.sub_0_r.
  - destruct m as [|m]; [reflexivity|]. simpl. apply IH.
Qed.

Lemma Next_short_payload (kri : keyRegistryIterator) (w : World) (fd : nat)
    (o : OpenFile) (content hdr part : bytes) :
  kri_fp kri = Some fd ->
  length (lenCrcBuf kri) = 8%nat ->
  opened w fd o content ->
  drop (of_off o) content = hdr ++ part ->
  length hdr = 8%nat ->
  (0 < length part < Z.to_nat (Uint32 (take 4 hdr)))%nat ->
  CRC32C.Checksum
    (part ++ make (Z.to_nat (Uint32 (take 4 hdr)) - length part))
  <> Uint32 (drop 4 hdr) ->
  Next (kri, w)
  = (Err errBadChecksum,
     (set_lenCrcBuf hdr kri, advance fd o (8 + length part) w)).
Proof.
  intros Hfp Hbuf Hopen Hdrop Hhdr Hpart Hcrc.
  unfold Next, bind, self, catch, inWorld, update. cbn [fst snd].
  rewrite Hfp.
  rewrite (file_Read_some w fd o content (lenCrcBuf kri) Hopen).
  2: { intros E. rewrite E in Hbuf. discriminate. }
  2: { rewrite Hdrop. destruct hdr; [discriminate Hhdr | discriminate]. }
  rewrite Hbuf, Hdrop.
  rewrite (take_app_length' hdr part 8) by (symmetry; exact Hhdr).
  rewrite copy_into_full by congruence. rewrite Hhdr.
  cbn [fst snd].
  pose proof (opened_advance w fd o content 8 Hopen) as Hopen1.
  set (l := Z.to_nat (Uint32 (take 4 hdr))) in *.
  assert (Hne : make l <> []).
  { destruct l; [lia | discriminate]. }
  assert (Hd : drop (of_off (moved o 8)) content = part).
  { cbn [moved of_off]. rewrite <- drop_drop, Hdrop.
    now rewrite drop_app_length' by (symmetry; exact Hhdr). }
  rewrite (file_Read_some _ fd _ content _ Hopen1 Hne).
  2: { rewrite Hd. destruct part; [simpl in Hpart; lia | discriminate]. }
  rewrite Hd.
  replace (length (make l)) with l by (unfold make; now rewrite repeat_length).
  rewrite (take_ge part) by lia.
  cbn [fst snd].
  assert (Hc : copy_into (make l) part = part ++ make (l - length part)).
  { unfold copy_into. rewrite drop_make.
    unfold make at 1. rewrite repeat_length, take_ge by lia. reflexivity. }
  rewrite Hc.
  destruct (Z.eqb_spec (CRC32C.Checksum (part ++ make (l - length part)))
              (Uint32 (drop 4 hdr))) as [E|_]; [contradiction|].
  cbn [negb]. rewrite advance_advance. reflexivity.
Qed.

(** C4, as amended.  For [Next] on an open file: at the end of the file,
    with no byte of a next record to read, it returns a clean end (no key,
    no error) and leaves the iterator and the world as they were.  When the
    file ends inside the 8-byte header or right after it, and the length
    then found in the header buffer is not zero, the read of the payload
    meets the end of the file and [Next] returns a clean end as well.  When
    the file ends inside the payload after at least one of its bytes, the
    missing bytes count as zeros and [Next] returns the checksum error
    whenever the checksum of that does not match. *)
Theorem Next_at_the_end_of_the_file :
  (forall kri w fd o content,
      kri_fp kri = Some fd -> lenCrcBuf kri <> [] ->
      opened w fd o content -> drop (of_off o) content = [] ->
      Next (kri, w) = (Ok None, (kri, w))) /\
  (forall kri w fd o content rest,
      kri_fp kri = Some fd -> length (lenCrcBuf kri) = 8%nat ->
      opened w fd o content -> drop (of_off o) content = rest ->
      (0 < length rest <= 8)%nat ->
      0 < Uint32 (take 4 (copy_into (lenCrcBuf kri) rest)) ->
      fst (Next (kri, w)) = Ok None) /\
  (forall kri w fd o content hdr part,
      kri_fp kri = Some fd -> length (lenCrcBuf kri) = 8%nat ->
      opened w fd o content -> drop (of_off o) content = hdr ++ part ->
      length hdr = 8%nat ->
      (0 < length part < Z.to_nat (Uint32 (take 4 hdr)))%nat ->
      CRC32C.Checksum
        (part ++ make (Z.to_nat (Uint32 (take 4 hdr)) - length part))
      <> Uint32 (drop 4 hdr) ->
      fst (Next (kri, w)) = Err errBadChecksum).
Proof.
  split; [exact Next_at_end|]. split.
  - intros. erewrite Next_header_then_end by eassumption. reflexivity.
  - intros. erewrite Next_short_payload by eassumption. reflexivity.
Qed.

(** C4 as stated fails on a file that ends after a header announcing five
    bytes of payload, and on a file that ends after three bytes of a
    header: [Next] returns a clean end, no key and no error. *)
Lemma Next_clean_end_inside_a_record :
  fst (Next (mkIterator [] (Some 0%nat) (make 8),
             world_reading [0; 0; 0; 5; 1; 2; 3; 4])) = Ok None /\
  fst (Next (mkIterator [] (Some 0%nat) (make 8),
             world_reading [0; 0; 1])) = Ok None.
Proof. split; vm_compute; reflexivity. Qed.

(** ** Loading ends *)

Lemma file_Read_bytes_left (f : File) (b b' : bytes) (w w' : World) (n : nat) :
  file_Read f b w = (Ok (n, b'), w') ->
  (bytes_left f w' + n = bytes_left f w)%nat /\
  length b' = length b /\ (b <> [] -> 0 < n)%nat.
Proof.
  unfold file_Read, bytes_left.
  destruct f as [fd|]; [|discriminate].
  destruct (fds w !! fd) as [o|] eqn:Ho; [|discriminate].
  destruct (files w !! of_path o) as [content|] eqn:Hc; [|discriminate].
  destruct (Nat.eqb_spec (length b) 0) as [Hb|Hb].
  - intros [= <- <- <-]. rewrite Ho, Hc. repeat split; [lia|].
    intros Hne. destruct b; [congruence | discriminate].
  - destruct (Nat.eqb_spec
                (length (take (length b) (drop (of_off o) content))) 0)
      as [Hp|Hp]; [discriminate|].
    intros [= <- <- <-]. cbn [fds set_fds files].
    rewrite lookup_insert_eq. cbn [of_path of_off]. rewrite Hc.
    pose proof (length_take_le (drop (of_off o) content) (length b)) as H1.
    rewrite length_take, length_drop in *.
    repeat split; [lia | | lia].
    apply copy_into_length. rewrite length_take. lia.
Qed.

(** A turn of the loop that yields a key has read at least one byte. *)
Lemma Next_progress (kri kri' : keyRegistryIterator) (w w' : World)
    (dk : DataKey) :
  length (lenCrcBuf kri) = 8%nat ->
  Next (kri, w) = (Ok (Some dk), (kri', w')) ->
  kri_fp kri' = kri_fp kri /\ length (lenCrcBuf kri') = 8%nat /\
  (bytes_left (kri_fp kri) w' < bytes_left (kri_fp kri) w)%nat.
Proof.
  intros Hbuf. unfold Next, bind, self, catch, inWorld, update.
  cbn [fst snd].
  destruct (file_Read (kri_fp kri) (lenCrcBuf kri) w) as [r1 w1] eqn:E1.
  destruct r1 as [[n buf]|e|]; cbn [fst snd];
    [| destruct e; discriminate | discriminate].
  apply file_Read_bytes_left in E1 as (B1 & L1 & P1).
  assert (0 < n)%nat by (apply P1; intros E; rewrite E in Hbuf; discriminate).
  destruct (file_Read (kri_fp kri) _ w1) as [r2 w2] eqn:E2.
  destruct r2 as [[n2 data]|e|]; cbn [fst snd];
    [| destruct e; discriminate | discriminate].
  apply file_Read_bytes_left in E2 as (B2 & _ & _).
  destruct (negb _); [discriminate|].
  unfold lift. destruct (Pb.Unmarshal data); try discriminate.
  destruct (0 <? length (encryptionKey kri))%nat.
  - destruct (XORBlock _ _ _); try discriminate.
    intros [= _ <- <-]. cbn. repeat split; [congruence | lia].
  - intros [= _ <- <-]. cbn. repeat split; [congruence | lia].
Qed.

(** The loop of [readKeyRegistry] does not use up a number of turns above
    the number of bytes left in the file: any two such numbers give the
    same result. *)
Lemma readKeyRegistry_loop_fuel (fuel : nat) :
  forall (fuel' : nat) (kr : KeyRegistry) (kri : keyRegistryIterator)
         (w : World),
    length (lenCrcBuf kri) = 8%nat ->
    (bytes_left (kri_fp kri) w < fuel)%nat ->
    (bytes_left (kri_fp kri) w < fuel')%nat ->
    readKeyRegistry_loop fuel kr (kri, w)
    = readKeyRegistry_loop fuel' kr (kri, w).
Proof.
  induction fuel as [|fuel IH]; intros fuel' kr kri w Hbuf Hf Hf'; [lia|].
  destruct fuel' as [|fuel']; [lia|].
  cbn [readKeyRegistry_loop]. unfold bind.
  destruct (Next (kri, w)) as [r [kri1 w1]] eqn:E.
  destruct r as [[dk|]| |]; try reflexivity.
  destruct (Next_progress _ _ _ _ _ Hbuf E) as (Hfp & Hbuf1 & Hlt).
  apply IH; [exact Hbuf1 | rewrite Hfp; lia | rewrite Hfp; lia].
Qed.

(** ** The stored IDs stay below [nextKeyID] *)

Lemma newKeyRegistry_ids_bounded (o : Options) :
  ids_bounded (newKeyRegistry o).
Proof. intros id dk H. cbn in H. now rewrite lookup_empty in H. Qed.

Lemma readKeyRegistry_body_ids_bounded (dk : DataKey) (kr : KeyRegistry) :
  ids_bounded kr -> ids_bounded (readKeyRegistry_body dk kr).
Proof.
  intros Hb id dk' H. unfold readKeyRegistry_body in *.
  destruct (Z.ltb_spec (nextKeyID kr) (KeyId dk)) as [Hlt|Hge];
    destruct (lastCreated _ <? CreatedAt dk);
    cbn [set_dataKeys set_lastCreated set_nextKeyID dataKeys nextKeyID
           lastCreated] in *.
  all: match type of H with
       | <[?i := _]> _ !! _ = _ =>
           destruct (decide (id = i)) as [->|Hne];
           [rewrite lookup_insert_eq in H; injection H as <-; lia
           |rewrite lookup_insert_ne in H by congruence;
            apply Hb in H; lia]
       end.
Qed.

Lemma readKeyRegistry_loop_ids_bounded (fuel : nat) :
  forall (kr kr' : KeyRegistry) (s s' : keyRegistryIterator * World),
    ids_bounded kr ->
    readKeyRegistry_loop fuel kr s = (Ok kr', s') ->
    ids_bounded kr'.
Proof.
  induction fuel as [|fuel IH]; intros kr kr' s s' Hb; [discriminate|].
  cbn [readKeyRegistry_loop]. unfold bind.
  destruct (Next s) as [r s1]. destruct r as [[dk|]| |]; try discriminate.
  - apply IH. now apply readKeyRegistry_body_ids_bounded.
  - intros [= <- _]. exact Hb.
Qed.

Lemma readKeyRegistry_ids_bounded (f : File) (o : Options) (w w' : World)
    (kr : KeyRegistry) :
  readKeyRegistry f o w = (Ok kr, w') -> ids_bounded kr.
Proof.
  unfold readKeyRegistry, newKeyRegistryIterator, bind, ret.
  destruct (isValidRegistry f (EncryptionKey o) w) as [[[]| |] w1];
    try discriminate.
  destruct (readKeyRegistry_loop _ _ _) as [r2 s2] eqn:E.
  intros [= -> _].
  exact (readKeyRegistry_loop_ids_bounded _ _ _ _ _
           (newKeyRegistry_ids_bounded o) E).
Qed.

Lemma OpenKeyRegistry_ids_bounded (o : Options) (w w' : World)
    (kr : KeyRegistry) :
  OpenKeyRegistry o w = (Ok kr, w') -> ids_bounded kr.
Proof.
  assert (Hread : forall f w w' kr,
             OpenKeyRegistry_read f o w = (Ok kr, w') -> ids_bounded kr).
  { intros f v v' k. unfold OpenKeyRegistry_read, catch, bind.
    destruct (readKeyRegistry f o v) as [r1 v1] eqn:E1.
    destruct r1 as [kr0|e|msg]; try discriminate.
    - intros [= <- _]. apply readKeyRegistry_ids_bounded in E1. exact E1.
    - destruct (file_Close f v1) as [[[]| |] v2]; discriminate. }
  unfold OpenKeyRegistry, catch, bind.
  destruct (OpenExistingFile _ _ w) as [[f|e|msg] w1]; try discriminate.
  - apply Hread.
  - destruct (IsNotExist e); [|discriminate].
    destruct (ReadOnly o).
    + intros [= <- _]. apply newKeyRegistry_ids_bounded.
    + destruct (WriteKeyRegistry o _) as [[[]| |] s2]; try discriminate.
      cbn [snd].
      destruct (OpenExistingFile _ _ _) as [[f| |] w3]; try discriminate.
      apply Hread.
Qed.

(** a rotation keeps the bound as long as the counter does not wrap *)
Lemma latestDataKey_ids_bounded (kr kr' : KeyRegistry) (w w' : World)
    (r : result (option DataKey)) :
  0 <= nextKeyID kr < 2 ^ 64 - 1 ->
  ids_bounded kr ->
  latestDataKey (kr, w) = (r, (kr', w')) ->
  ids_bounded kr'.
Proof.
  intros Hid Hb E.
  assert (Hu : u64 (nextKeyID kr + 1) = nextKeyID kr + 1)
    by (unfold u64; apply Z.mod_small; lia).
  destruct (decide (EncryptionKey (opt kr) = [])) as [Hkey|Hkey].
  { rewrite latestDataKey_no_storage_key in E by exact Hkey.
    now injection E as <- <- <-. }
  destruct (Z.lt_ge_cases (elapsed kr w)
              (EncryptionKeyRotationDuration (opt kr))) as [Hlt|Hge].
  { rewrite latestDataKey_within_period in E by assumption.
    now injection E as <- <- <-. }
  pose proof (latestDataKey_after_period _ _ _ _ _ Hkey Hge E)
    as (_ & _ & Hn & Hr).
  intros id dk H. rewrite Hn, Hu.
  destruct r as [[dk3|]| |].
  - destruct Hr as (Hk & Hm & _). rewrite Hm, Hk, Hu in H.
    destruct (decide (id = nextKeyID kr + 1)) as [->|Hne].
    + rewrite lookup_insert_eq in H. injection H as <-. lia.
    + rewrite lookup_insert_ne in H by congruence. apply Hb in H. lia.
  - contradiction.
  - destruct Hr as (Hm & _). rewrite Hm in H. apply Hb in H. lia.
  - destruct Hr as (Hm & _). rewrite Hm in H. apply Hb in H. lia.
Qed.

(** * Further properties of the code *)

(** ** The cipher primitive *)

(** X1.  Under a key of valid AES length and an IV of block size,
    [XORBlock] succeeds on every input, its output has the length of the
    input, and [XORBlock] on that output under the same key and IV gives
    the input back. *)
Theorem XORBlock_decrypts_what_it_encrypts (src key iv : bytes) :
  valid_key_len (length key) = true ->
  length iv = AES.BlockSize ->
  exists dst,
    XORBlock src key iv = Ok dst /\
    length dst = length src /\
    XORBlock dst key iv = Ok src.
Proof.
  intros Hk Hiv. exists (keystream_xor src key iv).
  rewrite !XORBlock_ok by assumption.
  rewrite keystream_xor_involutive, keystream_xor_length. auto.
Qed.

Lemma XORBlock_decrypts_what_it_encrypts_witness :
  exists dst,
    XORBlock [1; 2; 3] zero16 zero16 = Ok dst /\
    length dst = length [1; 2; 3] /\
    XORBlock dst zero16 zero16 = Ok [1; 2; 3].
Proof.
  apply (XORBlock_decrypts_what_it_encrypts [1; 2; 3] zero16 zero16);
    reflexivity.
Defined.

Lemma XORReader_loop_outcome (r : Reader) :
  forall (stream : ctr) (bufIn bufOut out : bytes),
    length bufIn = bufferSize ->
    XORReader_loop stream bufIn bufOut r (mkWriter out None)
    = (match read_failure r with None => Ok tt | Some e => Err e end,
       mkWriter (out ++ copied r) None).
Proof.
  induction r as [|[p err] r IH]; intros stream bufIn bufOut out Hin.
  - cbn [XORReader_loop reader_Read fst read_failure copied].
    destruct (XORReader_turn_writes stream bufIn bufOut [] (Some EOF) out)
      as (next & Heq & _); [exact Hin | simpl; lia | exact I |].
    unfold bind. rewrite Heq. reflexivity.
  - cbn [XORReader_loop reader_Read fst read_failure copied].
    assert (Hp : (length (take (length bufIn) p) <= bufferSize)%nat)
      by (rewrite length_take; lia).
    destruct err as [e|].
    + assert (HEOF : e = EOF ->
                XORReader_turn stream bufIn bufOut
                  (take (length bufIn) p, Some e) (mkWriter out None)
                = (Ok None, mkWriter (out ++ take bufferSize p) None)).
      { intros ->.
        destruct (XORReader_turn_writes stream bufIn bufOut
                    (take (length bufIn) p) (Some EOF) out)
          as (next & Heq & Hnext); [exact Hin | exact Hp | exact I |].
        destruct next as [[[s' bi'] bo']|]; [contradiction|].
        now rewrite Heq, Hin. }
      unfold bind.
      destruct e; try (rewrite (HEOF eq_refl); reflexivity);
        cbn; now rewrite app_nil_r.
    + destruct (XORReader_turn_writes stream bufIn bufOut
                  (take (length bufIn) p) None out)
        as (next & Heq & Hnext); [exact Hin | exact Hp | exact I |].
      unfold bind. rewrite Heq.
      destruct next as [[[s' bi'] bo']|]; [|contradiction].
      rewrite (IH s' bi' bo' _ Hnext). rewrite Hin, app_assoc. reflexivity.
Qed.

(** X2.  [XORReader] into a writer without a limit, under a key of valid
    length and an IV of block size: it stops at the first error of the
    reader that is not [io.EOF] and returns that error, and it returns
    without an error when the reader ends.  Either way it has written the
    bytes of the reads before that point, and those delivered together
    with [io.EOF], as they were read; bytes that come with another error
    are not written. *)
Theorem XORReader_stops_at_read_error (r : Reader) (key iv out : bytes) :
  valid_key_len (length key) = true ->
  length iv = AES.BlockSize ->
  XORReader r key iv (mkWriter out None)
  = (match read_failure r with None => Ok tt | Some e => Err e end,
     mkWriter (out ++ copied r) None).
Proof.
  intros Hk Hiv. unfold XORReader, NewCipher, NewCTR, lift, bind.
  rewrite Hk, Hiv. simpl.
  apply XORReader_loop_outcome. reflexivity.
Qed.

Lemma XORReader_stops_at_read_error_witness :
  XORReader [([1; 2], None); ([3], Some ErrClosed); ([4], None)]
            zero16 zero16 (mkWriter [] None)
  = (match read_failure [([1; 2], None); ([3], Some ErrClosed); ([4], None)]
     with None => Ok tt | Some e => Err e end,
     mkWriter ([] ++ copied [([1; 2], None); ([3], Some ErrClosed);
                             ([4], None)]) None).
Proof.
  apply (XORReader_stops_at_read_error
           [([1; 2], None); ([3], Some ErrClosed); ([4], None)]
           zero16 zero16 []); reflexivity.
Defined.

(** X3.  An IV that [GenerateIV] returns without an error has the block
    size, so [XORBlock] under a key of valid length accepts it on every
    input; it is made of the next 16 bytes of the random source.  When
    [GenerateIV] fails the world is as before. *)
Theorem GenerateIV_gives_a_block (w : World) :
  match GenerateIV w with
  | (Ok iv, w') =>
      length iv = AES.BlockSize /\
      entropy w = iv ++ entropy w' /\
      files w' = files w /\ fds w' = fds w /\
      forall src key,
        valid_key_len (length key) = true ->
        exists dst, XORBlock src key iv = Ok dst
  | (Err _, w') => w' = w
  | (Panic _, _) => False
  end.
Proof.
  unfold GenerateIV, rand_Read.
  destruct (Nat.leb_spec AES.BlockSize (length (entropy w))) as [H|H];
    [|reflexivity].
  cbn [entropy files fds].
  assert (Hl : length (take AES.BlockSize (entropy w)) = AES.BlockSize)
    by (rewrite length_take; lia).
  repeat split.
  - exact Hl.
  - now rewrite take_drop.
  - intros src key Hk. eexists. now apply XORBlock_ok.
Qed.

(** ** Encoding under a storage key the cipher refuses *)

(** X4.  Under a storage key that is not empty and not of 16, 24 or 32
    bytes, [storeDataKey] fails with the key-size error of the cipher and
    appends nothing to the buffer; the assignment [k.Data, err = ...] has
    then replaced the material of the key in memory by [nil], the other
    fields staying as they were. *)
Theorem storeDataKey_invalid_storage_key (storageKey buf : bytes)
    (k : DataKey) :
  storageKey <> [] ->
  valid_key_len (length storageKey) = false ->
  storeDataKey storageKey (buf, k)
  = (Err (KeySizeError (length storageKey)),
     (buf, mkDataKey (KeyId k) [] (Iv k) (CreatedAt k))).
Proof.
  intros Hne Hk. unfold storeDataKey, storeDataKey_xor, bind.
  rewrite (length_nonzero _ Hne), (XORBlock_bad_key _ _ _ Hk).
  reflexivity.
Qed.

Lemma storeDataKey_invalid_storage_key_witness :
  storeDataKey [1; 2; 3; 4; 5] ([9], key_one)
  = (Err (KeySizeError (length [1; 2; 3; 4; 5])),
     ([9], mkDataKey (KeyId key_one) [] (Iv key_one) (CreatedAt key_one))).
Proof.
  apply (storeDataKey_invalid_storage_key [1; 2; 3; 4; 5] [9] key_one).
  - discriminate.
  - reflexivity.
Defined.

(** ** The checksum of a record *)

(** When a header and the whole payload it announces lie at the offset of
    the iterator, [Next] compares the checksum of the payload with the
    one in the header, and decodes the payload only when they agree. *)
Lemma Next_on_record (kri : keyRegistryIterator) (w : World) (fd : nat)
    (o : OpenFile) (content hdr data post : bytes) :
  kri_fp kri = Some fd ->
  length (lenCrcBuf kri) = 8%nat ->
  opened w fd o content ->
  drop (of_off o) content = hdr ++ data ++ post ->
  length hdr = 8%nat ->
  Uint32 (take 4 hdr) = Z.of_nat (length data) ->
  Next (kri, w)
  = ((if CRC32C.Checksum data =? Uint32 (drop 4 hdr)
      then open_payload (encryptionKey kri) data
      else Err errBadChecksum),
     (set_lenCrcBuf hdr kri, advance fd o (8 + length data) w)).
Proof.
  intros Hfp Hbuf Hopen Hdrop Hhdr Hlen.
  unfold Next, bind, self, catch, inWorld, update. cbn [fst snd].
  rewrite Hfp.
  rewrite (file_Read_some w fd o content (lenCrcBuf kri) Hopen).
  2: { intros E. rewrite E in Hbuf. discriminate. }
  2: { rewrite Hdrop. destruct hdr; [discriminate Hhdr | discriminate]. }
  rewrite Hbuf, Hdrop.
  rewrite (take_app_length' hdr _ 8) by (symmetry; exact Hhdr).
  rewrite copy_into_full by congruence. rewrite Hhdr.
  cbn [fst snd]. rewrite Hlen, Nat2Z.id.
  pose proof (opened_advance w fd o content 8 Hopen) as Hopen1.
  assert (Hd : drop (of_off (moved o 8)) content = data ++ post).
  { cbn [moved of_off]. rewrite <- drop_drop, Hdrop.
    now rewrite drop_app_length' by (symmetry; exact Hhdr). }
  destruct (decide (data = [])) as [->|Edata].
  - change (make (length (@nil Z))) with (@nil Z).
    rewrite (file_Read_nothing _ fd _ content Hopen1).
    cbn [fst snd].
    destruct (CRC32C.Checksum [] =? Uint32 (drop 4 hdr)); cbn [negb];
      [|reflexivity].
    unfold open_payload, lift.
    destruct (Pb.Unmarshal []) as [dk| |]; try reflexivity.
    destruct (0 <? length (encryptionKey kri))%nat; [|reflexivity].
    destruct (XORBlock (Data dk) (encryptionKey kri) (Iv dk)); reflexivity.
  - assert (Hne : make (length data) <> []).
    { destruct data; [congruence | discriminate]. }
    rewrite (file_Read_some _ fd _ content _ Hopen1 Hne).
    2: { rewrite Hd. destruct data; [congruence | discriminate]. }
    rewrite Hd.
    replace (length (make (length data))) with (length data)
      by (unfold make; now rewrite repeat_length).
    rewrite take_app_length.
    rewrite copy_into_full
      by (unfold make; now rewrite repeat_length).
    cbn [fst snd]. rewrite advance_advance.
    destruct (CRC32C.Checksum data =? Uint32 (drop 4 hdr)); cbn [negb];
      [|reflexivity].
    unfold open_payload, lift.
    destruct (Pb.Unmarshal data) as [dk| |]; try reflexivity.
    destruct (0 <? length (encryptionKey kri))%nat; [|reflexivity].
    destruct (XORBlock (Data dk) (encryptionKey kri) (Iv dk)); reflexivity.
Qed.

(** X5.  A record whose header and whole payload are in the file, and
    whose payload does not have the checksum written in the header, makes
    [Next] fail with [errBadChecksum], whatever the payload holds and
    whatever the storage key is: the payload is not decoded.  The
    iterator has then moved past the record. *)
Theorem Next_rejects_a_bad_checksum (kri : keyRegistryIterator) (w : World)
    (fd : nat) (o : OpenFile) (content hdr data post : bytes) :
  kri_fp kri = Some fd ->
  length (lenCrcBuf kri) = 8%nat ->
  opened w fd o content ->
  drop (of_off o) content = hdr ++ data ++ post ->
  length hdr = 8%nat ->
  Uint32 (take 4 hdr) = Z.of_nat (length data) ->
  CRC32C.Checksum data <> Uint32 (drop 4 hdr) ->
  Next (kri, w)
  = (Err errBadChecksum,
     (set_lenCrcBuf hdr kri, advance fd o (8 + length data) w)).
Proof.
  intros Hfp Hbuf Hopen Hdrop Hhdr Hlen Hcrc.
  rewrite (Next_on_record kri w fd o content hdr data post) by assumption.
  destruct (Z.eqb_spec (CRC32C.Checksum data) (Uint32 (drop 4 hdr)));
    [contradiction | reflexivity].
Qed.

Lemma Next_rejects_a_bad_checksum_witness :
  Next (mkIterator [] (Some 0%nat) (make 8),
        world_reading [0; 0; 0; 2; 0; 0; 0; 0; 8; 1; 7])
  = (Err errBadChecksum,
     (set_lenCrcBuf [0; 0; 0; 2; 0; 0; 0; 0]
        (mkIterator [] (Some 0%nat) (make 8)),
      advance 0 (mkOpenFile "f" 0 false) (8 + length [8; 1])
        (world_reading [0; 0; 0; 2; 0; 0; 0; 0; 8; 1; 7]))).
Proof.
  apply (Next_rejects_a_bad_checksum
           (mkIterator [] (Some 0%nat) (make 8))
           (world_reading [0; 0; 0; 2; 0; 0; 0; 0; 8; 1; 7])
           0%nat (mkOpenFile "f" 0 false)
           [0; 0; 0; 2; 0; 0; 0; 0; 8; 1; 7]
           [0; 0; 0; 2; 0; 0; 0; 0] [8; 1] [7]).
  - reflexivity.
  - reflexivity.
  - split; reflexivity.
  - reflexivity.
  - reflexivity.
  - reflexivity.
  - vm_compute. discriminate.
Defined.

(** ** A rotation, step by step *)

(** With a storage key the cipher accepts and enough random bytes, a call
    after the rotation period comes down to its write to the file. *)
Lemma latestDataKey_rotation_eq (kr : KeyRegistry) (w : World) :
  EncryptionKey (opt kr) <> [] ->
  EncryptionKeyRotationDuration (opt kr) <= elapsed kr w ->
  valid_key_len (length (EncryptionKey (opt kr))) = true ->
  (AES.BlockSize + length (EncryptionKey (opt kr)) <= length (entropy w))%nat ->
  latestDataKey (kr, w)
  = match file_Write (fp kr)
            (record (EncryptionKey (opt kr)) (rotated_key kr w))
            (world_before_write kr w) with
    | (Ok _, w') =>
        (Ok (Some (rotated_key kr w)), (rotated kr (rotated_key kr w), w'))
    | (Err e, w') =>
        (Err e, (set_nextKeyID (u64 (nextKeyID kr + 1)) kr, w'))
    | (Panic msg, w') =>
        (Panic msg, (set_nextKeyID (u64 (nextKeyID kr + 1)) kr, w'))
    end.
Proof.
  intros Hkey Hge Hvalid Hent.
  unfold latestDataKey, bind, self, inWorld, update. cbn [fst snd].
  rewrite (length_nonzero _ Hkey), time_Since_Unix_elapsed. cbn [fst snd].
  destruct (Z.ltb_spec (elapsed kr w)
              (EncryptionKeyRotationDuration (opt kr))); [lia|].
  cbn [fst snd]. unfold GenerateIV, rand_Read, time_Now, lift.
  cbn [entropy tick files fds next_fd clock ticks].
  destruct (Nat.leb_spec AES.BlockSize (length (entropy w))); [|lia].
  cbn [fst snd entropy files fds next_fd clock ticks].
  destruct (Nat.leb_spec (length (EncryptionKey (opt kr)))
              (length (drop AES.BlockSize (entropy w))));
    [|rewrite length_drop in *; lia].
  cbn [fst snd entropy files fds next_fd clock ticks set_nextKeyID
         nextKeyID opt fp].
  rewrite storeDataKey_ok.
  2: { right. split; [exact Hvalid|]. cbn [Iv]. rewrite length_take. lia. }
  cbn [fst snd app]. unfold record, rotated_key, world_before_write.
  match goal with
  | |- context [file_Write (fp kr) ?buf ?w0] =>
      destruct (file_Write (fp kr) buf w0) as [[[]| |] w5]
  end; reflexivity.
Qed.

(** X6.  Whenever [latestDataKey] returns an error, the map of keys,
    [lastCreated], every file and every descriptor are as they were before
    the call, and [nextKeyID] has been advanced by one (modulo 2^64). *)
Theorem latestDataKey_error_leaves_keys_and_files (kr kr' : KeyRegistry)
    (w w' : World) (e : error) :
  latestDataKey (kr, w) = (Err e, (kr', w')) ->
  dataKeys kr' = dataKeys kr /\ lastCreated kr' = lastCreated kr /\
  files w' = files w /\ fds w' = fds w /\
  fp kr' = fp kr /\ opt kr' = opt kr /\
  nextKeyID kr' = u64 (nextKeyID kr + 1).
Proof.
  intros E.
  destruct (decide (EncryptionKey (opt kr) = [])) as [Hkey|Hkey].
  { rewrite latestDataKey_no_storage_key in E by exact Hkey. discriminate. }
  destruct (Z.lt_ge_cases (elapsed kr w)
              (EncryptionKeyRotationDuration (opt kr))) as [Hlt|Hge].
  { rewrite latestDataKey_within_period in E by assumption. discriminate. }
  pose proof (latestDataKey_after_period _ _ _ _ _ Hkey Hge E)
    as (Hfp & Hopt & Hn & Hm & Hl & Hf & Hd).
  repeat split; assumption.
Qed.

Lemma latestDataKey_error_leaves_keys_and_files_witness :
  exists kr' w',
    latestDataKey (newKeyRegistry (rotating_options zero16),
                   world_with_entropy zero16)
    = (Err ErrEntropy, (kr', w')) /\
    dataKeys kr' = dataKeys (newKeyRegistry (rotating_options zero16)) /\
    lastCreated kr' = lastCreated (newKeyRegistry (rotating_options zero16)) /\
    files w' = files (world_with_entropy zero16) /\
    fds w' = fds (world_with_entropy zero16) /\
    fp kr' = fp (newKeyRegistry (rotating_options zero16)) /\
    opt kr' = opt (newKeyRegistry (rotating_options zero16)) /\
    nextKeyID kr'
    = u64 (nextKeyID (newKeyRegistry (rotating_options zero16)) + 1).
Proof.
  destruct (latestDataKey (newKeyRegistry (rotating_options zero16),
                           world_with_entropy zero16))
    as [r [kr' w']] eqn:E.
  assert (Hr : r = Err ErrEntropy).
  { change r with (fst (r, (kr', w'))). rewrite <- E.
    vm_compute. reflexivity. }
  subst r. exists kr', w'. split; [reflexivity|].
  exact (latestDataKey_error_leaves_keys_and_files _ _ _ _ _ E).
Defined.

(** X7.  After a rotation has returned its new key (the counter not
    wrapping), [dataKey] serves that key under its ID, every other ID is
    answered as before the rotation, and a call of [latestDataKey] made
    before the next period is over returns the same key and changes
    nothing in the registry. *)
Theorem latestDataKey_new_key_is_served (kr kr' : KeyRegistry) (w w' : World)
    (dk : DataKey) :
  EncryptionKey (opt kr) <> [] ->
  EncryptionKeyRotationDuration (opt kr) <= elapsed kr w ->
  0 <= nextKeyID kr < 2 ^ 64 - 1 ->
  latestDataKey (kr, w) = (Ok (Some dk), (kr', w')) ->
  KeyId dk = nextKeyID kr + 1 /\
  dataKey kr' (KeyId dk) = Ok (Some dk) /\
  (forall id, id <> KeyId dk -> dataKey kr' id = dataKey kr id) /\
  forall w2,
    elapsed kr' w2 < EncryptionKeyRotationDuration (opt kr') ->
    latestDataKey (kr', w2) = (Ok (Some dk), (kr', tick w2)).
Proof.
  intros Hkey Hge Hid E.
  pose proof (latestDataKey_after_period _ _ _ _ _ Hkey Hge E)
    as (Hfp & Hopt & Hn & Hk & Hm & Hl & _).
  assert (Hu : u64 (nextKeyID kr + 1) = nextKeyID kr + 1)
    by (unfold u64; apply Z.mod_small; lia).
  rewrite Hu in *.
  assert (Hserve : dataKeys kr' !! KeyId dk = Some dk)
    by (rewrite Hm; apply lookup_insert_eq).
  split; [exact Hk|]. split; [|split].
  - unfold dataKey. destruct (Z.eqb_spec (KeyId dk) 0); [lia|].
    now rewrite Hserve.
  - intros id Hne. unfold dataKey. destruct (id =? 0); [reflexivity|].
    rewrite Hm, lookup_insert_ne by congruence. reflexivity.
  - intros w2 Hlt.
    rewrite latestDataKey_within_period; [| congruence | exact Hlt].
    rewrite Hn, <- Hk, Hserve. reflexivity.
Qed.

Lemma latestDataKey_new_key_is_served_witness :
  exists dk kr' w',
    latestDataKey (registry_with_key_one, world_at 111)
    = (Ok (Some dk), (kr', w')) /\
    KeyId dk = nextKeyID registry_with_key_one + 1 /\
    dataKey kr' (KeyId dk) = Ok (Some dk) /\
    (forall id, id <> KeyId dk ->
                dataKey kr' id = dataKey registry_with_key_one id) /\
    forall w2,
      elapsed kr' w2 < EncryptionKeyRotationDuration (opt kr') ->
      latestDataKey (kr', w2) = (Ok (Some dk), (kr', tick w2)).
Proof.
  destruct (latestDataKey (registry_with_key_one, world_at 111))
    as [r [kr' w']] eqn:E.
  assert (Hr : exists dk, r = Ok (Some dk)).
  { change r with (fst (r, (kr', w'))). rewrite <- E.
    vm_compute. eexists. reflexivity. }
  destruct Hr as [dk ->]. exists dk, kr', w'. split; [reflexivity|].
  apply (latestDataKey_new_key_is_served
           registry_with_key_one kr' (world_at 111) w' dk).
  - discriminate.
  - vm_compute. discriminate.
  - vm_compute. split; [discriminate | reflexivity].
  - exact E.
Defined.

(** ** Loading a file of records *)

Lemma sealed_sanity_length (storageKey iv : bytes) :
  length (sealed_sanity storageKey iv) = length sanityText.
Proof.
  unfold sealed_sanity. destruct (length storageKey =? 0)%nat;
    [reflexivity | apply keystream_xor_length].
Qed.

Lemma usable_key_cases (storageKey : bytes) (k : DataKey) :
  usable_key storageKey -> storable storageKey k ->
  length storageKey = 0%nat \/
  valid_key_len (length storageKey) = true /\ length (Iv k) = AES.BlockSize.
Proof.
  intros [->|Hk] (_ & Hiv & _); [left; reflexivity|].
  right. split; [exact Hk|]. apply Hiv. intros ->. discriminate.
Qed.

(** the header of a registry file passes [isValidRegistry] under the
    storage key it was written with *)
Lemma isValidRegistry_registry_file (storageKey iv rest : bytes) (w : World)
    (fd : nat) (o : OpenFile) :
  usable_key storageKey ->
  length iv = AES.BlockSize ->
  opened w fd o (iv ++ sealed_sanity storageKey iv ++ rest) ->
  of_off o = 0%nat ->
  isValidRegistry (Some fd) storageKey w
  = (Ok tt, advance fd o (AES.BlockSize + length sanityText) w).
Proof.
  intros Hkey Hiv Hopen Hoff.
  pose proof (sealed_sanity_length storageKey iv) as Hs.
  unfold isValidRegistry, bind, catch.
  rewrite (file_Read_some w fd o _ _ Hopen).
  2: discriminate.
  2: { rewrite Hoff, drop_0. destruct iv; discriminate. }
  rewrite Hoff, drop_0.
  replace (length (make AES.BlockSize)) with (length iv)
    by (rewrite Hiv; reflexivity).
  rewrite take_app_length.
  rewrite copy_into_full by (rewrite Hiv; reflexivity).
  rewrite Hiv.
  pose proof (opened_advance w fd o _ AES.BlockSize Hopen) as Hopen1.
  assert (Hd : drop (of_off (moved o AES.BlockSize))
                 (iv ++ sealed_sanity storageKey iv ++ rest)
               = sealed_sanity storageKey iv ++ rest).
  { cbn [moved of_off]. rewrite Hoff. cbn [Nat.add].
    now rewrite drop_app_length' by (symmetry; exact Hiv). }
  rewrite (file_Read_some _ fd _ _ _ Hopen1).
  2: discriminate.
  2: { rewrite Hd. destruct (sealed_sanity storageKey iv);
         [discriminate Hs | discriminate]. }
  rewrite Hd.
  replace (length (make (length sanityText)))
    with (length (sealed_sanity storageKey iv)) by (rewrite Hs; reflexivity).
  rewrite take_app_length.
  rewrite copy_into_full by (rewrite Hs; reflexivity).
  cbn [fst snd]. rewrite advance_advance, Hs.
  unfold sealed_sanity.
  destruct Hkey as [->|Hk].
  - cbn [length Nat.ltb Nat.leb Nat.eqb]. unfold ret, bytes_Equal.
    rewrite bool_decide_eq_true_2 by reflexivity. reflexivity.
  - assert (Hne : (length storageKey =? 0)%nat = false).
    { destruct storageKey; [discriminate Hk | reflexivity]. }
    rewrite Hne.
    assert (Hpos : (0 <? length storageKey)%nat = true).
    { destruct storageKey; [discriminate Hk | reflexivity]. }
    rewrite Hpos. unfold lift.
    rewrite (XORBlock_ok _ _ _ Hk Hiv), keystream_xor_involutive.
    unfold bytes_Equal.
    rewrite bool_decide_eq_true_2 by reflexivity. reflexivity.
Qed.

Lemma record_length (storageKey : bytes) (k : DataKey) :
  length (record storageKey k) = (8 + length (Pb.Marshal k))%nat.
Proof.
  unfold record. now rewrite frame_length, Marshal_sealed_length.
Qed.

(** over a run of records the loop of [readKeyRegistry] takes the keys in
    one by one and stops at the end of the file *)
Lemma readKeyRegistry_loop_records (storageKey : bytes) (ks : list DataKey) :
  forall (fuel : nat) (kr : KeyRegistry) (lcb : bytes) (w : World)
         (fd : nat) (o : OpenFile) (content : bytes),
    usable_key storageKey ->
    Forall (storable storageKey) ks ->
    length lcb = 8%nat ->
    opened w fd o content ->
    drop (of_off o) content = concat (map (record storageKey) ks) ->
    (length (concat (map (record storageKey) ks)) < fuel)%nat ->
    exists lcb',
      readKeyRegistry_loop fuel kr (mkIterator storageKey (Some fd) lcb, w)
      = (Ok (load_keys ks kr),
         (mkIterator storageKey (Some fd) lcb',
          advance fd o (length (concat (map (record storageKey) ks))) w)).
Proof.
  induction ks as [|k ks IH];
    intros fuel kr lcb w fd o content Hkey Hks Hlcb Hopen Hdrop Hfuel.
  - destruct fuel as [|fuel]; [simpl in Hfuel; lia|].
    exists lcb. cbn [readKeyRegistry_loop map concat length load_keys fold_left].
    unfold bind.
    rewrite (Next_at_end _ w fd o content); [| reflexivity | | exact Hopen
                                             | exact Hdrop].
    2: { cbn [lenCrcBuf]. intros E. rewrite E in Hlcb. discriminate. }
    unfold ret. do 2 f_equal.
    unfold advance, moved, set_fds. destruct Hopen as [Hfd _].
    rewrite Nat.add_0_r.
    replace (mkOpenFile (of_path o) (of_off o) (of_writable o)) with o
      by now destruct o.
    rewrite insert_id by exact Hfd. now destruct w.
  - destruct fuel as [|fuel]; [simpl in Hfuel; lia|].
    inversion Hks as [|? ? Hk Hks']; subst.
    cbn [map concat] in *.
    cbn [readKeyRegistry_loop]. unfold bind.
    unfold record at 1 in Hdrop.
    rewrite (Next_on_frame _ w fd o content
               (Pb.Marshal (sealed storageKey k))
               (concat (map (record storageKey) ks)));
      [| reflexivity | exact Hlcb | exact Hopen | exact Hdrop |].
    2: { rewrite Marshal_sealed_length. now destruct Hk as (_ & _ & Hk). }
    cbn [encryptionKey].
    rewrite open_payload_sealed;
      [| now apply usable_key_cases | now destruct Hk |].
    2: { destruct Hk as (_ & _ & Hk).
         change (2 ^ 63) with 9223372036854775808.
         change (2 ^ 32) with 4294967296 in Hk. lia. }
    cbn [set_lenCrcBuf encryptionKey kri_fp].
    rewrite Marshal_sealed_length.
    pose proof (opened_advance w fd o content
                  (8 + length (Pb.Marshal k)) Hopen) as Hopen1.
    rewrite length_app, record_length in Hfuel.
    destruct (IH fuel (readKeyRegistry_body k kr)
                (take 8 (frame (Pb.Marshal (sealed storageKey k))))
                (advance fd o (8 + length (Pb.Marshal k)) w) fd
                (moved o (8 + length (Pb.Marshal k))) content Hkey Hks')
      as (lcb' & Heq).
    + rewrite length_take, frame_length. lia.
    + exact Hopen1.
    + cbn [moved of_off]. rewrite <- drop_drop, Hdrop.
      rewrite <- record_length with (storageKey := storageKey).
      unfold record. now rewrite drop_app_length.
    + lia.
    + exists lcb'. unfold set_lenCrcBuf. cbn [encryptionKey kri_fp].
      rewrite Heq. rewrite advance_advance.
      rewrite length_app, record_length. reflexivity.
Qed.

Lemma registry_file_length (storageKey iv : bytes) (ks : list DataKey) :
  length (registry_file storageKey iv ks)
  = (length iv + length sanityText
     + length (concat (map (record storageKey) ks)))%nat.
Proof.
  unfold registry_file. rewrite !length_app, sealed_sanity_length. lia.
Qed.

(** [readKeyRegistry] on a descriptor at the start of a registry file,
    under the storage key of the file: the keys of the records, taken in
    one by one, and the descriptor at the end of the file *)
Lemma readKeyRegistry_registry_file (opts : Options) (iv : bytes)
    (ks : list DataKey) (w : World) (fd : nat) (o : OpenFile) :
  usable_key (EncryptionKey opts) ->
  length iv = AES.BlockSize ->
  Forall (storable (EncryptionKey opts)) ks ->
  opened w fd o (registry_file (EncryptionKey opts) iv ks) ->
  of_off o = 0%nat ->
  readKeyRegistry (Some fd) opts w
  = (Ok (load_keys ks (newKeyRegistry opts)),
     advance fd o (length (registry_file (EncryptionKey opts) iv ks)) w).
Proof.
  intros Hkey Hiv Hks Hopen Hoff.
  unfold readKeyRegistry, newKeyRegistryIterator, bind.
  unfold registry_file in Hopen.
  rewrite (isValidRegistry_registry_file _ iv _ w fd o Hkey Hiv Hopen Hoff).
  unfold ret.
  pose proof (opened_advance w fd o _ (AES.BlockSize + length sanityText)
                Hopen) as Hopen1.
  assert (Hd : drop (of_off (moved o (AES.BlockSize + length sanityText)))
                 (iv ++ sealed_sanity (EncryptionKey opts) iv ++
                  concat (map (record (EncryptionKey opts)) ks))
               = concat (map (record (EncryptionKey opts)) ks)).
  { cbn [moved of_off]. rewrite Hoff, Nat.add_0_l, <- drop_drop.
    rewrite drop_app_length' by (symmetry; exact Hiv).
    now rewrite drop_app_length' by (symmetry; apply sealed_sanity_length). }
  assert (Hleft : bytes_left (Some fd)
                    (advance fd o (AES.BlockSize + length sanityText) w)
                  = length (concat (map (record (EncryptionKey opts)) ks))).
  { unfold bytes_left. destruct Hopen1 as [-> ->].
    rewrite <- Hd at 2. now rewrite length_drop. }
  rewrite Hleft.
  destruct (readKeyRegistry_loop_records (EncryptionKey opts) ks
              (S (length (concat (map (record (EncryptionKey opts)) ks))))
              (newKeyRegistry opts) (make 8) _ fd _ _ Hkey Hks eq_refl
              Hopen1 Hd (Nat.lt_succ_diag_r _)) as (lcb' & ->).
  cbn [snd]. rewrite advance_advance, registry_file_length, Hiv.
  reflexivity.
Qed.

(** [OpenKeyRegistry] when the registry file is there and well formed *)
Lemma OpenKeyRegistry_existing_file (o : Options) (w : World)
    (iv : bytes) (ks : list DataKey) :
  usable_key (EncryptionKey o) ->
  length iv = AES.BlockSize ->
  Forall (storable (EncryptionKey o)) ks ->
  files w !! registry_path o = Some (registry_file (EncryptionKey o) iv ks) ->
  OpenKeyRegistry o w
  = (Ok (set_fp (Some (next_fd w)) (load_keys ks (newKeyRegistry o))),
     after_load o (length (registry_file (EncryptionKey o) iv ks)) w).
Proof.
  intros Hkey Hiv Hks Hfile.
  unfold OpenKeyRegistry, OpenExistingFile, catch, bind, get.
  fold (registry_path o). rewrite Hfile. unfold open_fd. cbn [fst snd].
  assert (Hflag : negb (Z.testbit
                          (if ReadOnly o then Z.lor 0 y_ReadOnly
                           else Z.lor 0 y_Sync) 1) = negb (ReadOnly o))
    by (destruct (ReadOnly o); reflexivity).
  rewrite Hflag.
  unfold OpenKeyRegistry_read, catch, bind.
  fold (with_open (registry_path o) (negb (ReadOnly o)) w).
  assert (Hopen : opened (with_open (registry_path o) (negb (ReadOnly o)) w)
                    (next_fd w)
                    (mkOpenFile (registry_path o) 0 (negb (ReadOnly o)))
                    (registry_file (EncryptionKey o) iv ks)).
  { split; [apply lookup_insert_eq | exact Hfile]. }
  rewrite (readKeyRegistry_registry_file o iv ks _ _ _ Hkey Hiv Hks Hopen
             eq_refl).
  reflexivity.
Qed.

(** X8.  [OpenKeyRegistry] on a registry file that exists and was written
    under the storage key of the options (an IV of block size, the sanity
    text, then any number of records of keys that can be stored): it
    succeeds; the registry it returns is what the loop of
    [readKeyRegistry] makes of the keys of the records, taken in the order
    of the file; no file has changed; and the descriptor of the registry
    stands at the end of the file, open for writing unless the options say
    read-only. *)
Theorem OpenKeyRegistry_loads_the_records (o : Options) (w : World)
    (iv : bytes) (ks : list DataKey) :
  usable_key (EncryptionKey o) ->
  length iv = AES.BlockSize ->
  Forall (storable (EncryptionKey o)) ks ->
  files w !! registry_path o = Some (registry_file (EncryptionKey o) iv ks) ->
  exists w',
    OpenKeyRegistry o w
    = (Ok (set_fp (Some (next_fd w)) (load_keys ks (newKeyRegistry o))), w') /\
    files w' = files w /\
    fds w' !! next_fd w
    = Some (mkOpenFile (registry_path o)
              (length (registry_file (EncryptionKey o) iv ks))
              (negb (ReadOnly o))) /\
    (forall fd, fd <> next_fd w -> fds w' !! fd = fds w !! fd).
Proof.
  intros Hkey Hiv Hks Hfile.
  rewrite (OpenKeyRegistry_existing_file o w iv ks Hkey Hiv Hks Hfile).
  eexists. split; [reflexivity|]. split; [reflexivity|]. split.
  - cbn. apply lookup_insert_eq.
  - intros fd Hne. cbn. now rewrite !lookup_insert_ne by congruence.
Qed.

Lemma storable_sample_keys : Forall (storable []) [key_one; key_two].
Proof.
  repeat constructor; try (intros H; now contradiction H);
    vm_compute; congruence.
Qed.

Lemma OpenKeyRegistry_loads_the_records_witness :
  exists w',
    OpenKeyRegistry plain_options
      (world_with_file (registry_file [] zero16 [key_one; key_two]))
    = (Ok (set_fp
             (Some (next_fd (world_with_file
                              (registry_file [] zero16 [key_one; key_two]))))
             (load_keys [key_one; key_two] (newKeyRegistry plain_options))),
       w') /\
    files w'
    = files (world_with_file (registry_file [] zero16 [key_one; key_two])) /\
    fds w' !! next_fd (world_with_file
                         (registry_file [] zero16 [key_one; key_two]))
    = Some (mkOpenFile (registry_path plain_options)
              (length (registry_file (EncryptionKey plain_options) zero16
                         [key_one; key_two]))
              (negb (ReadOnly plain_options))) /\
    (forall fd,
        fd <> next_fd (world_with_file
                         (registry_file [] zero16 [key_one; key_two])) ->
        fds w' !! fd
        = fds (world_with_file
                 (registry_file [] zero16 [key_one; key_two])) !! fd).
Proof.
  apply (OpenKeyRegistry_loads_the_records plain_options
           (world_with_file (registry_file [] zero16 [key_one; key_two]))
           zero16 [key_one; key_two]).
  - left. reflexivity.
  - reflexivity.
  - exact storable_sample_keys.
  - vm_compute. reflexivity.
Defined.

(** ** Keys whose IDs go up *)

Lemma ids_increase_above (ks : list DataKey) :
  forall n k, ids_increase n ks -> k ∈ ks -> n < KeyId k.
Proof.
  induction ks as [|k0 ks IH]; intros n k Hinc Hin.
  - now apply elem_of_nil in Hin.
  - destruct Hinc as [Hlt Hinc].
    apply elem_of_cons in Hin as [->|Hin]; [exact Hlt|].
    specialize (IH _ _ Hinc Hin). lia.
Qed.

Lemma last_cons_default (l : list Z) :
  forall a d, List.last (a :: l) d = List.last l a.
Proof.
  induction l as [|b l IH]; intros a d; [reflexivity|].
  change (List.last (a :: b :: l) d) with (List.last (b :: l) d).
  now rewrite !IH.
Qed.

Lemma load_keys_increasing (ks : list DataKey) :
  forall kr,
    ids_increase (nextKeyID kr) ks ->
    (forall k, k ∈ ks -> dataKeys (load_keys ks kr) !! KeyId k = Some k) /\
    (forall id, (forall k, k ∈ ks -> KeyId k <> id) ->
                dataKeys (load_keys ks kr) !! id = dataKeys kr !! id) /\
    nextKeyID (load_keys ks kr) = List.last (map KeyId ks) (nextKeyID kr).
Proof.
  induction ks as [|k ks IH]; intros kr Hinc.
  - repeat split. intros k Hin. now apply elem_of_nil in Hin.
  - destruct Hinc as [Hlt Hinc].
    destruct (readKeyRegistry_body_spec k kr) as (Hn & _ & Hm).
    rewrite Z.max_r in Hn by lia. rewrite Hn in Hm.
    change (load_keys (k :: ks) kr)
      with (load_keys ks (readKeyRegistry_body k kr)).
    rewrite <- Hn in Hinc.
    destruct (IH _ Hinc) as (Hin & Hout & Hlast).
    split; [|split].
    + intros k' Hk'. apply elem_of_cons in Hk' as [->|Hk'];
        [|exact (Hin _ Hk')].
      rewrite Hout, Hm; [apply lookup_insert_eq|].
      intros k2 Hk2. pose proof (ids_increase_above _ _ _ Hinc Hk2). lia.
    + intros id Hid. rewrite Hout, Hm.
      * apply lookup_insert_ne. apply Hid. apply elem_of_cons. now left.
      * intros k2 Hk2. apply Hid. apply elem_of_cons. now right.
    + rewrite Hlast, Hn. cbn [map]. symmetry. apply last_cons_default.
Qed.

Lemma load_keys_fields (ks : list DataKey) :
  forall kr, fp (load_keys ks kr) = fp kr /\ opt (load_keys ks kr) = opt kr.
Proof.
  induction ks as [|k ks IH]; intros kr; [now split|].
  change (load_keys (k :: ks) kr)
    with (load_keys ks (readKeyRegistry_body k kr)).
  destruct (IH (readKeyRegistry_body k kr)) as [-> ->].
  unfold readKeyRegistry_body.
  destruct (nextKeyID kr <? KeyId k);
    match goal with
    | |- context [if ?c then _ else _] => destruct c
    end; now split.
Qed.

(** X9.  A registry file whose records carry IDs that go up, as the
    rotations of [latestDataKey] write them: the registry that
    [OpenKeyRegistry] returns serves every key of the file under its own
    ID, answers any other ID that is not 0 with [ErrInvalidDataKeyID], and
    its counter of IDs is the ID of the last record (0 for a file without
    records). *)
Theorem OpenKeyRegistry_serves_increasing_ids (o : Options) (w : World)
    (iv : bytes) (ks : list DataKey) :
  usable_key (EncryptionKey o) ->
  length iv = AES.BlockSize ->
  Forall (storable (EncryptionKey o)) ks ->
  ids_increase 0 ks ->
  files w !! registry_path o = Some (registry_file (EncryptionKey o) iv ks) ->
  exists kr w',
    OpenKeyRegistry o w = (Ok kr, w') /\
    (forall k, k ∈ ks -> dataKey kr (KeyId k) = Ok (Some k)) /\
    (forall id, id <> 0 -> (forall k, k ∈ ks -> KeyId k <> id) ->
                dataKey kr id
                = Err (Wrapf ErrInvalidDataKeyID "Error for the KEY ID %d")) /\
    nextKeyID kr = List.last (map KeyId ks) 0.
Proof.
  intros Hkey Hiv Hks Hinc Hfile.
  rewrite (OpenKeyRegistry_existing_file o w iv ks Hkey Hiv Hks Hfile).
  destruct (load_keys_increasing ks (newKeyRegistry o) Hinc)
    as (Hin & Hout & Hlast).
  eexists _, _. split; [reflexivity|]. split; [|split].
  - intros k Hk. unfold dataKey.
    pose proof (ids_increase_above _ _ _ Hinc Hk) as Hpos.
    destruct (Z.eqb_spec (KeyId k) 0) as [E|_]; [lia|].
    cbn [set_fp dataKeys]. now rewrite (Hin k Hk).
  - intros id Hid Hnot. unfold dataKey.
    destruct (Z.eqb_spec id 0) as [E|_]; [contradiction|].
    cbn [set_fp dataKeys]. rewrite (Hout id Hnot).
    cbn [newKeyRegistry dataKeys]. now rewrite lookup_empty.
  - cbn [set_fp nextKeyID]. exact Hlast.
Qed.

Lemma OpenKeyRegistry_serves_increasing_ids_witness :
  exists kr w',
    OpenKeyRegistry plain_options
      (world_with_file (registry_file [] zero16 [key_one; key_two]))
    = (Ok kr, w') /\
    (forall k, k ∈ [key_one; key_two] -> dataKey kr (KeyId k) = Ok (Some k)) /\
    (forall id, id <> 0 ->
                (forall k, k ∈ [key_one; key_two] -> KeyId k <> id) ->
                dataKey kr id
                = Err (Wrapf ErrInvalidDataKeyID "Error for the KEY ID %d")) /\
    nextKeyID kr = List.last (map KeyId [key_one; key_two]) 0.
Proof.
  apply (OpenKeyRegistry_serves_increasing_ids plain_options
           (world_with_file (registry_file [] zero16 [key_one; key_two]))
           zero16 [key_one; key_two]).
  - left. reflexivity.
  - reflexivity.
  - exact storable_sample_keys.
  - cbn. lia.
  - vm_compute. reflexivity.
Defined.

(** ** A file that was written under another storage key *)

(** [isValidRegistry] on a file that has the 16 bytes of an IV and then
    12 bytes in the place of the sanity text *)
Lemma isValidRegistry_header (storageKey iv s rest : bytes) (w : World)
    (fd : nat) (o : OpenFile) :
  usable_key storageKey ->
  length iv = AES.BlockSize ->
  length s = length sanityText ->
  opened w fd o (iv ++ s ++ rest) ->
  of_off o = 0%nat ->
  isValidRegistry (Some fd) storageKey w
  = (if bool_decide (s = sealed_sanity storageKey iv) then Ok tt
     else Err ErrEncryptionKeyMismatch,
     advance fd o (AES.BlockSize + length sanityText) w).
Proof.
  intros Hkey Hiv Hs Hopen Hoff.
  unfold isValidRegistry, bind, catch.
  rewrite (file_Read_some w fd o _ _ Hopen).
  2: discriminate.
  2: { rewrite Hoff, drop_0. destruct iv; discriminate. }
  rewrite Hoff, drop_0.
  replace (length (make AES.BlockSize)) with (length iv)
    by (rewrite Hiv; reflexivity).
  rewrite take_app_length.
  rewrite copy_into_full by (rewrite Hiv; reflexivity).
  rewrite Hiv.
  pose proof (opened_advance w fd o _ AES.BlockSize Hopen) as Hopen1.
  assert (Hd : drop (of_off (moved o AES.BlockSize)) (iv ++ s ++ rest)
               = s ++ rest).
  { cbn [moved of_off]. rewrite Hoff. cbn [Nat.add].
    now rewrite drop_app_length' by (symmetry; exact Hiv). }
  rewrite (file_Read_some _ fd _ _ _ Hopen1).
  2: discriminate.
  2: { rewrite Hd. destruct s; [discriminate Hs | discriminate]. }
  rewrite Hd.
  replace (length (make (length sanityText))) with (length s)
    by (rewrite Hs; reflexivity).
  rewrite take_app_length.
  rewrite copy_into_full by (rewrite Hs; reflexivity).
  cbn [fst snd]. rewrite advance_advance, Hs.
  unfold sealed_sanity.
  destruct Hkey as [->|Hk].
  - cbn [length Nat.ltb Nat.leb Nat.eqb]. unfold ret, bytes_Equal.
    destruct (decide (s = sanityText)) as [E|E].
    + now rewrite !bool_decide_eq_true_2 by exact E.
    + now rewrite !bool_decide_eq_false_2 by exact E.
  - assert (Hne : (length storageKey =? 0)%nat = false).
    { destruct storageKey; [discriminate Hk | reflexivity]. }
    rewrite Hne.
    assert (Hpos : (0 <? length storageKey)%nat = true).
    { destruct storageKey; [discriminate Hk | reflexivity]. }
    rewrite Hpos. unfold lift.
    rewrite (XORBlock_ok _ _ _ Hk Hiv). unfold bytes_Equal.
    destruct (decide (s = keystream_xor sanityText storageKey iv)) as [E|E].
    + rewrite (bool_decide_eq_true_2 _ E).
      rewrite bool_decide_eq_true_2
        by (rewrite E; apply keystream_xor_involutive).
      reflexivity.
    + rewrite (bool_decide_eq_false_2 _ E).
      rewrite bool_decide_eq_false_2; [reflexivity|].
      intros E'. apply E. rewrite <- E'.
      symmetry. apply keystream_xor_involutive.
Qed.

(** X10.  [OpenKeyRegistry] on a file whose 12 bytes after the IV are not
    the sanity text as the storage key of the options seals it (the file
    was written under another key, or under none): the error is
    [ErrEncryptionKeyMismatch], not wrapped; the descriptor that was
    opened is closed again; no file and no other descriptor has
    changed. *)
Theorem OpenKeyRegistry_other_storage_key (o : Options) (w : World)
    (iv s rest : bytes) :
  usable_key (EncryptionKey o) ->
  length iv = AES.BlockSize ->
  length s = length sanityText ->
  s <> sealed_sanity (EncryptionKey o) iv ->
  files w !! registry_path o = Some (iv ++ s ++ rest) ->
  exists w',
    OpenKeyRegistry o w = (Err ErrEncryptionKeyMismatch, w') /\
    files w' = files w /\
    fds w' !! next_fd w = None /\
    (forall fd, fd <> next_fd w -> fds w' !! fd = fds w !! fd).
Proof.
  intros Hkey Hiv Hs Hne Hfile.
  unfold OpenKeyRegistry, OpenExistingFile, catch, bind, get.
  fold (registry_path o). rewrite Hfile. unfold open_fd. cbn [fst snd].
  unfold OpenKeyRegistry_read, readKeyRegistry, newKeyRegistryIterator,
    catch, bind.
  match goal with
  | |- context [isValidRegistry _ _ ?w1] => set (w1' := w1)
  end.
  match goal with
  | w1' := context [<[_ := ?o1]> _] |- _ =>
      assert (Hopen : opened w1' (next_fd w) o1 (iv ++ s ++ rest))
        by (split; [apply lookup_insert_eq | exact Hfile])
  end.
  rewrite (isValidRegistry_header _ iv s rest w1' _ _ Hkey Hiv Hs Hopen
             eq_refl).
  rewrite (bool_decide_eq_false_2 _ Hne).
  unfold file_Close, fail. cbn.
  rewrite lookup_insert_eq. cbn.
  eexists. split; [reflexivity|]. split; [reflexivity|]. split.
  - cbn. apply lookup_delete_eq.
  - intros fd Hfd. cbn.
    rewrite lookup_delete_ne by congruence.
    now rewrite !lookup_insert_ne by congruence.
Qed.

Lemma OpenKeyRegistry_other_storage_key_witness :
  exists w',
    OpenKeyRegistry (rotating_options zero16)
      (world_with_file (registry_file [] zero16 [key_one]))
    = (Err ErrEncryptionKeyMismatch, w') /\
    files w' = files (world_with_file (registry_file [] zero16 [key_one])) /\
    fds w' !! next_fd (world_with_file (registry_file [] zero16 [key_one]))
    = None /\
    (forall fd,
        fd <> next_fd (world_with_file (registry_file [] zero16 [key_one])) ->
        fds w' !! fd
        = fds (world_with_file (registry_file [] zero16 [key_one])) !! fd).
Proof.
  apply (OpenKeyRegistry_other_storage_key (rotating_options zero16)
           (world_with_file (registry_file [] zero16 [key_one]))
           zero16 sanityText (concat (map (record []) [key_one]))).
  - right. reflexivity.
  - reflexivity.
  - reflexivity.
  - vm_compute. discriminate.
  - vm_compute. reflexivity.
Defined.

(** ** Writing the registry *)

Lemma append_inj_r (a b c : string) :
  String.append a b = String.append a c -> b = c.
Proof.
  induction a as [|x a IH]; cbn; [easy|].
  intros [= E]. exact (IH E).
Qed.

Lemma rewrite_path_ne (o : Options) : rewrite_path o <> registry_path o.
Proof.
  unfold rewrite_path, registry_path, Join. intros E.
  apply append_inj_r in E. discriminate E.
Qed.

Lemma rand_Read_enough (n : nat) (w : World) :
  (n <= length (entropy w))%nat ->
  rand_Read n w
  = (Ok (take n (entropy w)),
     mkWorld (files w) (fds w) (next_fd w) (drop n (entropy w)) (clock w)
             (ticks w)).
Proof.
  intros H. unfold rand_Read.
  now destruct (Nat.leb_spec n (length (entropy w))); [|lia].
Qed.

Lemma rand_Read_short (n : nat) (w : World) :
  (length (entropy w) < n)%nat -> rand_Read n w = (Err ErrEntropy, w).
Proof.
  intros H. unfold rand_Read.
  now destruct (Nat.leb_spec n (length (entropy w))); [lia|].
Qed.

Lemma set_dataKeys_same (reg : KeyRegistry) (id : Z) (k : DataKey) :
  dataKeys reg !! id = Some k ->
  set_dataKeys (<[id := k]> (dataKeys reg)) reg = reg.
Proof.
  intros H. unfold set_dataKeys. rewrite (insert_id _ _ _ H).
  now destruct reg.
Qed.

(** under a storage key that is empty or valid, [storeDataKey] leaves the
    key as it found it, whatever the outcome *)
Lemma storeDataKey_same_key (storageKey buf : bytes) (k : DataKey) :
  usable_key storageKey ->
  snd (snd (storeDataKey storageKey (buf, k))) = k.
Proof.
  intros [->|Hk].
  - now rewrite storeDataKey_ok by (left; reflexivity).
  - destruct (Nat.eq_dec (length (Iv k)) AES.BlockSize) as [Hiv|Hiv].
    + now rewrite storeDataKey_ok by (right; split; assumption).
    + unfold storeDataKey, storeDataKey_xor, bind.
      destruct (Nat.eqb_spec (length storageKey) 0) as [E|E].
      { destruct storageKey; [discriminate Hk | discriminate E]. }
      now rewrite (XORBlock_bad_iv _ _ _ Hk Hiv).
Qed.

Lemma WriteKeyRegistry_loop_same_registry (storageKey : bytes)
    (ids : list Z) :
  usable_key storageKey ->
  forall buf reg,
    snd (snd (WriteKeyRegistry_loop ids storageKey (buf, reg))) = reg.
Proof.
  intros Hkey. induction ids as [|id ids IH]; intros buf reg; [reflexivity|].
  cbn [WriteKeyRegistry_loop].
  destruct (dataKeys reg !! id) as [k|] eqn:Ek; [|apply IH].
  pose proof (storeDataKey_same_key storageKey buf k Hkey) as Hsame.
  destruct (storeDataKey storageKey (buf, k)) as [r [buf' k']].
  cbn [snd] in Hsame. subst k'.
  rewrite (set_dataKeys_same _ _ _ Ek).
  destruct r; [apply IH | reflexivity | reflexivity].
Qed.

(** X11.  [WriteKeyRegistry] leaves the registry it is given as it was,
    whatever the outcome: success, an error or the panic of the cipher.
    (An invalid storage key is met at the sanity text, before the loop
    can hand a key to [storeDataKey], which would wipe its material.) *)
Theorem WriteKeyRegistry_leaves_the_registry (o : Options)
    (reg : KeyRegistry) (w : World) :
  fst (snd (WriteKeyRegistry o (reg, w))) = reg.
Proof.
  unfold WriteKeyRegistry, OpenTruncFile, GenerateIV, closeBeforeReturn.
  unfold bind, inWorld, catch, modify, open_fd, self, update, fail.
  cbn [fst snd].
  match goal with
  | |- context [rand_Read AES.BlockSize ?w1] =>
      destruct (rand_Read AES.BlockSize w1) as [[iv|e|msg] w2] eqn:Er
  end; cbn [fst snd].
  2: { destruct (file_Close _ w2) as [[| |] ?]; reflexivity. }
  2: reflexivity.
  assert (Hiv : length iv = AES.BlockSize).
  { unfold rand_Read in Er.
    match type of Er with
    | (if ?c then _ else _) = _ => destruct c eqn:Ec; [|discriminate Er]
    end.
    injection Er as <- _. apply Nat.leb_le in Ec.
    unfold set_files in Ec. cbn [entropy] in *.
    rewrite length_take. lia. }
  destruct (Nat.ltb_spec 0 (length (EncryptionKey o))) as [Hpos|Hzero].
  - destruct (valid_key_len (length (EncryptionKey o))) eqn:Hk.
    + unfold lift. rewrite (XORBlock_ok _ _ _ Hk Hiv). cbn [fst snd].
      pose proof (WriteKeyRegistry_loop_same_registry (EncryptionKey o)
                    (fst <$> map_to_list (dataKeys reg))
                    (or_intror Hk)
                    (iv ++ keystream_xor sanityText (EncryptionKey o) iv)
                    reg) as Hsame.
      destruct (WriteKeyRegistry_loop _ _ _) as [r [buf reg']].
      cbn [snd] in Hsame. subst reg'. cbn [fst snd].
      destruct r as [[]|e|msg]; cbn [fst snd]; [| |reflexivity].
      * destruct (file_Write _ buf w2) as [[[]|e|msg] w3]; cbn [fst snd];
          [| |reflexivity].
        -- destruct (file_Close _ w3) as [[[]|e|msg] w4]; cbn [fst snd];
             [|reflexivity|reflexivity].
           unfold Rename, bind, get, put, fail, syncDir, ret. cbn [fst snd].
           now destruct (files w4 !! _).
        -- destruct (file_Close _ w3) as [[| |] ?]; reflexivity.
      * destruct (file_Close _ w2) as [[| |] ?]; reflexivity.
    + unfold lift. rewrite (XORBlock_bad_key _ _ _ Hk). cbn [fst snd].
      destruct (file_Close _ w2) as [[| |] ?]; reflexivity.
  - assert (Hnil : EncryptionKey o = [])
      by (destruct (EncryptionKey o); [reflexivity | cbn in Hzero; lia]).
    unfold ret. cbn [fst snd].
    pose proof (WriteKeyRegistry_loop_same_registry (EncryptionKey o)
                  (fst <$> map_to_list (dataKeys reg))
                  (or_introl Hnil) (iv ++ sanityText) reg) as Hsame.
    destruct (WriteKeyRegistry_loop _ _ _) as [r [buf reg']].
    cbn [snd] in Hsame. subst reg'. cbn [fst snd].
    destruct r as [[]|e|msg]; cbn [fst snd]; [| |reflexivity].
    + destruct (file_Write _ buf w2) as [[[]|e|msg] w3]; cbn [fst snd];
        [| |reflexivity].
      * destruct (file_Close _ w3) as [[[]|e|msg] w4]; cbn [fst snd];
          [|reflexivity|reflexivity].
        unfold Rename, bind, get, put, fail, syncDir, ret. cbn [fst snd].
        now destruct (files w4 !! _).
      * destruct (file_Close _ w3) as [[| |] ?]; reflexivity.
    + destruct (file_Close _ w2) as [[| |] ?]; reflexivity.
Qed.

(** the loop of [WriteKeyRegistry] when every key can be sealed: a record
    for each ID that is in the map, in the order of the IDs *)
Lemma WriteKeyRegistry_loop_records (storageKey : bytes) (ids : list Z) :
  usable_key storageKey ->
  forall buf reg,
    sealable storageKey reg ->
    WriteKeyRegistry_loop ids storageKey (buf, reg)
    = (Ok tt,
       (buf ++ concat (map (record storageKey)
                         (omap (fun id => dataKeys reg !! id) ids)),
        reg)).
Proof.
  intros Hkey. induction ids as [|id ids IH]; intros buf reg Hreg.
  - cbn. now rewrite app_nil_r.
  - cbn [WriteKeyRegistry_loop omap list_omap].
    destruct (dataKeys reg !! id) as [k|] eqn:Ek; [|now apply IH].
    rewrite storeDataKey_ok.
    2: { destruct Hkey as [->|Hk]; [left; reflexivity|].
         right. split; [exact Hk|]. apply (Hreg ltac:(now intros ->) id k Ek). }
    rewrite (set_dataKeys_same _ _ _ Ek), (IH _ _ Hreg).
    cbn [map concat]. unfold record. now rewrite <- app_assoc.
Qed.

Lemma omap_lookup_map_to_list (m : gmap Z DataKey) :
  omap (fun id => m !! id) (fst <$> map_to_list m) = snd <$> map_to_list m.
Proof.
  assert (H : Forall (fun p => m !! fst p = Some (snd p)) (map_to_list m)).
  { apply Forall_forall. intros [i x] Hin.
    now apply elem_of_map_to_list in Hin. }
  induction H as [|[i x] l Hix _ IH]; [reflexivity|].
  cbn [fmap list_fmap omap list_omap fst snd] in *.
  now rewrite Hix, IH.
Qed.

(** [WriteKeyRegistry] when nothing stands in its way *)
Lemma WriteKeyRegistry_ok (o : Options) (reg : KeyRegistry) (w : World) :
  usable_key (EncryptionKey o) ->
  sealable (EncryptionKey o) reg ->
  (AES.BlockSize <= length (entropy w))%nat ->
  WriteKeyRegistry o (reg, w)
  = (Ok tt,
     (reg,
      after_write o
        (registry_file (EncryptionKey o) (take AES.BlockSize (entropy w))
           (written_keys reg)) w)).
Proof.
  intros Hkey Hreg Hent.
  unfold WriteKeyRegistry, OpenTruncFile, GenerateIV, closeBeforeReturn.
  unfold bind, inWorld, catch, modify, open_fd, self, update, fail.
  cbn [fst snd].
  rewrite rand_Read_enough by exact Hent.
  cbn [fst snd set_files files fds next_fd entropy clock ticks].
  set (iv := take AES.BlockSize (entropy w)).
  assert (Hiv : length iv = AES.BlockSize)
    by (unfold iv; rewrite length_take; lia).
  assert (Hsan : (0 <? length (EncryptionKey o))%nat
                 = negb (length (EncryptionKey o) =? 0)%nat)
    by (now destruct (EncryptionKey o)).
  assert (Hx : (length (EncryptionKey o) =? 0)%nat = false ->
               XORBlock sanityText (EncryptionKey o) iv
               = Ok (keystream_xor sanityText (EncryptionKey o) iv)).
  { intros Hne. destruct Hkey as [Hnil|Hk];
      [now rewrite Hnil in Hne | now apply XORBlock_ok]. }
  unfold registry_file, sealed_sanity. rewrite Hsan.
  destruct (length (EncryptionKey o) =? 0)%nat; cbn [negb];
    [|unfold lift; rewrite (Hx eq_refl)];
    unfold ret; cbn [fst snd];
    rewrite (WriteKeyRegistry_loop_records _ _ Hkey _ _ Hreg),
      omap_lookup_map_to_list;
    fold (written_keys reg); fold (rewrite_path o); fold (registry_path o);
    cbn [fst snd];
    unfold file_Write, file_Close, Rename, syncDir, bind, get, put, ret;
    cbn [fds files next_fd entropy clock ticks set_files set_fds fst snd];
    rewrite lookup_insert_eq; cbn [of_writable of_path of_off];
    rewrite lookup_insert_eq; cbn [fst snd length Nat.sub Nat.add];
    cbn [fds files next_fd entropy clock ticks set_files set_fds fst snd];
    rewrite lookup_insert_eq; cbn [fst snd];
    cbn [fds files next_fd entropy clock ticks set_files set_fds fst snd];
    rewrite lookup_insert_eq; cbn [fst snd];
    unfold after_write, set_files, set_fds;
    cbn [fds files next_fd entropy clock ticks take app];
    rewrite ?drop_nil, ?app_nil_r, <- ?app_assoc; reflexivity.
Qed.

Lemma written_keys_are_the_keys (reg : KeyRegistry) (k : DataKey) :
  k ∈ written_keys reg <-> exists id, dataKeys reg !! id = Some k.
Proof.
  unfold written_keys. rewrite list_elem_of_fmap. split.
  - intros ([id k'] & -> & Hin). exists id.
    now apply elem_of_map_to_list in Hin.
  - intros [id Hid]. exists (id, k). split; [reflexivity|].
    now apply elem_of_map_to_list.
Qed.

(** X12.  [WriteKeyRegistry] under a storage key that is empty or valid,
    with keys whose IVs the cipher accepts and a random source that has an
    IV to give: it succeeds; the registry file then holds that IV, the
    sanity text sealed with it, and one record for each key of the map;
    the file it wrote first is gone under its own name; no other file and
    no descriptor that was open has changed, and the descriptor it used is
    closed. *)
Theorem WriteKeyRegistry_writes_the_registry_file (o : Options)
    (reg : KeyRegistry) (w : World) :
  usable_key (EncryptionKey o) ->
  sealable (EncryptionKey o) reg ->
  (AES.BlockSize <= length (entropy w))%nat ->
  exists w',
    WriteKeyRegistry o (reg, w) = (Ok tt, (reg, w')) /\
    files w' !! registry_path o
    = Some (registry_file (EncryptionKey o) (take AES.BlockSize (entropy w))
              (written_keys reg)) /\
    (forall k, k ∈ written_keys reg <->
               exists id, dataKeys reg !! id = Some k) /\
    length (written_keys reg) = size (dataKeys reg) /\
    files w' !! rewrite_path o = None /\
    (forall p, p <> registry_path o -> p <> rewrite_path o ->
               files w' !! p = files w !! p) /\
    fds w' !! next_fd w = None /\
    (forall fd, fd <> next_fd w -> fds w' !! fd = fds w !! fd).
Proof.
  intros Hkey Hreg Hent.
  rewrite (WriteKeyRegistry_ok o reg w Hkey Hreg Hent).
  pose proof (rewrite_path_ne o) as Hne.
  eexists. split; [reflexivity|].
  unfold after_write. cbn [files fds].
  split; [apply lookup_insert_eq|].
  split; [apply written_keys_are_the_keys|].
  split.
  { unfold written_keys. rewrite length_fmap.
    apply length_map_to_list. }
  split.
  { rewrite lookup_insert_ne by congruence. apply lookup_delete_eq. }
  split.
  { intros p Hp1 Hp2. rewrite lookup_insert_ne by congruence.
    rewrite lookup_delete_ne by congruence.
    now rewrite !lookup_insert_ne by congruence. }
  split; [apply lookup_delete_eq|].
  intros fd Hfd. rewrite lookup_delete_ne by congruence.
  now rewrite !lookup_insert_ne by congruence.
Qed.

Lemma sealable_key_one : sealable zero16 registry_with_key_one.
Proof.
  intros _ id k H. cbn [registry_with_key_one dataKeys] in H.
  apply lookup_singleton_Some in H as [_ <-]. reflexivity.
Qed.

Lemma WriteKeyRegistry_writes_the_registry_file_witness :
  exists w',
    WriteKeyRegistry (rotating_options zero16)
      (registry_with_key_one, world_at 111)
    = (Ok tt, (registry_with_key_one, w')) /\
    files w' !! registry_path (rotating_options zero16)
    = Some (registry_file (EncryptionKey (rotating_options zero16))
              (take AES.BlockSize (entropy (world_at 111)))
              (written_keys registry_with_key_one)) /\
    (forall k, k ∈ written_keys registry_with_key_one <->
               exists id, dataKeys registry_with_key_one !! id = Some k) /\
    length (written_keys registry_with_key_one)
    = size (dataKeys registry_with_key_one) /\
    files w' !! rewrite_path (rotating_options zero16) = None /\
    (forall p, p <> registry_path (rotating_options zero16) ->
               p <> rewrite_path (rotating_options zero16) ->
               files w' !! p = files (world_at 111) !! p) /\
    fds w' !! next_fd (world_at 111) = None /\
    (forall fd, fd <> next_fd (world_at 111) ->
                fds w' !! fd = fds (world_at 111) !! fd).
Proof.
  apply (WriteKeyRegistry_writes_the_registry_file (rotating_options zero16)
           registry_with_key_one (world_at 111)).
  - right. reflexivity.
  - exact sealable_key_one.
  - vm_compute. lia.
Defined.

(** ** Creating the registry *)

(** the second half of [OpenKeyRegistry]: the file is opened and read *)
Lemma open_and_read (o : Options) (w : World) (iv : bytes)
    (ks : list DataKey) :
  usable_key (EncryptionKey o) ->
  length iv = AES.BlockSize ->
  Forall (storable (EncryptionKey o)) ks ->
  files w !! registry_path o = Some (registry_file (EncryptionKey o) iv ks) ->
  (f <- OpenExistingFile (registry_path o)
          (if ReadOnly o then Z.lor 0 y_ReadOnly else Z.lor 0 y_Sync) ;;
   OpenKeyRegistry_read f o) w
  = (Ok (set_fp (Some (next_fd w)) (load_keys ks (newKeyRegistry o))),
     after_load o (length (registry_file (EncryptionKey o) iv ks)) w).
Proof.
  intros Hkey Hiv Hks Hfile.
  unfold OpenExistingFile, bind, get. rewrite Hfile.
  unfold open_fd. cbn [fst snd].
  assert (Hflag : negb (Z.testbit
                          (if ReadOnly o then Z.lor 0 y_ReadOnly
                           else Z.lor 0 y_Sync) 1) = negb (ReadOnly o))
    by (destruct (ReadOnly o); reflexivity).
  rewrite Hflag.
  unfold OpenKeyRegistry_read, catch, bind.
  fold (with_open (registry_path o) (negb (ReadOnly o)) w).
  assert (Hopen : opened (with_open (registry_path o) (negb (ReadOnly o)) w)
                    (next_fd w)
                    (mkOpenFile (registry_path o) 0 (negb (ReadOnly o)))
                    (registry_file (EncryptionKey o) iv ks)).
  { split; [apply lookup_insert_eq | exact Hfile]. }
  rewrite (readKeyRegistry_registry_file o iv ks _ _ _ Hkey Hiv Hks Hopen
             eq_refl).
  reflexivity.
Qed.

Lemma sealable_newKeyRegistry (storageKey : bytes) (o : Options) :
  sealable storageKey (newKeyRegistry o).
Proof. intros _ id k H. cbn in H. now rewrite lookup_empty in H. Qed.

(** [OpenKeyRegistry] when there is no registry file and the options do
    not say read-only *)
Lemma OpenKeyRegistry_no_file (o : Options) (w : World) :
  ReadOnly o = false ->
  files w !! registry_path o = None ->
  OpenKeyRegistry o w
  = match WriteKeyRegistry o (newKeyRegistry o, w) with
    | (Ok _, (_, w1)) =>
        (f <- OpenExistingFile (registry_path o) (Z.lor 0 y_Sync) ;;
         OpenKeyRegistry_read f o) w1
    | (Err e, (_, w1)) =>
        (Err (Wrapf e "Error while writing key registry."), w1)
    | (Panic msg, (_, w1)) => (Panic msg, w1)
    end.
Proof.
  intros Hro Hnone.
  unfold OpenKeyRegistry. fold (registry_path o). rewrite Hro.
  unfold bind at 1. unfold catch at 1. unfold OpenExistingFile at 1.
  unfold bind at 1. unfold get at 1. rewrite Hnone.
  cbn [fail IsNotExist].
  unfold bind at 1. unfold catch at 1.
  destruct (WriteKeyRegistry o (newKeyRegistry o, w)) as [[[]|e|msg] [reg w1]];
    reflexivity.
Qed.

(** X13.  [OpenKeyRegistry] without a registry file, not read-only, with
    a storage key that is empty or valid and a random source that has an
    IV to give: it creates the file, which holds that IV and the sanity
    text sealed with it and no record, and returns an empty registry whose
    descriptor is open for writing and stands at the end of the new file;
    the file that was written first is gone under its own name. *)
Theorem OpenKeyRegistry_creates_the_file (o : Options) (w : World) :
  ReadOnly o = false ->
  usable_key (EncryptionKey o) ->
  files w !! registry_path o = None ->
  (AES.BlockSize <= length (entropy w))%nat ->
  exists kr w',
    OpenKeyRegistry o w = (Ok kr, w') /\
    dataKeys kr = ∅ /\ nextKeyID kr = 0 /\ lastCreated kr = 0 /\
    fp kr = Some (S (next_fd w)) /\
    files w' !! registry_path o
    = Some (take AES.BlockSize (entropy w) ++
            sealed_sanity (EncryptionKey o)
              (take AES.BlockSize (entropy w))) /\
    files w' !! rewrite_path o = None /\
    (forall p, p <> registry_path o -> p <> rewrite_path o ->
               files w' !! p = files w !! p) /\
    fds w' !! S (next_fd w)
    = Some (mkOpenFile (registry_path o)
              (AES.BlockSize + length sanityText) true) /\
    entropy w' = drop AES.BlockSize (entropy w).
Proof.
  intros Hro Hkey Hnone Hent.
  rewrite (OpenKeyRegistry_no_file o w Hro Hnone).
  rewrite (WriteKeyRegistry_ok o _ w Hkey (sealable_newKeyRegistry _ o) Hent).
  set (iv := take AES.BlockSize (entropy w)).
  assert (Hiv : length iv = AES.BlockSize)
    by (unfold iv; rewrite length_take; lia).
  change (written_keys (newKeyRegistry o)) with (@nil DataKey).
  pose proof (rewrite_path_ne o) as Hne.
  assert (Hfile : files (after_write o (registry_file (EncryptionKey o) iv [])
                           w) !! registry_path o
                  = Some (registry_file (EncryptionKey o) iv []))
    by apply lookup_insert_eq.
  pose proof (open_and_read o _ iv [] Hkey Hiv (List.Forall_nil _) Hfile) as E.
  rewrite Hro in E. rewrite E.
  eexists _, _. split; [reflexivity|].
  unfold after_load, after_write, advance, with_open, registry_file.
  cbn [set_fp load_keys fold_left newKeyRegistry dataKeys nextKeyID
         lastCreated fp files fds next_fd entropy set_fds map concat].
  rewrite Hro, !app_nil_r.
  repeat (split; [reflexivity|]).
  split; [apply lookup_insert_eq|].
  split.
  { rewrite lookup_insert_ne by congruence. apply lookup_delete_eq. }
  split.
  { intros p Hp1 Hp2. rewrite lookup_insert_ne by congruence.
    rewrite lookup_delete_ne by congruence.
    now rewrite !lookup_insert_ne by congruence. }
  split; [|reflexivity].
  rewrite lookup_insert_eq. unfold moved. cbn [of_path of_off of_writable negb].
  rewrite length_app, Hiv, sealed_sanity_length. reflexivity.
Qed.

Lemma OpenKeyRegistry_creates_the_file_witness :
  exists kr w',
    OpenKeyRegistry (rotating_options zero16)
      (world_with_entropy (repeat 7 16))
    = (Ok kr, w') /\
    dataKeys kr = ∅ /\ nextKeyID kr = 0 /\ lastCreated kr = 0 /\
    fp kr = Some (S (next_fd (world_with_entropy (repeat 7 16)))) /\
    files w' !! registry_path (rotating_options zero16)
    = Some (take AES.BlockSize (entropy (world_with_entropy (repeat 7 16))) ++
            sealed_sanity (EncryptionKey (rotating_options zero16))
              (take AES.BlockSize
                 (entropy (world_with_entropy (repeat 7 16))))) /\
    files w' !! rewrite_path (rotating_options zero16) = None /\
    (forall p, p <> registry_path (rotating_options zero16) ->
               p <> rewrite_path (rotating_options zero16) ->
               files w' !! p
               = files (world_with_entropy (repeat 7 16)) !! p) /\
    fds w' !! S (next_fd (world_with_entropy (repeat 7 16)))
    = Some (mkOpenFile (registry_path (rotating_options zero16))
              (AES.BlockSize + length sanityText) true) /\
    entropy w'
    = drop AES.BlockSize (entropy (world_with_entropy (repeat 7 16))).
Proof.
  apply (OpenKeyRegistry_creates_the_file (rotating_options zero16)
           (world_with_entropy (repeat 7 16))).
  - reflexivity.
  - right. reflexivity.
  - reflexivity.
  - vm_compute. lia.
Defined.

(** X14.  [OpenKeyRegistry] without a registry file, not read-only, when
    the random source cannot give an IV: the error is the one of the
    random source, wrapped with the message of the failed write; there is
    still no registry file; the file that [WriteKeyRegistry] opened first
    is left behind, empty, and its descriptor is closed. *)
Theorem OpenKeyRegistry_creation_without_iv (o : Options) (w : World) :
  ReadOnly o = false ->
  files w !! registry_path o = None ->
  (length (entropy w) < AES.BlockSize)%nat ->
  exists w',
    OpenKeyRegistry o w
    = (Err (Wrapf ErrEntropy "Error while writing key registry."), w') /\
    files w' !! registry_path o = None /\
    files w' !! rewrite_path o = Some [] /\
    (forall p, p <> rewrite_path o -> files w' !! p = files w !! p) /\
    fds w' !! next_fd w = None /\
    (forall fd, fd <> next_fd w -> fds w' !! fd = fds w !! fd).
Proof.
  intros Hro Hnone Hent.
  rewrite (OpenKeyRegistry_no_file o w Hro Hnone).
  pose proof (rewrite_path_ne o) as Hne.
  unfold WriteKeyRegistry, OpenTruncFile, GenerateIV, closeBeforeReturn.
  unfold bind, inWorld, catch, modify, open_fd, self, update, fail.
  cbn [fst snd].
  rewrite rand_Read_short by exact Hent.
  cbn [fst snd]. unfold file_Close.
  cbn [fds files set_files set_fds next_fd].
  rewrite lookup_insert_eq. cbn [fst snd].
  eexists. split; [reflexivity|].
  cbn [fds files set_files set_fds next_fd]. fold (rewrite_path o).
  split; [now rewrite lookup_insert_ne by congruence|].
  split; [apply lookup_insert_eq|].
  split; [intros p Hp; now rewrite lookup_insert_ne by congruence|].
  split; [apply lookup_delete_eq|].
  intros fd Hfd. rewrite lookup_delete_ne by congruence.
  now rewrite lookup_insert_ne by congruence.
Qed.

Lemma OpenKeyRegistry_creation_without_iv_witness :
  exists w',
    OpenKeyRegistry plain_options empty_world
    = (Err (Wrapf ErrEntropy "Error while writing key registry."), w') /\
    files w' !! registry_path plain_options = None /\
    files w' !! rewrite_path plain_options = Some [] /\
    (forall p, p <> rewrite_path plain_options ->
               files w' !! p = files empty_world !! p) /\
    fds w' !! next_fd empty_world = None /\
    (forall fd, fd <> next_fd empty_world ->
                fds w' !! fd = fds empty_world !! fd).
Proof.
  apply (OpenKeyRegistry_creation_without_iv plain_options empty_world).
  - reflexivity.
  - reflexivity.
  - vm_compute. lia.
Defined.

(** ** A rotation and the file *)

(** a write through a descriptor that stands at the end of its file *)
Lemma file_Write_at_end (w : World) (fd : nat) (o : OpenFile)
    (content p : bytes) :
  opened w fd o content ->
  of_off o = length content ->
  of_writable o = true ->
  file_Write (Some fd) p w
  = (Ok tt,
     set_files (<[of_path o := content ++ p]> (files w))
       (set_fds (<[fd := moved o (length p)]> (fds w)) w)).
Proof.
  intros [Hfd Hfile] Hoff Hw. unfold file_Write.
  rewrite Hfd, Hw, Hfile, Hoff, Nat.sub_diag.
  change (make 0) with (@nil Z).
  rewrite app_nil_r, firstn_all, drop_ge, app_nil_r by lia.
  unfold moved. now rewrite Hw, Hoff.
Qed.

(** X15.  A rotation through a descriptor that is open for writing and
    stands at the end of the registry file, as [OpenKeyRegistry] leaves
    it: the new key is returned and taken into the registry, the file
    grows by the record of that key and by nothing else, every byte it
    held stays in its place, and the descriptor stands at the new end. *)
Theorem latestDataKey_appends_one_record (kr : KeyRegistry) (w : World)
    (fd : nat) (o : OpenFile) (content : bytes) :
  valid_key_len (length (EncryptionKey (opt kr))) = true ->
  EncryptionKeyRotationDuration (opt kr) <= elapsed kr w ->
  (AES.BlockSize + length (EncryptionKey (opt kr)) <= length (entropy w))%nat ->
  fp kr = Some fd ->
  opened w fd o content ->
  of_off o = length content ->
  of_writable o = true ->
  exists w',
    latestDataKey (kr, w)
    = (Ok (Some (rotated_key kr w)), (rotated kr (rotated_key kr w), w')) /\
    files w'
    = <[of_path o := content ++
                     record (EncryptionKey (opt kr)) (rotated_key kr w)]>
        (files w) /\
    fds w'
    = <[fd := moved o (length (record (EncryptionKey (opt kr))
                                 (rotated_key kr w)))]> (fds w).
Proof.
  intros Hvalid Hge Hent Hfp Hopen Hoff Hw.
  assert (Hkey : EncryptionKey (opt kr) <> [])
    by (intros E; rewrite E in Hvalid; discriminate Hvalid).
  rewrite (latestDataKey_rotation_eq kr w Hkey Hge Hvalid Hent), Hfp.
  assert (Hopen' : opened (world_before_write kr w) fd o content)
    by exact Hopen.
  rewrite (file_Write_at_end _ fd o content _ Hopen' Hoff Hw).
  eexists. split; [reflexivity|]. split; reflexivity.
Qed.

Lemma latestDataKey_appends_one_record_witness :
  exists w',
    latestDataKey (registry_with_key_one, world_at 111)
    = (Ok (Some (rotated_key registry_with_key_one (world_at 111))),
       (rotated registry_with_key_one
          (rotated_key registry_with_key_one (world_at 111)), w')) /\
    files w'
    = <[of_path (mkOpenFile "db/KEYREGISTRY" 0 true)
        := [] ++ record (EncryptionKey (opt registry_with_key_one))
                   (rotated_key registry_with_key_one (world_at 111))]>
        (files (world_at 111)) /\
    fds w'
    = <[0%nat := moved (mkOpenFile "db/KEYREGISTRY" 0 true)
                   (length (record (EncryptionKey (opt registry_with_key_one))
                              (rotated_key registry_with_key_one
                                 (world_at 111))))]>
        (fds (world_at 111)).
Proof.
  apply (latestDataKey_appends_one_record registry_with_key_one
           (world_at 111) 0%nat (mkOpenFile "db/KEYREGISTRY" 0 true) []).
  - reflexivity.
  - vm_compute. discriminate.
  - vm_compute. lia.
  - reflexivity.
  - split; reflexivity.
  - reflexivity.
  - reflexivity.
Defined.

(** ** A rotation and the next start *)

Lemma encodeVarint_length (fuel : nat) :
  forall v, (length (Pb.encodeVarint fuel v) <= fuel)%nat.
Proof.
  induction fuel as [|fuel IH]; intros v; cbn [Pb.encodeVarint length];
    [lia|].
  destruct (v <? 128); cbn [length]; [lia|].
  specialize (IH (Z.shiftr v 7)). lia.
Qed.

Lemma fieldVarint_length_le (tag v : Z) :
  (length (Pb.fieldVarint tag v) <= 11)%nat.
Proof.
  unfold Pb.fieldVarint, Pb.varint. destruct (v =? 0); cbn [length]; [lia|].
  pose proof (encodeVarint_length 10 (u64 v)). lia.
Qed.

Lemma fieldBytes_length_le (tag : Z) (d : bytes) :
  (length (Pb.fieldBytes tag d) <= 11 + length d)%nat.
Proof.
  unfold Pb.fieldBytes, Pb.varint. destruct (length d =? 0)%nat;
    cbn [length]; [lia|].
  rewrite length_app.
  pose proof (encodeVarint_length 10 (u64 (Z.of_nat (length d)))). lia.
Qed.

Lemma Marshal_length_le (k : DataKey) :
  (length (Pb.Marshal k) <= 44 + length (Data k) + length (Iv k))%nat.
Proof.
  unfold Pb.Marshal. rewrite !length_app.
  pose proof (fieldVarint_length_le 8 (KeyId k)).
  pose proof (fieldBytes_length_le 18 (Data k)).
  pose proof (fieldBytes_length_le 26 (Iv k)).
  pose proof (fieldVarint_length_le 32 (CreatedAt k)).
  lia.
Qed.

(** the key of a rotation can be stored and read back *)
Lemma rotated_key_storable (kr : KeyRegistry) (w : World) :
  valid_key_len (length (EncryptionKey (opt kr))) = true ->
  (AES.BlockSize + length (EncryptionKey (opt kr)) <= length (entropy w))%nat ->
  clock_typed w ->
  storable (EncryptionKey (opt kr)) (rotated_key kr w).
Proof.
  intros Hvalid Hent Hclock. unfold storable, DataKey_typed, rotated_key.
  cbn [KeyId CreatedAt Iv Data].
  split; [split|split].
  - unfold u64. apply Z.mod_pos_bound. lia.
  - apply Hclock.
  - intros _. rewrite length_take. lia.
  - pose proof (Marshal_length_le (rotated_key kr w)) as Hlen.
    unfold rotated_key in Hlen. cbn [Iv Data] in Hlen.
    rewrite !length_take, length_drop in Hlen.
    assert (Hk : (length (EncryptionKey (opt kr)) <= 32)%nat).
    { unfold valid_key_len in Hvalid.
      destruct (Nat.eqb_spec (length (EncryptionKey (opt kr))) 16);
        [lia|].
      destruct (Nat.eqb_spec (length (EncryptionKey (opt kr))) 24);
        [lia|].
      destruct (Nat.eqb_spec (length (EncryptionKey (opt kr))) 32);
        [lia | discriminate Hvalid]. }
    change AES.BlockSize with 16%nat in *.
    change (2 ^ 32) with 4294967296. lia.
Qed.

Lemma registry_file_snoc (storageKey iv : bytes) (ks : list DataKey)
    (k : DataKey) :
  registry_file storageKey iv ks ++ record storageKey k
  = registry_file storageKey iv (ks ++ [k]).
Proof.
  unfold registry_file.
  rewrite map_app, concat_app. cbn [map concat].
  now rewrite app_nil_r, <- !app_assoc.
Qed.

Lemma load_keys_snoc (ks : list DataKey) (k : DataKey) (kr : KeyRegistry) :
  load_keys (ks ++ [k]) kr = readKeyRegistry_body k (load_keys ks kr).
Proof. unfold load_keys. now rewrite fold_left_app. Qed.

Lemma load_keys_nextKeyID_ge (ks : list DataKey) :
  forall kr, nextKeyID kr <= nextKeyID (load_keys ks kr).
Proof.
  induction ks as [|k ks IH]; intros kr; [cbn; lia|].
  change (load_keys (k :: ks) kr)
    with (load_keys ks (readKeyRegistry_body k kr)).
  specialize (IH (readKeyRegistry_body k kr)).
  destruct (readKeyRegistry_body_spec k kr) as (Hn & _). lia.
Qed.

(** X16.  A rotation is there at the next start.  Take a registry file
    written under the (valid) storage key of the options; open it with
    [OpenKeyRegistry], have [latestDataKey] rotate, and open the file
    again: all three calls succeed, the second registry has the map of
    keys and the counter of IDs that the first had after the rotation, and
    it serves the new key under its ID. *)
Theorem rotation_survives_reopening (o : Options) (w : World) (iv : bytes)
    (ks : list DataKey) :
  ReadOnly o = false ->
  valid_key_len (length (EncryptionKey o)) = true ->
  length iv = AES.BlockSize ->
  Forall (storable (EncryptionKey o)) ks ->
  files w !! registry_path o = Some (registry_file (EncryptionKey o) iv ks) ->
  nextKeyID (load_keys ks (newKeyRegistry o)) < 2 ^ 64 - 1 ->
  EncryptionKeyRotationDuration o
  <= elapsed (load_keys ks (newKeyRegistry o)) w ->
  (AES.BlockSize + length (EncryptionKey o) <= length (entropy w))%nat ->
  clock_typed w ->
  exists kr w1 dk kr' w2 kr2 w3,
    OpenKeyRegistry o w = (Ok kr, w1) /\
    latestDataKey (kr, w1) = (Ok (Some dk), (kr', w2)) /\
    OpenKeyRegistry o w2 = (Ok kr2, w3) /\
    dataKeys kr2 = dataKeys kr' /\
    nextKeyID kr2 = nextKeyID kr' /\
    dataKey kr2 (KeyId dk) = Ok (Some dk) /\
    files w2 !! registry_path o
    = Some (registry_file (EncryptionKey o) iv (ks ++ [dk])).
Proof.
  intros Hro Hvalid Hiv Hks Hfile Hid Hge Hent Hclock.
  assert (Hkey : usable_key (EncryptionKey o)) by (right; exact Hvalid).
  set (kr0 := load_keys ks (newKeyRegistry o)) in *.
  set (content := registry_file (EncryptionKey o) iv ks) in *.
  set (kr := set_fp (Some (next_fd w)) kr0).
  set (w1 := after_load o (length content) w).
  destruct (load_keys_fields ks (newKeyRegistry o)) as [_ Hopt].
  fold kr0 in Hopt. cbn [newKeyRegistry opt] in Hopt.
  assert (Hopt' : opt kr = o) by exact Hopt.
  pose proof (load_keys_nextKeyID_ge ks (newKeyRegistry o)) as Hpos.
  fold kr0 in Hpos. cbn [newKeyRegistry nextKeyID] in Hpos.
  set (dk := rotated_key kr w1).
  assert (Hdk : storable (EncryptionKey o) dk).
  { rewrite <- Hopt'. apply rotated_key_storable.
    - now rewrite Hopt'.
    - rewrite Hopt'. exact Hent.
    - exact Hclock. }
  assert (Hidk : KeyId dk = nextKeyID kr0 + 1).
  { unfold dk, rotated_key. cbn [KeyId]. unfold u64.
    apply Z.mod_small. change (nextKeyID kr) with (nextKeyID kr0). lia. }
  assert (Hne : EncryptionKey (opt kr) <> [])
    by (rewrite Hopt'; intros E; rewrite E in Hvalid; discriminate Hvalid).
  assert (Hge' : EncryptionKeyRotationDuration (opt kr) <= elapsed kr w1)
    by (rewrite Hopt'; exact Hge).
  assert (Hvalid' : valid_key_len (length (EncryptionKey (opt kr))) = true)
    by (rewrite Hopt'; exact Hvalid).
  assert (Hent' : (AES.BlockSize + length (EncryptionKey (opt kr))
                   <= length (entropy w1))%nat)
    by (rewrite Hopt'; exact Hent).
  pose proof (latestDataKey_rotation_eq kr w1 Hne Hge' Hvalid' Hent') as E2.
  fold dk in E2.
  assert (Hopen : opened (world_before_write kr w1) (next_fd w)
                    (moved (mkOpenFile (registry_path o) 0 (negb (ReadOnly o)))
                       (length content))
                    content).
  { split; [apply lookup_insert_eq | exact Hfile]. }
  change (fp kr) with (Some (next_fd w)) in E2.
  rewrite (file_Write_at_end _ _ _ content _ Hopen eq_refl) in E2
    by (cbn; now rewrite Hro).
  match type of E2 with
  | _ = (_, (_, ?w2')) => set (w2 := w2') in *
  end.
  assert (Hfile2 : files w2 !! registry_path o
                   = Some (registry_file (EncryptionKey o) iv (ks ++ [dk]))).
  { unfold w2. cbn [set_files files moved of_path].
    rewrite lookup_insert_eq, Hopt'. f_equal. apply registry_file_snoc. }
  assert (Hks2 : Forall (storable (EncryptionKey o)) (ks ++ [dk])).
  { apply Forall_app. split; [exact Hks|]. now constructor. }
  pose proof (OpenKeyRegistry_existing_file o w2 iv (ks ++ [dk]) Hkey Hiv
                Hks2 Hfile2) as E3.
  rewrite load_keys_snoc in E3. fold kr0 in E3.
  destruct (readKeyRegistry_body_spec dk kr0) as (Hn & _ & Hm).
  rewrite Z.max_r in Hn by lia. rewrite Hn in Hm.
  exists kr, w1, dk, (rotated kr dk), w2. eexists _, _.
  split; [exact (OpenKeyRegistry_existing_file o w iv ks Hkey Hiv Hks Hfile)|].
  split; [exact E2|]. split; [exact E3|].
  cbn [set_fp dataKeys nextKeyID rotated].
  split; [exact Hm|]. split; [exact Hn|]. split; [|exact Hfile2].
  unfold dataKey. destruct (Z.eqb_spec (KeyId dk) 0) as [E|_]; [lia|].
  cbn [set_fp dataKeys]. now rewrite Hm, lookup_insert_eq.
Qed.

Lemma storable_key_one : Forall (storable zero16) [key_one].
Proof.
  repeat constructor; try (intros _; reflexivity); vm_compute; congruence.
Qed.

Lemma clock_typed_world_to_rotate : clock_typed world_to_rotate.
Proof. intros t. vm_compute. split; congruence. Qed.

Lemma rotation_survives_reopening_witness :
  exists kr w1 dk kr' w2 kr2 w3,
    OpenKeyRegistry (rotating_options zero16) world_to_rotate = (Ok kr, w1) /\
    latestDataKey (kr, w1) = (Ok (Some dk), (kr', w2)) /\
    OpenKeyRegistry (rotating_options zero16) w2 = (Ok kr2, w3) /\
    dataKeys kr2 = dataKeys kr' /\
    nextKeyID kr2 = nextKeyID kr' /\
    dataKey kr2 (KeyId dk) = Ok (Some dk) /\
    files w2 !! registry_path (rotating_options zero16)
    = Some (registry_file (EncryptionKey (rotating_options zero16)) zero16
              ([key_one] ++ [dk])).
Proof.
  apply (rotation_survives_reopening (rotating_options zero16)
           world_to_rotate zero16 [key_one]).
  - reflexivity.
  - reflexivity.
  - reflexivity.
  - exact storable_key_one.
  - vm_compute. reflexivity.
  - vm_compute. reflexivity.
  - vm_compute. discriminate.
  - vm_compute. lia.
  - exact clock_typed_world_to_rotate.
Defined.

(** ** A file too short for a header *)

(** X17.  [OpenKeyRegistry] on a registry file that is there and holds at
    most 16 bytes, whatever the storage key: the reads of the header meet
    the end of the file, and the call fails with [io.EOF] (wrapped with
    the message of the IV when the file is empty, bare when the read of
    the sanity text meets the end); the descriptor that was opened is
    closed again, and no file and no other descriptor has changed. *)
Theorem OpenKeyRegistry_short_file (o : Options) (w : World)
    (content : bytes) :
  (length content <= AES.BlockSize)%nat ->
  files w !! registry_path o = Some content ->
  exists w',
    OpenKeyRegistry o w
    = (Err (match content with
            | [] => Wrapf EOF "Error while reading IV for ket registry."
            | _ :: _ => EOF
            end), w') /\
    files w' = files w /\
    fds w' !! next_fd w = None /\
    (forall fd, fd <> next_fd w -> fds w' !! fd = fds w !! fd).
Proof.
  intros Hlen Hfile.
  unfold OpenKeyRegistry, OpenExistingFile, catch, bind, get.
  fold (registry_path o). rewrite Hfile. unfold open_fd. cbn [fst snd].
  unfold OpenKeyRegistry_read, readKeyRegistry, newKeyRegistryIterator,
    isValidRegistry, catch, bind.
  match goal with
  | |- context [file_Read _ _ ?w1] => set (w1' := w1)
  end.
  match goal with
  | w1' := context [<[_ := ?o1]> _] |- _ =>
      assert (Hopen : opened w1' (next_fd w) o1 content)
        by (split; [apply lookup_insert_eq | exact Hfile]);
      set (o1' := o1) in *
  end.
  destruct content as [|c content].
  - rewrite (file_Read_eof w1' _ o1' [] _ Hopen) by (discriminate || easy).
    unfold fail, file_Close. cbn [fst snd].
    destruct Hopen as [Hfd _]. rewrite Hfd.
    eexists. split; [reflexivity|]. split; [reflexivity|]. split.
    + cbn. apply lookup_delete_eq.
    + intros fd Hfd'. cbn. rewrite lookup_delete_ne by congruence.
      now rewrite lookup_insert_ne by congruence.
  - rewrite (file_Read_some w1' _ o1' (c :: content) _ Hopen)
      by (discriminate || easy).
    cbn [fst snd].
    assert (Htake : take (length (make AES.BlockSize))
                      (drop (of_off o1') (c :: content)) = c :: content).
    { change (drop (of_off o1') (c :: content)) with (c :: content).
      apply firstn_all2. exact Hlen. }
    rewrite Htake.
    pose proof (opened_advance w1' _ o1' _ (length (c :: content)) Hopen)
      as Hopen1.
    rewrite (file_Read_eof _ _ _ (c :: content) _ Hopen1).
    2: discriminate.
    2: { cbn [moved of_off o1' Nat.add]. apply drop_all. }
    unfold fail, file_Close. cbn [fst snd].
    destruct Hopen1 as [Hfd _]. rewrite Hfd.
    eexists. split; [reflexivity|]. split; [reflexivity|]. split.
    + cbn. apply lookup_delete_eq.
    + intros fd Hfd'. cbn. rewrite lookup_delete_ne by congruence.
      now rewrite !lookup_insert_ne by congruence.
Qed.

Lemma OpenKeyRegistry_short_file_witness :
  exists w',
    OpenKeyRegistry plain_options (world_with_file [1; 2; 3])
    = (Err (match [1; 2; 3] with
            | [] => Wrapf EOF "Error while reading IV for ket registry."
            | _ :: _ => EOF
            end), w') /\
    files w' = files (world_with_file [1; 2; 3]) /\
    fds w' !! next_fd (world_with_file [1; 2; 3]) = None /\
    (forall fd, fd <> next_fd (world_with_file [1; 2; 3]) ->
                fds w' !! fd = fds (world_with_file [1; 2; 3]) !! fd).
Proof.
  apply (OpenKeyRegistry_short_file plain_options
           (world_with_file [1; 2; 3]) [1; 2; 3]).
  - vm_compute. lia.
  - vm_compute. reflexivity.
Defined.

(** ** What [WriteKeyRegistry] takes from the registry *)

Lemma WriteKeyRegistry_loop_only_keys (storageKey : bytes) (ids : list Z) :
  forall buf reg reg2,
    dataKeys reg = dataKeys reg2 ->
    fst (WriteKeyRegistry_loop ids storageKey (buf, reg))
    = fst (WriteKeyRegistry_loop ids storageKey (buf, reg2)) /\
    fst (snd (WriteKeyRegistry_loop ids storageKey (buf, reg)))
    = fst (snd (WriteKeyRegistry_loop ids storageKey (buf, reg2))) /\
    dataKeys (snd (snd (WriteKeyRegistry_loop ids storageKey (buf, reg))))
    = dataKeys (snd (snd (WriteKeyRegistry_loop ids storageKey (buf, reg2)))).
Proof.
  induction ids as [|id ids IH]; intros buf reg reg2 Hsame.
  - cbn. now repeat split.
  - cbn [WriteKeyRegistry_loop]. rewrite <- Hsame.
    destruct (dataKeys reg !! id) as [k|]; [|now apply IH].
    destruct (storeDataKey storageKey (buf, k)) as [r [buf' k']].
    destruct r as [[]|e|msg].
    + apply IH. cbn. now rewrite Hsame.
    + cbn. now rewrite Hsame.
    + cbn. now rewrite Hsame.
Qed.

(** X18.  [WriteKeyRegistry] takes nothing from the registry but its map
    of keys (its comment says that a closed registry may be given): for
    two registries with the same map, whatever their descriptors, their
    options, counters of IDs and times of creation, the outcome and the
    world after the call are the same. *)
Theorem WriteKeyRegistry_reads_only_the_keys (o : Options)
    (reg reg2 : KeyRegistry) (w : World) :
  dataKeys reg = dataKeys reg2 ->
  fst (WriteKeyRegistry o (reg, w)) = fst (WriteKeyRegistry o (reg2, w)) /\
  snd (snd (WriteKeyRegistry o (reg, w)))
  = snd (snd (WriteKeyRegistry o (reg2, w))).
Proof.
  intros Hsame.
  unfold WriteKeyRegistry, OpenTruncFile, GenerateIV, closeBeforeReturn.
  unfold bind, inWorld, catch, modify, open_fd, self, update, fail.
  cbn [fst snd].
  match goal with
  | |- context [rand_Read AES.BlockSize ?w1] =>
      destruct (rand_Read AES.BlockSize w1) as [[iv|e|msg] w2]
  end; cbn [fst snd].
  2: { destruct (file_Close _ w2) as [[| |] ?]; now split. }
  2: now split.
  assert (Hloop : forall buf,
             fst (WriteKeyRegistry_loop (fst <$> map_to_list (dataKeys reg))
                    (EncryptionKey o) (buf, reg))
             = fst (WriteKeyRegistry_loop
                      (fst <$> map_to_list (dataKeys reg2))
                      (EncryptionKey o) (buf, reg2)) /\
             fst (snd (WriteKeyRegistry_loop
                         (fst <$> map_to_list (dataKeys reg))
                         (EncryptionKey o) (buf, reg)))
             = fst (snd (WriteKeyRegistry_loop
                           (fst <$> map_to_list (dataKeys reg2))
                           (EncryptionKey o) (buf, reg2)))).
  { intros buf. rewrite <- Hsame.
    destruct (WriteKeyRegistry_loop_only_keys (EncryptionKey o)
                (fst <$> map_to_list (dataKeys reg)) buf reg reg2 Hsame)
      as (H1 & H2 & _).
    now split. }
  destruct (Nat.ltb_spec 0 (length (EncryptionKey o))) as [Hpos|Hzero].
  - unfold lift.
    destruct (XORBlock sanityText (EncryptionKey o) iv) as [s|e|msg];
      cbn [fst snd].
    + destruct (Hloop (iv ++ s)) as [H1 H2].
      destruct (WriteKeyRegistry_loop _ _ (iv ++ s, reg)) as [r [buf g]].
      destruct (WriteKeyRegistry_loop _ _ (iv ++ s, reg2)) as [r2 [buf2 g2]].
      cbn [fst snd] in H1, H2. subst r2 buf2. cbn [fst snd].
      destruct r as [[]|e|msg]; cbn [fst snd]; [| |now split].
      * destruct (file_Write _ buf w2) as [[[]|e|msg] w3]; cbn [fst snd];
          [| |now split].
        -- destruct (file_Close _ w3) as [[[]|e|msg] w4]; cbn [fst snd];
             [|now split|now split].
           unfold Rename, bind, get, put, fail, syncDir, ret. cbn [fst snd].
           now destruct (files w4 !! _).
        -- destruct (file_Close _ w3) as [[| |] ?]; now split.
      * destruct (file_Close _ w2) as [[| |] ?]; now split.
    + destruct (file_Close _ w2) as [[| |] ?]; now split.
    + now split.
  - unfold ret. cbn [fst snd].
    destruct (Hloop (iv ++ sanityText)) as [H1 H2].
    destruct (WriteKeyRegistry_loop _ _ (iv ++ sanityText, reg))
      as [r [buf g]].
    destruct (WriteKeyRegistry_loop _ _ (iv ++ sanityText, reg2))
      as [r2 [buf2 g2]].
    cbn [fst snd] in H1, H2. subst r2 buf2. cbn [fst snd].
    destruct r as [[]|e|msg]; cbn [fst snd]; [| |now split].
    + destruct (file_Write _ buf w2) as [[[]|e|msg] w3]; cbn [fst snd];
        [| |now split].
      * destruct (file_Close _ w3) as [[[]|e|msg] w4]; cbn [fst snd];
          [|now split|now split].
        unfold Rename, bind, get, put, fail, syncDir, ret. cbn [fst snd].
        now destruct (files w4 !! _).
      * destruct (file_Close _ w3) as [[| |] ?]; now split.
    + destruct (file_Close _ w2) as [[| |] ?]; now split.
Qed.

Lemma WriteKeyRegistry_reads_only_the_keys_witness :
  fst (WriteKeyRegistry (rotating_options zero16)
         (registry_with_key_one, world_at 111))
  = fst (WriteKeyRegistry (rotating_options zero16)
           (mkKeyRegistry {[ 1 := key_one ]} 0 0 None plain_options,
            world_at 111)) /\
  snd (snd (WriteKeyRegistry (rotating_options zero16)
              (registry_with_key_one, world_at 111)))
  = snd (snd (WriteKeyRegistry (rotating_options zero16)
                (mkKeyRegistry {[ 1 := key_one ]} 0 0 None plain_options,
                 world_at 111))).
Proof.
  apply (WriteKeyRegistry_reads_only_the_keys (rotating_options zero16)
           registry_with_key_one
           (mkKeyRegistry {[ 1 := key_one ]} 0 0 None plain_options)
           (world_at 111)).
  reflexivity.
Defined.
